(** * telegram_downloader: a shallow embedding of [main.py]

    The script walks a chat history, downloads the media it finds and
    keeps a ledger ([state.json]) of what was downloaded.  Each function
    of [main.py] is embedded below under its own name, with the Python
    objects it mutates passed in and returned explicitly, and with the
    exceptions it can raise as the [Raise] case of [result]. *)

From Stdlib Require Import ZArith String Ascii List Bool Arith Lia.
From Stdlib Require Import DecimalString DecimalZ DecimalNat DecimalPos DecimalFacts FinFun.
Import ListNotations.
Open Scope string_scope.

(** ** Exceptions and results *)

Inductive exn : Type :=
| KeyError         (* d[k] on a missing key *)
| ValueError       (* int(s) on a string that is not a numeral *)
| TypeError        (* json.dump on an object that is not serializable *)
| JSONDecodeError  (* json.load on a file that is not JSON *)
| AttributeError   (* message.file.name when message.file is None *)
| IndexError       (* l[i] past the end of a list *)
| ClientError.     (* anything raised by the telethon client *)

(** What a call comes to: it returns, it raises, or (for the one loop
    of the program whose end is not plain from its text) it has not
    finished within the bound the model gives it. *)
Inductive result (A : Type) : Type :=
| Ok (a : A)
| Raise (e : exn)
| Unfinished.
Arguments Ok {A} a.
Arguments Raise {A} e.
Arguments Unfinished {A}.

Definition bind {A B} (r : result A) (k : A -> result B) : result B :=
  match r with
  | Ok a => k a
  | Raise e => Raise e
  | Unfinished => Unfinished
  end.

Notation "x <- c ;; k" := (bind c (fun x => k))
  (at level 61, c at next level, right associativity).

Definition is_ok {A} (r : result A) : bool :=
  match r with Ok _ => true | _ => false end.

(** ** Python dictionaries

    A [dict] keeps its keys in insertion order and the program relies on
    that order ([get_last_id] walks [items()]), so a dictionary is an
    association list: the head is the oldest key. *)

Module Dict.
Section WithValues.
Context {V : Type}.

Definition t : Type := list (string * V).

Definition empty : t := [].

(** [d.get(k)]; the program's [d[k]] is [get] with [None] read as
    [KeyError], and [k in d] is [mem]. *)
Fixpoint get (d : t) (k : string) : option V :=
  match d with
  | [] => None
  | (k', v) :: rest => if String.eqb k' k then Some v else get rest k
  end.

Definition mem (d : t) (k : string) : bool :=
  match get d k with Some _ => true | None => false end.

(** [d[k] = v]: an existing key keeps its place, a new one goes last. *)
Fixpoint set (d : t) (k : string) (v : V) : t :=
  match d with
  | [] => [(k, v)]
  | (k', v') :: rest =>
      if String.eqb k' k then (k, v) :: rest else (k', v') :: set rest k v
  end.

Definition keys (d : t) : list string := map fst d.

End WithValues.
Arguments t V : clear implicits.

(** The same function applied to every value, keys and order kept: a
    loop over [d.values()] that mutates each value, or the conversion
    of every value on load. *)
Definition map_values {A B : Type} (f : A -> B) (d : t A) : t B :=
  map (fun kv => (fst kv, f (snd kv))) d.
End Dict.

(** ** Numerals: [str] and [int] *)

(** [str(n)] for a Python integer. *)
Definition str (z : Z) : string := NilZero.string_of_int (Z.to_int z).

(** [str(n)] for a counter that is never negative. *)
Definition str_nat (n : nat) : string := NilZero.string_of_uint (Nat.to_uint n).

(** [last_key] in [get_last_id] holds the integer [0] before the loop and
    a dictionary key (a string) afterwards. *)
Inductive pyval : Type :=
| PyInt (z : Z)
| PyStr (s : string).

(** [int(v)].  On strings this is the decimal reader: an optional minus
    sign and ASCII digits.  Python accepts a few more spellings (blanks
    around the numeral, a plus sign, underscores); the program only
    produces keys with [str], which both read alike. *)
Definition int (v : pyval) : result Z :=
  match v with
  | PyInt z => Ok z
  | PyStr s =>
      match NilZero.int_of_string s with
      | Some d => Ok (Z.of_int d)
      | None => Raise ValueError
      end
  end.

(** ** Messages, as the telethon client hands them over *)

Record File : Type := mkFile {
  name : option string;     (* message.file.name, None when absent *)
  ext : option string;      (* message.file.ext, with its leading dot;
                               None when telethon cannot tell it *)
  mime_type : string
}.

Record datetime : Type := mkDate {
  year : nat; month : nat; day : nat; hour : nat; minute : nat
}.

Record Message : Type := mkMessage {
  id : Z;
  media : bool;             (* message.media is not None *)
  file : option File;       (* message.file *)
  date : datetime
}.

(** ** The ledger *)

(** A record as [state.json] stores it.  The file is taken to have the
    shape the program writes: chats by id, records by message id, and
    in a record the two flags. *)
Record jrecord : Type := mkJ {
  j_has_media : bool;
  j_downloaded : option bool      (* the key is absent when there is no media *)
}.

(** A record in memory: the same, with the ["message"] key holding the
    live message while the record waits in the download queue. *)
Record state_item : Type := mkItem {
  has_media : bool;
  downloaded : option bool;
  message : option Message
}.

Definition chat_state_t : Type := Dict.t state_item.
Definition state_t : Type := Dict.t chat_state_t.
Definition ledger : Type := Dict.t (Dict.t jrecord).

(** [state.json] on disk. *)
Inductive state_file : Type :=
| NoFile                    (* os.path.isfile('./state.json') is False *)
| Json (l : ledger)         (* a file holding a serialized ledger *)
| Garbled.                  (* a file that json.load rejects *)

Definition of_jrecord (r : jrecord) : state_item :=
  mkItem (j_has_media r) (j_downloaded r) None.

(** What [json.load] builds from a stored ledger. *)
Definition json_load (l : ledger) : state_t :=
  Dict.map_values (Dict.map_values of_jrecord) l.

(** [json.dump] of one record: a [Message] object is not serializable. *)
Definition dump_item (v : state_item) : option jrecord :=
  match message v with
  | Some _ => None
  | None => Some (mkJ (has_media v) (downloaded v))
  end.

Fixpoint dump_dict {A B} (f : A -> option B) (d : Dict.t A) : option (Dict.t B) :=
  match d with
  | [] => Some []
  | (k, v) :: rest =>
      match f v, dump_dict f rest with
      | Some v', Some rest' => Some ((k, v') :: rest')
      | _, _ => None
      end
  end.

Definition json_dump (state : state_t) : option ledger :=
  dump_dict (dump_dict dump_item) state.

(** *** [write_state_to_file] (main.py 11-23) *)

(** [del state_item["message"]] when the key is there. *)
Definition del_message (v : state_item) : state_item :=
  mkItem (has_media v) (downloaded v) None.

(** The function mutates [state] in place, so the model returns the
    mutated dictionary next to the outcome and the file left on disk.
    [user_state] is the dictionary stored at [state[user_id]], so the
    loop over its values changes [state] itself.  [open(..., "w")]
    truncates the file before [json.dump] runs, so a dump that raises
    leaves a file that is not JSON. *)
Definition strip_and_dump (state : state_t) (user_id : string)
  (user_state : chat_state_t) : result unit * state_t * state_file :=
  let state := Dict.set state user_id (Dict.map_values del_message user_state) in
  match json_dump state with
  | Some l => (Ok tt, state, Json l)
  | None => (Raise TypeError, state, Garbled)
  end.

Definition write_state_to_file (state : state_t) (user_id : string)
  : result unit * state_t * state_file :=
  match Dict.get state user_id with
  | Some user_state => strip_and_dump state user_id user_state
  | None =>
      strip_and_dump (Dict.set state user_id Dict.empty) user_id Dict.empty
  end.

(** *** [read_state_from_file] (main.py 26-33) *)

Definition read_state_from_file (f : state_file) : result state_t :=
  match f with
  | NoFile => Ok Dict.empty
  | Json l => Ok (json_load l)
  | Garbled => Raise JSONDecodeError
  end.

(** *** [get_last_id] (main.py 36-51) *)

(** [value["has_media"] and not value["downloaded"]]: the second key is
    only read when the first is true. *)
Definition not_downloaded (value : state_item) : result bool :=
  if has_media value then
    match downloaded value with
    | Some d => Ok (negb d)
    | None => Raise KeyError
    end
  else Ok false.

(** The [for] loop over [state[user_id].items()] with its early return. *)
Fixpoint scan_items (items : list (string * state_item)) (last_key : pyval)
  : result Z :=
  match items with
  | [] => int last_key
  | (key, value) :: rest =>
      let last_key := PyStr key in
      match not_downloaded value with
      | Ok true => int last_key
      | Ok false => scan_items rest last_key
      | Raise e => Raise e
      | Unfinished => Unfinished
      end
  end.

Definition get_last_id (state : state_t) (user_id : string)
  : result Z * state_t :=
  match Dict.get state user_id with
  | Some user_state => (scan_items user_state (PyInt 0), state)
  | None => (Ok 0%Z, Dict.set state user_id Dict.empty)
  end.

(** ** The path resolver *)

(** The files on disk: the paths for which [is_file()] answers true. *)
Definition fs_t : Type := list string.

Definition is_file (fs : fs_t) (path : string) : bool :=
  existsb (String.eqb path) fs.

(** [sub in s] on strings. *)
Definition contains (sub s : string) : bool :=
  match index 0 sub s with Some _ => true | None => false end.

(** [s[:-n]]: Python reads [-0] as [0], so [s[:-0]] is the empty string;
    for other [n] the last [n] characters go, all of them when [s] is
    shorter than that.  A character of the model is a byte: for ASCII
    text that is Python's character. *)
Definition drop_last (s : string) (n : nat) : string :=
  match n with
  | O => ""
  | S _ => substring 0 (String.length s - n) s
  end.

Fixpoint zeros (n : nat) : string :=
  match n with O => "" | S n => String "0" (zeros n) end.

(** A number printed on at least [w] digits, zero filled. *)
Definition pad (w n : nat) : string :=
  zeros (w - String.length (str_nat n)) ++ str_nat n.

(** [date.strftime("%Y%m%d-%H%M")], for years of at most four digits. *)
Definition strftime (d : datetime) : string :=
  pad 4 (year d) ++ pad 2 (month d) ++ pad 2 (day d) ++ "-"
    ++ pad 2 (hour d) ++ pad 2 (minute d).

(** [str(pathlib.Path("media", media_type, file))] for a plain file name. *)
Definition Path (media_type file : string) : string :=
  "media/" ++ media_type ++ "/" ++ file.

(** ["{}".format(x)] for a string or [None]. *)
Definition format_ (x : option string) : string :=
  match x with
  | Some s => s
  | None => "None"
  end.

(** The file name the message brings, or the one made up for it
    (main.py 57-65).  [len(message.file.ext)] raises [TypeError] when
    the extension is [None]. *)
Definition base_name (message : Message) (f : File) : result string :=
  match name f with
  | Some file_name =>
      match ext f with
      | Some e => Ok (drop_last file_name (String.length e))
      | None => Raise TypeError
      end
  | None => Ok (str (id message) ++ " - " ++ strftime (date message))
  end.

(** main.py 67-73. *)
Definition media_type_of (mime : string) : string :=
  if contains "image" mime then "images"
  else if contains "video" mime then "videos"
  else "other".

Definition numbered (media_type file_name : string) (number : nat)
  (ext : string) : string :=
  Path media_type (file_name ++ " - " ++ str_nat number ++ ext).

(** The [while conflict] loop (main.py 82-92), entered with [conflict]
    true.  [fuel] bounds the number of turns. *)
Fixpoint enumerate_names (fuel : nat) (fs : fs_t)
  (media_type file_name ext : string) (number : nat) : result string :=
  match fuel with
  | O => Unfinished
  | S fuel =>
      let number := number + 1 in
      let path := numbered media_type file_name number ext in
      if is_file fs path
      then enumerate_names fuel fs media_type file_name ext number
      else Ok path
  end.

(** *** [get_file_path] (main.py 54-93)

    The loop is given one turn more than there are files on disk, which
    is always enough ([get_file_path_finishes] below). *)
Definition get_file_path (fs : fs_t) (message : Message) : result string :=
  match file message with
  | None => Raise AttributeError
  | Some f =>
      file_name <- base_name message f ;;
      let media_type := media_type_of (mime_type f) in
      let e := format_ (ext f) in
      let path := Path media_type (file_name ++ e) in
      if is_file fs path then
        enumerate_names (S (List.length fs)) fs media_type file_name e 0
      else Ok path
  end.

(** ** The telethon client

    The client is outside the program.  A run sees these things of it:
    whether the chat resolves, the messages of the chat, what a
    download does to the disk and returns, and, for the downloads of a
    batch, which are in flight together, the order in which they come
    to their end and what a download that is cut short leaves behind.
    The history is taken as delivered whole: an iteration that fails
    part of the way is not modelled. *)
Record client_t : Type := mkClient {
  (* client.get_entity(user_id): the chat, or an exception *)
  get_entity : string -> result unit;
  (* the chat's messages, oldest first, as reverse=True delivers them *)
  history : list Message;
  (* client.download_media(message, path) run on a disk: the disk it
     leaves, and the path written (None when nothing was downloaded) or
     the exception raised *)
  download_media : fs_t -> Message -> string -> result (option string) * fs_t;
  (* the order in which the downloads of a batch come to their end, as
     positions in the list of tasks: the network decides it, not the
     program *)
  finish_order : fs_t -> list (Message * string) -> list nat;
  (* what a download that is still in flight when the join ends has
     left on disk *)
  in_flight : fs_t -> Message -> string -> fs_t
}.

(** Modelled from the spec: [client.iter_messages(entity, reverse=True,
    min_id=last_id)] is telethon's, not this repository's.  The spec's
    collaborator contract asks for "an oldest-to-newest message stream
    with a 'start strictly after this id' filter", which is also what
    telethon documents for [min_id] (messages with an id lower than or
    equal to it are excluded). *)
Definition iter_messages (client : client_t) (min_id : Z) : list Message :=
  filter (fun m => (min_id <? id m)%Z) (history client).

(** ** What a run does, in order *)

Inductive event : Type :=
| Enqueue (key : string)               (* download_queue.append(state_item) *)
| Call (message : Message) (path : string)
       (outcome : result (option string))  (* client.download_media(message, path) and what it came to *)
| Mark (key : string) (confirmed : bool)    (* one turn of the loop that records the results *)
| Save (f : state_file).               (* state.json rewritten *)

(** ** The batch downloader: [download_messages] (main.py 96-118)

    The entries of [download_queue] are the very dictionaries stored in
    [chat_state]: an entry is held here by the key under which
    [chat_state] stores it, and reading or changing the entry goes
    through [chat_state]. *)

(** [[x["message"] for x in download_queue]]. *)
Fixpoint queue_messages (chat_state : chat_state_t) (download_queue : list string)
  : result (list Message) :=
  match download_queue with
  | [] => Ok []
  | x :: rest =>
      match Dict.get chat_state x with
      | None => Raise KeyError
      | Some item =>
          match message item with
          | None => Raise KeyError
          | Some m => ms <- queue_messages chat_state rest ;; Ok (m :: ms)
          end
      end
  end.

(** The list of download tasks: every path is resolved while the list
    is built, before any download has started, so all of them are
    resolved against the same disk. *)
Fixpoint download_tasks (fs : fs_t) (messages : list Message)
  : result (list (Message * string)) :=
  match messages with
  | [] => Ok []
  | m :: rest =>
      path <- get_file_path fs m ;;
      tasks <- download_tasks fs rest ;;
      Ok ((m, path) :: tasks)
  end.

(** [asyncio.gather] over the download tasks (main.py 107).

    The tasks are started together and come to their end in the order
    the client gives.  [gather] is called without [return_exceptions]:
    the first download that raises ends the join there and then, with
    its exception.  The downloads still in flight are not cancelled,
    but nothing waits for them: [run] has no [except] clause, so the
    exception leaves [run] through its [finally] and the event loop is
    done.  Their outcome is never seen ([Unfinished]), and what they
    have left on disk by then is the client's to say. *)

(** The first occurrences of the numbers of a list that are not in
    [seen]. *)
Fixpoint distinct (seen l : list nat) : list nat :=
  match l with
  | [] => []
  | i :: l =>
      if existsb (Nat.eqb i) seen then distinct seen l
      else i :: distinct (i :: seen) l
  end.

(** The order in which [n] tasks come to their end, from the order the
    client names: positions out of range or named again are passed
    over, and the tasks it does not name come last, in list order. *)
Definition finishing (n : nat) (order : list nat) : list nat :=
  let named := distinct [] (filter (fun i => i <? n)%nat order) in
  (named ++ filter (fun i => negb (existsb (Nat.eqb i) named)) (seq 0 n))%list.

(** The downloads left in flight when the join has ended. *)
Fixpoint abandon (client : client_t) (fs : fs_t) (tasks : list (Message * string))
  (order : list nat) : fs_t :=
  match order with
  | [] => fs
  | i :: rest =>
      match nth_error tasks i with
      | Some (m, path) => abandon client (in_flight client fs m path) tasks rest
      | None => abandon client fs tasks rest
      end
  end.

(** The downloads come to their end one after the other in the given
    order, each on the disk the earlier ones left, up to the first that
    raises: what is returned is the outcome of each download that came
    to its end, by position, and the disk. *)
Fixpoint run_in_order (client : client_t) (fs : fs_t)
  (tasks : list (Message * string)) (order : list nat)
  : list (nat * result (option string)) * fs_t :=
  match order with
  | [] => ([], fs)
  | i :: rest =>
      match nth_error tasks i with
      | None => run_in_order client fs tasks rest
      | Some (m, path) =>
          let '(r, fs) := download_media client fs m path in
          match r with
          | Raise e => ([(i, r)], abandon client fs tasks rest)
          | _ =>
              let '(done, fs) := run_in_order client fs tasks rest in
              ((i, r) :: done, fs)
          end
      end
  end.

(** The outcome of the task at a position: [Unfinished] for a download
    that had not come to its end when the join ended. *)
Definition outcome (done : list (nat * result (option string))) (i : nat)
  : result (option string) :=
  match find (fun d => fst d =? i)%nat done with
  | Some d => snd d
  | None => Unfinished
  end.

(** The outcome of every task, in the order of the tasks, and the disk
    when the join ends. *)
Definition run_tasks (client : client_t) (fs : fs_t) (tasks : list (Message * string))
  : list (result (option string)) * fs_t :=
  let order := finishing (List.length tasks) (finish_order client fs tasks) in
  let '(done, fs) := run_in_order client fs tasks order in
  (map (outcome done) (seq 0 (List.length tasks)), fs).

(** What the caller of the join gets: the results in the order of the
    tasks when every download returned; the exception of the download
    that raised (the join ended there, so no other did); and nothing
    as long as a download that does not raise does not come to its
    end. *)
Fixpoint join {A} (rs : list (result A)) : result (list A) :=
  match rs with
  | [] => Ok []
  | r :: rs =>
      match r, join rs with
      | Raise e, _ => Raise e
      | _, Raise e => Raise e
      | Ok x, Ok xs => Ok (x :: xs)
      | _, _ => Unfinished
      end
  end.

Definition gather (client : client_t) (fs : fs_t) (tasks : list (Message * string))
  : result (list (option string)) * fs_t :=
  let '(rs, fs) := run_tasks client fs tasks in (join rs, fs).

(** The download calls of a batch, one for each task, with what each
    came to. *)
Definition calls (client : client_t) (fs : fs_t) (tasks : list (Message * string))
  : list event :=
  map (fun tr => Call (fst (fst tr)) (snd (fst tr)) (snd tr))
      (combine tasks (fst (run_tasks client fs tasks))).

(** [file_paths[count] is not None] and [pathlib.Path(file_path).is_file()]. *)
Definition confirmed (fs : fs_t) (file_path : option string) : bool :=
  match file_path with
  | Some p => is_file fs p
  | None => false
  end.

Definition set_downloaded (item : state_item) : state_item :=
  mkItem (has_media item) (Some true) (message item).

(** The loop over [enumerate(messages)] (main.py 109-118).  It changes
    [chat_state] as it goes, so what it has changed stays changed when
    it raises. *)
Fixpoint record_results (fs : fs_t) (chat_state : chat_state_t)
  (messages : list Message) (file_paths : list (option string))
  : result unit * chat_state_t * list event :=
  match messages with
  | [] => (Ok tt, chat_state, [])
  | m :: rest =>
      match file_paths with
      | [] => (Raise IndexError, chat_state, [])
      | file_path :: file_paths =>
          let message_id := str (id m) in
          if confirmed fs file_path then
            match Dict.get chat_state message_id with
            | None => (Raise KeyError, chat_state, [])
            | Some item =>
                let chat_state := Dict.set chat_state message_id (set_downloaded item) in
                let '(r, chat_state, tr) := record_results fs chat_state rest file_paths in
                (r, chat_state, Mark message_id true :: tr)
            end
          else
            let '(r, chat_state, tr) := record_results fs chat_state rest file_paths in
            (r, chat_state, Mark message_id false :: tr)
      end
  end.

Definition download_messages (client : client_t) (download_queue : list string)
  (chat_state : chat_state_t) (fs : fs_t)
  : result unit * chat_state_t * fs_t * list event :=
  match queue_messages chat_state download_queue with
  | Ok messages =>
      match download_tasks fs messages with
      | Ok tasks =>
          let issued := calls client fs tasks in
          match gather client fs tasks with
          | (Ok file_paths, fs) =>
              let '(r, chat_state, tr) :=
                record_results fs chat_state messages file_paths in
              (r, chat_state, fs, (issued ++ tr)%list)
          | (Raise e, fs) => (Raise e, chat_state, fs, issued)
          | (Unfinished, fs) => (Unfinished, chat_state, fs, issued)
          end
      | Raise e => (Raise e, chat_state, fs, [])
      | Unfinished => (Unfinished, chat_state, fs, [])
      end
  | Raise e => (Raise e, chat_state, fs, [])
  | Unfinished => (Unfinished, chat_state, fs, [])
  end.

(** ** The run loop: [run] (main.py 121-173) *)

(** What the loop holds between two messages.  [chat_state] of the
    program is the dictionary stored at [state[user_id]] (main.py 135):
    the model reads it from [r_state] where the program uses it and
    writes it back where the program changes it. *)
Record run_state : Type := mkRun {
  r_state : state_t;              (* state *)
  r_queue : list string;          (* download_queue, see download_messages *)
  r_disk : fs_t;                  (* the media files on disk *)
  r_file : state_file;            (* state.json *)
  r_trace : list event            (* what has been done so far *)
}.

Definition has_file (message : Message) : bool :=
  match file message with Some _ => true | None => false end.

Definition attach (item : state_item) (message : Message) : state_item :=
  mkItem (has_media item) (downloaded item) (Some message).

(** The body of [async for message in messages] up to the test of the
    queue length (main.py 139-161). *)
Definition examine (chat_state : chat_state_t) (download_queue : list string)
  (message : Message) : result (chat_state_t * list string * list event) :=
  let message_id := str (id message) in
  match Dict.get chat_state message_id with
  | None =>
      if media message && has_file message then
        let state_item := mkItem true (Some false) (Some message) in
        Ok (Dict.set chat_state message_id state_item,
            (download_queue ++ [message_id])%list,
            [Enqueue message_id])
      else
        Ok (Dict.set chat_state message_id (mkItem false None None),
            download_queue, [])
  | Some state_item =>
      pending <- not_downloaded state_item ;;
      if pending then
        Ok (Dict.set chat_state message_id (attach state_item message),
            (download_queue ++ [message_id])%list,
            [Enqueue message_id])
      else Ok (chat_state, download_queue, [])
  end.

(** [if len(download_queue) >= 20: ...] (main.py 163-168). *)
Definition flush_if_full (client : client_t) (user_id : string)
  (st : run_state) : result unit * run_state :=
  if (20 <=? List.length (r_queue st))%nat then
    match Dict.get (r_state st) user_id with
    | None => (Raise KeyError, st)
    | Some chat_state =>
        let '(r, chat_state, fs, tr) :=
          download_messages client (r_queue st) chat_state (r_disk st) in
        let state := Dict.set (r_state st) user_id chat_state in
        match r with
        | Ok _ =>
            let '(w, state, f) := write_state_to_file state user_id in
            match w with
            | Ok _ =>
                (Ok tt, mkRun state [] fs f (r_trace st ++ tr ++ [Save f])%list)
            | _ =>
                (w, mkRun state (r_queue st) fs f (r_trace st ++ tr ++ [Save f])%list)
            end
        | _ => (r, mkRun state (r_queue st) fs (r_file st) (r_trace st ++ tr)%list)
        end
    end
  else (Ok tt, st).

(** One turn of the [async for]. *)
Definition step (client : client_t) (user_id : string) (st : run_state)
  (message : Message) : result unit * run_state :=
  match Dict.get (r_state st) user_id with
  | None => (Raise KeyError, st)
  | Some chat_state =>
      match examine chat_state (r_queue st) message with
      | Ok (chat_state, download_queue, tr) =>
          flush_if_full client user_id
            (mkRun (Dict.set (r_state st) user_id chat_state) download_queue
                   (r_disk st) (r_file st) (r_trace st ++ tr)%list)
      | Raise e => (Raise e, st)
      | Unfinished => (Unfinished, st)
      end
  end.

(** The [async for]: it stops at the first turn that raises. *)
Fixpoint stream (client : client_t) (user_id : string)
  (messages : list Message) (st : run_state) : result unit * run_state :=
  match messages with
  | [] => (Ok tt, st)
  | message :: rest =>
      match step client user_id st message with
      | (Ok _, st) => stream client user_id rest st
      | (r, st) => (r, st)
      end
  end.

(** [if len(download_queue) >= 0: ...] (main.py 170-171): the test
    always holds, so what is left in the queue, were it nothing, goes
    through [download_messages]. *)
Definition drain (client : client_t) (user_id : string) (st : run_state)
  : result unit * run_state :=
  match Dict.get (r_state st) user_id with
  | None => (Raise KeyError, st)
  | Some chat_state =>
      let '(r, chat_state, fs, tr) :=
        download_messages client (r_queue st) chat_state (r_disk st) in
      (r, mkRun (Dict.set (r_state st) user_id chat_state) (r_queue st) fs
                (r_file st) (r_trace st ++ tr)%list)
  end.

(** The [try] block (main.py 125-171). *)
Definition try_block (client : client_t) (user_id : string) (st : run_state)
  : result unit * run_state :=
  match get_entity client user_id with
  | Ok _ =>
      match get_last_id (r_state st) user_id with
      | (Ok last_id, state) =>
          let st := mkRun state (r_queue st) (r_disk st) (r_file st) (r_trace st) in
          match stream client user_id (iter_messages client last_id) st with
          | (Ok _, st) => drain client user_id st
          | (r, st) => (r, st)
          end
      | (Raise e, state) =>
          (Raise e, mkRun state (r_queue st) (r_disk st) (r_file st) (r_trace st))
      | (Unfinished, state) =>
          (Unfinished, mkRun state (r_queue st) (r_disk st) (r_file st) (r_trace st))
      end
  | Raise e => (Raise e, st)
  | Unfinished => (Unfinished, st)
  end.

(** The [finally] clause (main.py 172-173): the ledger is written
    whatever the [try] block came to; an exception raised here replaces
    the one in flight. *)
Definition finally_save (user_id : string) (r : result unit) (st : run_state)
  : result unit * run_state :=
  let '(w, state, f) := write_state_to_file (r_state st) user_id in
  (match w with Ok _ => r | _ => w end,
   mkRun state (r_queue st) (r_disk st) f (r_trace st ++ [Save f])%list).

(** [run(client, user_id)], started on a disk [fs] with [state.json] as
    [f].  The ledger is read before the [try], so a failure to read it
    skips the [finally]. *)
Definition run (client : client_t) (user_id : string) (fs : fs_t)
  (f : state_file) : result unit * run_state :=
  match read_state_from_file f with
  | Ok state =>
      let '(r, st) := try_block client user_id (mkRun state [] fs f []) in
      finally_save user_id r st
  | Raise e => (Raise e, mkRun Dict.empty [] fs f [])
  | Unfinished => (Unfinished, mkRun Dict.empty [] fs f [])
  end.

(** ** The command line: [create_argparser] and [main] (main.py 176-200) *)

Inductive arg_type : Type := TInt | TStr.

(** An optional argument as [add_argument] declares it. *)
Record argument : Type := mkArg {
  short_option : string;
  long_option : string;
  type_ : arg_type;
  required : bool
}.

Definition create_argparser : list argument :=
  [mkArg "-a" "--app-id" TInt true;
   mkArg "-k" "--api-hash" TStr true;
   mkArg "-u" "--user-id" TStr true].

Fixpoint underscored (s : string) : string :=
  match s with
  | EmptyString => EmptyString
  | String c rest =>
      String (if Ascii.eqb c "-" then "_"%char else c) (underscored rest)
  end.

(** The attribute under which argparse stores an optional argument.
    argparse is Python's, not this repository's; its documentation of
    [dest] has it: the first long option string without its leading
    [--], every [-] inside turned into [_]. *)
Definition dest (a : argument) : string :=
  underscored (substring 2 (String.length (long_option a) - 2) (long_option a)).

(** [vars(arg_parser.parse_args())] for a command line that argparse
    accepts: one entry for each declared argument, under its [dest];
    [given a] is the value the command line gave for [a]. *)
Definition vars_parse_args (parser : list argument) (given : argument -> pyval)
  : Dict.t pyval :=
  fold_left (fun d a => Dict.set d (dest a) (given a)) parser Dict.empty.

(** [d[k]]. *)
Definition getitem {V} (d : Dict.t V) (k : string) : result V :=
  match Dict.get d k with
  | Some v => Ok v
  | None => Raise KeyError
  end.

(** [main], on a command line that argparse accepts.  [start app_id
    api_hash user_id] stands for the [with TelegramClient(...)] block,
    which opens the client and runs [run] to its end. *)
Definition main (given : argument -> pyval)
  (start : pyval -> pyval -> pyval -> result unit) : result unit :=
  let arg_parser := create_argparser in
  let arguments := vars_parse_args arg_parser given in
  app_id <- getitem arguments "app-id" ;;
  api_hash <- getitem arguments "api-hash" ;;
  user_id <- getitem arguments "user-id" ;;
  start app_id api_hash user_id.

(** ** Vocabulary of the statements *)

(** The key under which the run stores the record of a message. *)
Definition key_of (m : Message) : string := str (id m).

(** A record that asks for no download: it has no media, or its media
    is marked downloaded. *)
Definition settled (value : state_item) : Prop :=
  has_media value = false \/ downloaded value = Some true.

(** A record whose media is still to be downloaded. *)
Definition pending (value : state_item) : Prop :=
  has_media value = true /\ downloaded value = Some false.

Definition is_call (e : event) : bool :=
  match e with Call _ _ _ => true | _ => false end.
Definition is_mark (e : event) : bool :=
  match e with Mark _ _ => true | _ => false end.

Definition count (kind : event -> bool) (tr : list event) : nat :=
  List.length (filter kind tr).



(** The key the loop of [get_last_id] ends on when no record stops it. *)
Fixpoint last_key_of (items : list (string * state_item)) (last_key : pyval)
  : pyval :=
  match items with
  | [] => last_key
  | (key, _) :: rest => last_key_of rest (PyStr key)
  end.

(** A chat of a run in progress, set against the chat [chat0] the run
    started from and the messages [delivered] by the history iteration:
    the records of the messages looked at so far ([seen]) are there;
    keys were only added, at the end, and only for delivered messages;
    the records under other keys are as they were; and the handles held
    by records are delivered messages. *)
Record tracks (chat0 : chat_state_t) (delivered : list Message)
  (seen : Message -> Prop) (chat : chat_state_t) : Prop := mkTracks {
  t_seen : forall m, seen m -> Dict.mem chat (str (id m)) = true;
  t_keys : exists news,
      Dict.keys chat = (Dict.keys chat0 ++ news)%list /\
      incl news (map (fun m => str (id m)) delivered);
  t_kept : forall key value,
      In (key, value) chat0 ->
      ~ In key (map (fun m => str (id m)) delivered) ->
      In (key, value) chat;
  t_handles : forall key item m,
      Dict.get chat key = Some item -> message item = Some m -> In m delivered
}.

(** A download call that raised. *)
Definition raised (e : event) : Prop :=
  exists m path x, e = Call m path (Raise x).

(** A trace in which no download call raised. *)
Definition clean (tr : list event) : Prop :=
  forall e, In e tr -> ~ raised e.

(** How a run has come to where it is: no call has raised, or it has
    stopped on a batch of which a call raised, that batch's calls being
    the last thing it did. *)
Definition sound (r : result unit) (tr : list event) : Prop :=
  clean tr \/
  (is_ok r = false /\
   exists pre batch, tr = (pre ++ batch)%list /\ clean pre /\
                     Forall (fun e => is_call e = true) batch).

(** The chat of the state of a run tracks the run. *)
Definition on_track (user_id : string) (chat0 : chat_state_t)
  (delivered : list Message) (seen : Message -> Prop) (st : run_state) : Prop :=
  exists chat, Dict.get (r_state st) user_id = Some chat /\
               tracks chat0 delivered seen chat.






(** ** Sample data for the statements that are checked by running the
    model *)

Definition noon : datetime := mkDate 2024 3 9 12 0.

(** A photo (telegram photos carry no file name), a plain text message
    and a named document. *)
Definition photo (n : Z) : Message :=
  mkMessage n true (Some (mkFile None (Some ".jpg") "image/jpeg")) noon.
Definition text (n : Z) : Message := mkMessage n false None noon.
Definition document (n : Z) (file_name ext mime : string) : Message :=
  mkMessage n true (Some (mkFile (Some file_name) (Some ext) mime)) noon.

(** A download that writes the file it is asked for, over whatever is
    there, and reports it. *)
Definition download_ok (fs : fs_t) (m : Message) (path : string)
  : result (option string) * fs_t :=
  (Ok (Some path), if is_file fs path then fs else path :: fs).

(** A download that gives up and reports nothing. *)
Definition download_none (fs : fs_t) (m : Message) (path : string)
  : result (option string) * fs_t :=
  (Ok None, fs).

(** A download that works for the message of the given id and reports
    nothing for the others. *)
Definition download_only (n : Z) (fs : fs_t) (m : Message) (path : string)
  : result (option string) * fs_t :=
  if (id m =? n)%Z then download_ok fs m path else download_none fs m path.

(** A download that raises for the message of the given id and works
    for the others. *)
Definition download_raising_at (n : Z) (fs : fs_t) (m : Message) (path : string)
  : result (option string) * fs_t :=
  if (id m =? n)%Z then (Raise ClientError, fs) else download_ok fs m path.

(** The photos numbered 1 to [n]. *)
Definition photos (n : nat) : list Message :=
  map (fun k => photo (Z.of_nat k)) (seq 1 n).

(** A client for a chat with the given messages, whose downloads come
    to their end in the order of the tasks. *)
Definition chat_with (messages : list Message)
  (download : fs_t -> Message -> string -> result (option string) * fs_t)
  : client_t :=
  mkClient (fun _ => Ok tt) messages download
           (fun _ tasks => seq 0 (List.length tasks)) (fun fs _ _ => fs).

(** The same chat when the downloads of a batch come to their end in
    the given order, and a download cut short has left its file. *)
Definition chat_finishing (messages : list Message)
  (download : fs_t -> Message -> string -> result (option string) * fs_t)
  (order : list nat) : client_t :=
  mkClient (fun _ => Ok tt) messages download
           (fun _ _ => order) (fun fs _ path => path :: fs).

(** Two documents sent under the same file name. *)
Definition report_a : Message := document 1 "report.pdf" ".pdf" "application/pdf".
Definition report_b : Message := document 2 "report.pdf" ".pdf" "application/pdf".

(** A chat in memory with two records in the queue. *)
Definition sample_chat : chat_state_t :=
  [("1", mkItem true (Some false) (Some (photo 1)));
   ("2", mkItem true (Some false) (Some (photo 2)));
   ("3", mkItem false None None)].

(** A ledger that marks the first of three photos downloaded and the
    other two not. *)
Definition resume_ledger : ledger :=
  [("bob", [("1", mkJ true (Some true));
            ("2", mkJ true (Some false));
            ("3", mkJ true (Some false))])].

(** A state in memory: a chat with a record waiting in the queue, next
    to another chat. *)
Definition sample_state : state_t :=
  [("alice", [("4", mkItem true (Some false) None)]);
   ("bob", [("1", mkItem false None None);
            ("2", mkItem true (Some true) None);
            ("3", mkItem true (Some false) (Some (photo 3)))])].

(** ** More vocabulary: the names a message can be given *)

(** The names [get_file_path] tries for a message, in the order it tries
    them: number 0 is the plain name, number [n] the name with [" - n"]
    before the extension. *)
Definition candidate (media_type file_name ext : string) (n : nat) : string :=
  match n with
  | O => Path media_type (file_name ++ ext)
  | S _ => numbered media_type file_name n ext
  end.

(** Messages resolved one after the other, the file of each being
    written at the path resolved for it before the next is resolved (a
    message that gets no path writes nothing). *)
Fixpoint arrivals (fs : fs_t) (messages : list Message) : list (result string) :=
  match messages with
  | [] => []
  | m :: rest =>
      match get_file_path fs m with
      | Ok path => Ok path :: arrivals (path :: fs) rest
      | r => r :: arrivals fs rest
      end
  end.

(** The exception [get_file_path] raises for a message, when it raises
    one: [message.file] is [None] ([AttributeError]), or the file has a
    name and no extension ([TypeError]). *)
Definition path_error (m : Message) : option exn :=
  match file m with
  | None => Some AttributeError
  | Some f =>
      match name f, ext f with
      | Some _, None => Some TypeError
      | _, _ => None
      end
  end.

(** A printable ASCII character other than the path separator. *)
Definition plain_char (c : ascii) : bool :=
  (32 <=? nat_of_ascii c)%nat && (nat_of_ascii c <? 127)%nat
  && negb (Ascii.eqb c "/").

Fixpoint plain_text (s : string) : bool :=
  match s with
  | EmptyString => true
  | String c s => plain_char c && plain_text s
  end.

(** A date as a Python [datetime] holds it, with a year of four
    digits. *)
Definition plain_date (d : datetime) : Prop :=
  String.length (str_nat (year d)) = 4 /\
  1 <= month d <= 12 /\ 1 <= day d <= 31 /\
  hour d <= 23 /\ minute d <= 59.

(** A message whose file name the model reads as the program does: the
    name and the extension are plain text (Python's [len] and slices
    count characters, the model bytes, and [pathlib] takes a separator
    as the start of a new part), the last part handed to [pathlib] is
    neither empty nor ["."] (it would be left out of the path), and the
    date is a plain one. *)
Definition plain_names (m : Message) : Prop :=
  exists f, file m = Some f /\
    (forall file_name, name f = Some file_name -> plain_text file_name = true) /\
    plain_text (format_ (ext f)) = true /\
    (forall base, base_name m f = Ok base ->
       base ++ format_ (ext f) <> "" /\ base ++ format_ (ext f) <> ".") /\
    plain_date (date m).

(** Messages that agree on folder, base name and extension. *)
Definition same_name (media_type file_name e : string) (m : Message) : Prop :=
  exists f, file m = Some f /\
            media_type_of (mime_type f) = media_type /\
            base_name m f = Ok file_name /\ format_ (ext f) = e.

(** The characters of a string: is one of them a blank? *)
Fixpoint has_blank (s : string) : bool :=
  match s with
  | EmptyString => false
  | String c s => Ascii.eqb c " " || has_blank s
  end.

(** ** More vocabulary: a batch and a run set against where they
    started *)

(** A record after a batch set against the record before it: nothing
    but [downloaded] can have changed, and that only to true. *)
Definition marked_or_same (v v' : state_item) : Prop :=
  has_media v' = has_media v /\ message v' = message v /\
  (downloaded v' = downloaded v \/ downloaded v' = Some true).

(** A chat after a batch set against the chat before it: the same keys
    in the same order, each record marked or the same. *)
Definition batch_step (chat chat' : chat_state_t) : Prop :=
  Dict.keys chat' = Dict.keys chat /\
  forall key,
    match Dict.get chat key with
    | Some v => exists v', Dict.get chat' key = Some v' /\ marked_or_same v v'
    | None => Dict.get chat' key = None
    end.

(** The chat of [user_id] in a state; a chat the state does not have
    reads as an empty one. *)
Definition chat_of (state : state_t) (user_id : string) : chat_state_t :=
  match Dict.get state user_id with
  | Some chat => chat
  | None => Dict.empty
  end.

(** A chat later in a run set against the chat earlier in it: keys were
    only added, at the end; a record that was there is still there with
    the same [has_media], and its [downloaded] is what it was or true. *)
Definition evolves (chat chat' : chat_state_t) : Prop :=
  (exists added, Dict.keys chat' = (Dict.keys chat ++ added)%list) /\
  forall key v, Dict.get chat key = Some v ->
    exists v', Dict.get chat' key = Some v' /\
               has_media v' = has_media v /\
               (downloaded v' = downloaded v \/ downloaded v' = Some true).

(** The state of a run set against the state [state0] it read: nothing
    but the chat of [user_id] has been assigned, and that chat has the
    property [P]. *)
Definition anchored (P : chat_state_t -> Prop)
  (user_id : string) (state0 : state_t) (st : run_state) : Prop :=
  exists chat, r_state st = Dict.set state0 user_id chat /\ P chat.



(** The handles a chat holds are those of messages of the history,
    each stored under the id of its message. *)
Definition handles (client : client_t) (chat : chat_state_t) : Prop :=
  forall key item m,
    Dict.get chat key = Some item -> message item = Some m ->
    key_of m = key /\ In m (history client).

(** The chat has no record under the key, or one that is not settled. *)
Definition unsettled_in (chat0 : chat_state_t) (key : string) : Prop :=
  forall v0, Dict.get chat0 key = Some v0 -> ~ settled v0.

(** The downloads issued so far were for messages of the history whose
    records in [chat0] were not settled. *)
Definition calls_due (client : client_t) (chat0 : chat_state_t)
  (tr : list event) : Prop :=
  forall m path outcome, In (Call m path outcome) tr ->
    In m (history client) /\ unsettled_in chat0 (key_of m).

(** The state of a run that has queued and downloaded nothing but what
    was due, set against the chat [chat0] the run started from. *)
Definition careful (client : client_t) (user_id : string)
  (chat0 : chat_state_t) (st : run_state) : Prop :=
  calls_due client chat0 (r_trace st) /\
  exists chat,
    Dict.get (r_state st) user_id = Some chat /\
    evolves chat0 chat /\ handles client chat /\
    forall key, In key (r_queue st) -> unsettled_in chat0 key.

(** A chat the resume cursor and the loop of a run can read: every key
    is a numeral, and every record with media says whether it was
    downloaded. *)
Definition well_formed (chat : chat_state_t) : Prop :=
  forall key v, In (key, v) chat ->
    is_ok (int (PyStr key)) = true /\
    (has_media v = true -> downloaded v <> None).


(** Every queued key has a record that holds a message. *)
Definition queued_handles (chat : chat_state_t) (download_queue : list string)
  : Prop :=
  forall key, In key download_queue ->
    exists item m, Dict.get chat key = Some item /\ message item = Some m.

(** The state of a run between two messages, set against the ledger
    [l0] it read: nothing but the chat of the user has been assigned,
    that chat is well formed, its handles are in place, and every
    queued key has one. *)
Definition ready (client : client_t) (user_id : string) (l0 : ledger)
  (st : run_state) : Prop :=
  exists chat,
    r_state st = Dict.set (json_load l0) user_id chat /\
    well_formed chat /\ handles client chat /\
    queued_handles chat (r_queue st).



(** The messages the download calls of a trace were issued for, in
    order. *)
Definition called (tr : list event) : list Message :=
  flat_map (fun e => match e with Call m _ _ => [m] | _ => [] end) tr.

(** The state of a run between two messages, set against the keys
    [seen] of the messages looked at so far: what was downloaded and
    what waits in the queue are different messages, all of them seen,
    and the handles of the chat are in place. *)
Definition once (client : client_t) (user_id : string) (seen : list string)
  (st : run_state) : Prop :=
  NoDup (map key_of (called (r_trace st)) ++ r_queue st)%list /\
  incl (map key_of (called (r_trace st)) ++ r_queue st)%list seen /\
  exists chat, Dict.get (r_state st) user_id = Some chat /\
               handles client chat.

(** A string with a dash in it. *)
Fixpoint has_dash (s : string) : bool :=
  match s with
  | EmptyString => false
  | String c rest => Ascii.eqb c "-" || has_dash rest
  end.

(** * Properties *)

(** ** Dictionaries *)

Module DictFacts.
Section WithValues.
Context {V : Type}.
Implicit Types (d : Dict.t V) (k : string) (v : V).

Lemma get_set_same d k v : Dict.get (Dict.set d k v) k = Some v.
Proof.
  induction d as [|[k' v'] d IH]; simpl.
  - now rewrite String.eqb_refl.
  - destruct (String.eqb k' k) eqn:E; simpl.
    + now rewrite String.eqb_refl.
    + now rewrite E.
Qed.

Lemma get_set_other d k k' v :
  k <> k' -> Dict.get (Dict.set d k v) k' = Dict.get d k'.
Proof.
  intros Hne. induction d as [|[k0 v0] d IH]; simpl.
  - destruct (String.eqb_spec k k'); [contradiction | reflexivity].
  - destruct (String.eqb_spec k0 k) as [->|Hk]; simpl.
    + destruct (String.eqb_spec k k'); [contradiction | reflexivity].
    + destruct (String.eqb_spec k0 k'); [reflexivity | exact IH].
Qed.

Lemma get_In d k v : Dict.get d k = Some v -> In (k, v) d.
Proof.
  induction d as [|[k' v'] d IH]; simpl; [discriminate|].
  destruct (String.eqb_spec k' k) as [->|Hk].
  - intros [= ->]. now left.
  - intros H. right. now apply IH.
Qed.

Lemma get_None_keys d k : Dict.get d k = None <-> ~ In k (Dict.keys d).
Proof.
  induction d as [|[k' v'] d IH]; simpl.
  - tauto.
  - destruct (String.eqb_spec k' k) as [->|Hk].
    + split; [discriminate | intros H; exfalso; apply H; now left].
    + rewrite IH. split; [intros H [E|E]; auto | intros H E; apply H; now right].
Qed.

Lemma mem_true d k : Dict.mem d k = true <-> In k (Dict.keys d).
Proof.
  unfold Dict.mem. destruct (Dict.get d k) eqn:E.
  - split; [intros _|reflexivity].
    apply get_In in E. change k with (fst (k, v)). now apply in_map.
  - split; [discriminate|]. intros H. now apply get_None_keys in E.
Qed.

(** Writing under a key that is there keeps every key in its place;
    a new key goes last. *)
Lemma keys_set d k v :
  Dict.keys (Dict.set d k v) =
  if Dict.mem d k then Dict.keys d else (Dict.keys d ++ [k])%list.
Proof.
  unfold Dict.mem. induction d as [|[k' v'] d IH]; simpl; [reflexivity|].
  destruct (String.eqb_spec k' k) as [->|Hk]; simpl; [reflexivity|].
  rewrite IH. now destruct (Dict.get d k).
Qed.

Lemma set_absent d k v :
  Dict.get d k = None -> Dict.set d k v = (d ++ [(k, v)])%list.
Proof.
  induction d as [|[k' v'] d IH]; simpl; [reflexivity|].
  destruct (String.eqb k' k); [discriminate|].
  intros H. now rewrite IH.
Qed.

Lemma set_same d k v : Dict.get d k = Some v -> Dict.set d k v = d.
Proof.
  induction d as [|[k' v'] d IH]; simpl; [discriminate|].
  destruct (String.eqb_spec k' k) as [->|Hk].
  - now intros [= ->].
  - intros H. now rewrite IH.
Qed.

Lemma set_set d k v w : Dict.set (Dict.set d k v) k w = Dict.set d k w.
Proof.
  induction d as [|[k' v'] d IH]; simpl.
  - now rewrite String.eqb_refl.
  - destruct (String.eqb k' k) eqn:E; simpl.
    + now rewrite String.eqb_refl.
    + now rewrite E, IH.
Qed.

Lemma mem_set d k v k' :
  Dict.mem (Dict.set d k v) k' = (Dict.mem d k' || String.eqb k k')%bool.
Proof.
  unfold Dict.mem. destruct (String.eqb_spec k k') as [<-|Hne].
  - rewrite get_set_same. now rewrite orb_true_r.
  - rewrite get_set_other by assumption. now rewrite orb_false_r.
Qed.

(** Writing under a key leaves the entries of the other keys in the
    dictionary. *)
Lemma In_set_other d k v k' v' :
  k' <> k -> In (k', v') d -> In (k', v') (Dict.set d k v).
Proof.
  intros Hne. induction d as [|[k0 v0] d IH]; simpl; [tauto|].
  destruct (String.eqb_spec k0 k) as [->|Hk].
  - intros [[= -> ->]|H]; [contradiction | now right].
  - intros [H|H]; [now left | right; auto].
Qed.
End WithValues.

Lemma get_map_values {A B} (f : A -> B) (d : Dict.t A) k :
  Dict.get (Dict.map_values f d) k = option_map f (Dict.get d k).
Proof.
  induction d as [|[k' v'] d IH]; simpl; [reflexivity|].
  now destruct (String.eqb k' k).
Qed.

Lemma keys_map_values {A B} (f : A -> B) (d : Dict.t A) :
  Dict.keys (Dict.map_values f d) = Dict.keys d.
Proof.
  unfold Dict.keys, Dict.map_values. rewrite map_map. reflexivity.
Qed.

Lemma map_values_id {A} (f : A -> A) (d : Dict.t A) :
  (forall k v, In (k, v) d -> f v = v) -> Dict.map_values f d = d.
Proof.
  induction d as [|[k v] d IH]; simpl; intros H; [reflexivity|].
  rewrite (H k v) by now left.
  f_equal. apply IH. intros k' v' Hin. apply (H k' v'). now right.
Qed.

Lemma mem_map_values {A B} (f : A -> B) (d : Dict.t A) k :
  Dict.mem (Dict.map_values f d) k = Dict.mem d k.
Proof.
  unfold Dict.mem. rewrite get_map_values. now destruct (Dict.get d k).
Qed.

End DictFacts.

(** ** Numerals *)

Lemma int_str (n : Z) : int (PyStr (str n)) = Ok n.
Proof.
  unfold int, str. rewrite NilZero.isi.
  - now rewrite DecimalZ.of_to.
  - destruct n; simpl; try discriminate.
    intros [= H]. now apply (DecimalPos.Unsigned.to_uint_nonnil p).
  - destruct n; simpl; try discriminate.
    intros [= H]. now apply (DecimalPos.Unsigned.to_uint_nonnil p).
Qed.

Lemma str_inj (a b : Z) : str a = str b -> a = b.
Proof.
  intros H. pose proof (int_str a) as Ha. rewrite H, int_str in Ha.
  now injection Ha.
Qed.

(** ** The progress ledger *)

Lemma dump_item_load v j : dump_item v = Some j -> of_jrecord j = v.
Proof.
  unfold dump_item. destruct v as [h d [m|]]; simpl; [discriminate|].
  now intros [= <-].
Qed.

Lemma dump_dict_load {A B} (f : A -> option B) (g : B -> A) :
  (forall a b, f a = Some b -> g b = a) ->
  forall d l, dump_dict f d = Some l -> Dict.map_values g l = d.
Proof.
  intros Hfg. induction d as [|[k v] d IH]; simpl; intros l.
  - now intros [= <-].
  - destruct (f v) eqn:Ev; [|discriminate].
    destruct (dump_dict f d) eqn:Ed; [|discriminate].
    intros [= <-]. simpl. now rewrite (Hfg _ _ Ev), (IH _ eq_refl).
Qed.

(** A ledger that was dumped reads back as the state it was dumped from. *)
Lemma json_dump_load state l : json_dump state = Some l -> json_load l = state.
Proof.
  apply dump_dict_load. apply dump_dict_load. exact dump_item_load.
Qed.

Lemma dump_dict_total {A B} (f : A -> option B) (g : B -> A) :
  (forall b, f (g b) = Some b) ->
  forall l, dump_dict f (Dict.map_values g l) = Some l.
Proof.
  intros Hfg. induction l as [|[k v] l IH]; simpl; [reflexivity|].
  fold (Dict.map_values g l). now rewrite Hfg, IH.
Qed.

(** A ledger that was loaded dumps as the file it was loaded from. *)
Lemma json_load_dump l : json_dump (json_load l) = Some l.
Proof.
  apply dump_dict_total. apply dump_dict_total. now intros [h d].
Qed.

Lemma strip_and_dump_spec state user_id user_state w state' f :
  strip_and_dump state user_id user_state = (w, state', f) ->
  state' = Dict.set state user_id (Dict.map_values del_message user_state) /\
  ((w = Ok tt /\ exists l, f = Json l /\ json_load l = state') \/
   (w = Raise TypeError /\ f = Garbled)).
Proof.
  unfold strip_and_dump.
  destruct (json_dump _) as [l|] eqn:E; intros [= <- <- <-]; split; auto.
  left. split; [reflexivity|]. exists l. split; [reflexivity|].
  now apply json_dump_load.
Qed.

(** C10.  [write_state_to_file] works on the dictionary it is given: the
    state it leaves has the chat [user_id] (added last when it was not
    there), every record of that chat has lost its ["message"] key and
    kept the rest, and every other chat is as it was, handles included.
    When the save succeeds the file holds a ledger that reads back as
    the state left in memory, so neither holds a handle; the only
    failure is the dump refusing a handle left in another chat, and it
    leaves a file that is not JSON. *)
Theorem write_state_to_file_in_place :
  forall state user_id w state' f,
    write_state_to_file state user_id = (w, state', f) ->
    Dict.keys state' =
      (if Dict.mem state user_id then Dict.keys state
       else (Dict.keys state ++ [user_id])%list) /\
    Dict.get state' user_id =
      Some (Dict.map_values del_message
              (match Dict.get state user_id with
               | Some user_state => user_state
               | None => Dict.empty
               end)) /\
    (forall user_state key value,
        Dict.get state' user_id = Some user_state ->
        In (key, value) user_state -> message value = None) /\
    (forall other, other <> user_id ->
        Dict.get state' other = Dict.get state other) /\
    (w = Ok tt -> exists l, f = Json l /\ json_load l = state') /\
    (w = Ok tt \/ (w = Raise TypeError /\ f = Garbled)).
Proof.
  intros state user_id w state' f H.
  unfold write_state_to_file in H.
  assert (Hstrip : forall c, ~ (exists k v, In (k, v) (Dict.map_values del_message c)
                                 /\ message v <> None)).
  { intros c (k & v & Hin & Hm). apply Hm.
    unfold Dict.map_values in Hin. apply in_map_iff in Hin.
    destruct Hin as ([k0 v0] & [= <- <-] & _). reflexivity. }
  unfold Dict.mem.
  destruct (Dict.get state user_id) as [user_state|] eqn:Eg;
    apply strip_and_dump_spec in H; destruct H as [-> Hw].
  - repeat split.
    + rewrite DictFacts.keys_set. unfold Dict.mem. now rewrite Eg.
    + apply DictFacts.get_set_same.
    + intros c k v Hc Hin. rewrite DictFacts.get_set_same in Hc.
      injection Hc as <-.
      destruct (message v) eqn:Em; [|reflexivity].
      exfalso. apply (Hstrip user_state). exists k, v. split; [assumption|congruence].
    + intros other Hne. apply DictFacts.get_set_other. congruence.
    + intros ->. destruct Hw as [[_ Hl]|[Hw _]]; [assumption|discriminate].
    + destruct Hw as [[-> _]|[-> ->]]; auto.
  - repeat split.
    + rewrite DictFacts.set_set, DictFacts.keys_set.
      unfold Dict.mem. now rewrite Eg.
    + apply DictFacts.get_set_same.
    + intros c k v Hc Hin. rewrite DictFacts.get_set_same in Hc.
      injection Hc as <-. destruct Hin.
    + intros other Hne.
      rewrite !DictFacts.get_set_other by congruence. reflexivity.
    + intros ->. destruct Hw as [[_ Hl]|[Hw _]]; [assumption|discriminate].
    + destruct Hw as [[-> _]|[-> ->]]; auto.
Qed.

Lemma write_state_to_file_in_place_witness :
  let saved := write_state_to_file sample_state "bob" in
  write_state_to_file sample_state "bob" = saved /\
  Dict.get (snd (fst saved)) "bob" =
    Some [("1", mkItem false None None);
          ("2", mkItem true (Some true) None);
          ("3", mkItem true (Some false) None)] /\
  snd saved = Json [("alice", [("4", mkJ true (Some false))]);
                    ("bob", [("1", mkJ false None);
                             ("2", mkJ true (Some true));
                             ("3", mkJ true (Some false))])].
Proof.
  split; [reflexivity|].
  destruct (write_state_to_file_in_place sample_state "bob" _ _ _ eq_refl)
    as (_ & Hget & _).
  split; [exact Hget | reflexivity].
Defined.

(** C9.  Without a snapshot file the ledger read is empty.  A file that
    is not JSON makes the read raise, and the run with it: nothing is
    written (the trace is empty), and the file and the disk are as they
    were. *)
Theorem corrupt_ledger_aborts_before_any_write :
  read_state_from_file NoFile = Ok Dict.empty /\
  read_state_from_file Garbled = Raise JSONDecodeError /\
  forall client user_id fs,
    let '(r, st) := run client user_id fs Garbled in
    r = Raise JSONDecodeError /\
    r_file st = Garbled /\ r_trace st = [] /\ r_disk st = fs.
Proof.
  repeat split.
Qed.

(** ** The resume cursor *)

Lemma not_downloaded_settled value : settled value -> not_downloaded value = Ok false.
Proof.
  unfold not_downloaded. intros [H|H]; rewrite H; [reflexivity|].
  now destruct (has_media value).
Qed.

Lemma not_downloaded_pending value : pending value -> not_downloaded value = Ok true.
Proof.
  unfold not_downloaded. now intros [-> ->].
Qed.

(** The scan passes over settled records and stops at a pending one. *)
Lemma scan_items_stops before key value after last_key :
  Forall (fun kv => settled (snd kv)) before ->
  pending value ->
  scan_items (before ++ (key, value) :: after) last_key = int (PyStr key).
Proof.
  intros Hb Hp. revert last_key.
  induction Hb as [|[k v] before Hs _ IH]; intros last_key; simpl.
  - now rewrite (not_downloaded_pending _ Hp).
  - simpl in Hs. now rewrite (not_downloaded_settled _ Hs), IH.
Qed.

(** With nothing pending the scan ends on the last key. *)
Lemma scan_items_last items key value last_key :
  Forall (fun kv => settled (snd kv)) (items ++ [(key, value)]) ->
  scan_items (items ++ [(key, value)]) last_key = int (PyStr key).
Proof.
  revert last_key. induction items as [|[k v] items IH]; intros last_key H; simpl.
  - inversion H as [|? ? Hs _]; subst. simpl in Hs.
    now rewrite (not_downloaded_settled _ Hs).
  - inversion H as [|? ? Hs Hr]; subst. simpl in Hs.
    rewrite (not_downloaded_settled _ Hs). now apply IH.
Qed.

(** C8.  For a chat the ledger does not know, [get_last_id] returns 0
    and leaves the chat registered with an empty record map.  For a chat
    it knows, it returns the number read from the key of the first
    pending record (media, not downloaded), the records before it being
    settled; with no pending record, the number read from the last key;
    and 0 when the chat has no record.  The number read from a key the
    program wrote is the message id. *)
Theorem get_last_id_resume_point :
  forall state user_id,
    (Dict.get state user_id = None ->
       get_last_id state user_id = (Ok 0%Z, Dict.set state user_id Dict.empty) /\
       Dict.get (Dict.set state user_id Dict.empty) user_id = Some Dict.empty) /\
    (forall before key value after,
       Dict.get state user_id = Some (before ++ (key, value) :: after)%list ->
       Forall (fun kv => settled (snd kv)) before ->
       has_media value = true -> downloaded value = Some false ->
       get_last_id state user_id = (int (PyStr key), state)) /\
    (forall items key value,
       Dict.get state user_id = Some (items ++ [(key, value)])%list ->
       Forall (fun kv => settled (snd kv)) (items ++ [(key, value)])%list ->
       get_last_id state user_id = (int (PyStr key), state)) /\
    (Dict.get state user_id = Some Dict.empty ->
       get_last_id state user_id = (Ok 0%Z, state)) /\
    (forall n, int (PyStr (str n)) = Ok n).
Proof.
  intros state user_id. unfold get_last_id. repeat split.
  - now rewrite H.
  - apply DictFacts.get_set_same.
  - intros before key value after -> Hb Hm Hd.
    rewrite scan_items_stops; [reflexivity|assumption|now split].
  - intros items key value -> Hs. now rewrite scan_items_last.
  - now intros ->.
  - apply int_str.
Qed.

Lemma get_last_id_resume_point_witness :
  get_last_id sample_state "bob" = (Ok 3%Z, sample_state).
Proof.
  destruct (get_last_id_resume_point sample_state "bob") as (_ & Hfirst & _).
  apply (Hfirst [("1", mkItem false None None); ("2", mkItem true (Some true) None)]
           "3" (mkItem true (Some false) (Some (photo 3))) []).
  - reflexivity.
  - apply Forall_cons; [left; reflexivity|].
    apply Forall_cons; [right; reflexivity|]. apply Forall_nil.
  - reflexivity.
  - reflexivity.
Defined.

(** ** The path resolver *)

Lemma length_append (s t : string) :
  String.length (s ++ t) = String.length s + String.length t.
Proof. induction s; simpl; congruence. Qed.

Lemma append_inj_l (a x y : string) : a ++ x = a ++ y -> x = y.
Proof. induction a; simpl; [easy|]. intros [= H]. auto. Qed.

Lemma append_inj_r (e x y : string) : x ++ e = y ++ e -> x = y.
Proof.
  revert y. induction x as [|c x IH]; intros [|c' y]; simpl; intros H.
  - reflexivity.
  - apply (f_equal String.length) in H. simpl in H.
    rewrite length_append in H. lia.
  - apply (f_equal String.length) in H. simpl in H.
    rewrite length_append in H. lia.
  - injection H as -> H. f_equal. now apply IH.
Qed.

Lemma str_nat_inj (a b : nat) : str_nat a = str_nat b -> a = b.
Proof.
  unfold str_nat. intros H.
  assert (Hn : forall n, Nat.to_uint n <> Decimal.Nil).
  { intros n. rewrite <- (DecimalNat.Unsigned.of_to n) at 1.
    rewrite DecimalNat.Unsigned.to_of. apply DecimalFacts.unorm_nonnil. }
  apply DecimalNat.Unsigned.to_uint_inj.
  pose proof (NilZero.usu _ (Hn a)) as Ha.
  rewrite H, (NilZero.usu _ (Hn b)) in Ha. now injection Ha.
Qed.

Lemma numbered_inj media_type file_name ext (a b : nat) :
  numbered media_type file_name a ext = numbered media_type file_name b ext ->
  a = b.
Proof.
  unfold numbered, Path. intros H.
  do 5 apply append_inj_l in H. apply append_inj_r in H.
  now apply str_nat_inj.
Qed.

Lemma is_file_In fs path : is_file fs path = true <-> In path fs.
Proof.
  unfold is_file. rewrite existsb_exists. split.
  - intros (x & Hin & Heq). apply String.eqb_eq in Heq. now subst.
  - intros H. exists path. split; [assumption|apply String.eqb_refl].
Qed.

Section Enumerate.
Variables (fs : fs_t) (media_type file_name ext : string).

Let candidate (number : nat) : string :=
  numbered media_type file_name number ext.

(** The loop returns the first numbered name, counting up from
    [number + 1], that is not on disk. *)
Lemma enumerate_names_Ok fuel number path :
  enumerate_names fuel fs media_type file_name ext number = Ok path ->
  exists k, number < k /\ path = candidate k /\ is_file fs path = false /\
            forall j, number < j < k -> is_file fs (candidate j) = true.
Proof.
  revert number. induction fuel as [|fuel IH]; intros number; simpl; [discriminate|].
  fold (candidate (number + 1)).
  destruct (is_file fs (candidate (number + 1))) eqn:E.
  - intros H. apply IH in H. destruct H as (k & Hk & -> & Hfree & Hbusy).
    exists k. repeat split; [lia|assumption|].
    intros j Hj. destruct (Nat.eq_dec j (number + 1)) as [->|Hne]; [assumption|].
    apply Hbusy. lia.
  - intros [= <-]. exists (number + 1). repeat split; [lia|assumption|].
    intros j Hj. lia.
Qed.

Lemma enumerate_names_no_raise fuel number e :
  enumerate_names fuel fs media_type file_name ext number <> Raise e.
Proof.
  revert number. induction fuel as [|fuel IH]; intros number; simpl; [discriminate|].
  destruct (is_file fs _); [apply IH | discriminate].
Qed.

(** A loop that ran out of turns found every name it tried on disk. *)
Lemma enumerate_names_Unfinished fuel number :
  enumerate_names fuel fs media_type file_name ext number = Unfinished ->
  forall j, In j (seq (number + 1) fuel) -> In (candidate j) fs.
Proof.
  revert number. induction fuel as [|fuel IH]; intros number; simpl; [tauto|].
  fold (candidate (number + 1)).
  destruct (is_file fs (candidate (number + 1))) eqn:E; [|discriminate].
  intros H j [<-|Hj].
  - now apply is_file_In.
  - apply (IH _ H). now replace (number + 1 + 1) with (S (number + 1)) by lia.
Qed.

(** The names are pairwise distinct and the disk holds finitely many
    files, so one turn more than there are files is enough. *)
Lemma enumerate_names_finishes number :
  enumerate_names (S (List.length fs)) fs media_type file_name ext number
    <> Unfinished.
Proof.
  intros H.
  pose proof (enumerate_names_Unfinished _ _ H) as Hall.
  assert (Hnodup : NoDup (map candidate (seq (number + 1) (S (List.length fs))))).
  { apply Injective_map_NoDup; [|apply seq_NoDup].
    intros a b. apply numbered_inj. }
  assert (Hincl : incl (map candidate (seq (number + 1) (S (List.length fs)))) fs).
  { intros p Hp. apply in_map_iff in Hp. destruct Hp as (j & <- & Hj). auto. }
  pose proof (NoDup_incl_length Hnodup Hincl) as Hlen.
  rewrite length_map, length_seq in Hlen. lia.
Qed.
End Enumerate.

(** The resolver always comes to an end. *)
Lemma base_name_cases message f :
  (exists file_name, base_name message f = Ok file_name) \/
  (base_name message f = Raise TypeError /\ name f <> None /\ ext f = None).
Proof.
  unfold base_name. destruct (name f) as [file_name|]; [|eauto].
  destruct (ext f) as [e|]; [eauto|]. right. repeat split. discriminate.
Qed.

Lemma get_file_path_finishes fs message : get_file_path fs message <> Unfinished.
Proof.
  unfold get_file_path. destruct (file message) as [f|]; [|discriminate].
  destruct (base_name_cases message f) as [(file_name & ->)|(-> & _)];
    [|discriminate].
  cbn [bind]. destruct (is_file fs _); [apply enumerate_names_finishes | discriminate].
Qed.

(** The path it returns is free at that moment. *)
Lemma get_file_path_fresh fs message path :
  get_file_path fs message = Ok path -> is_file fs path = false.
Proof.
  unfold get_file_path. destruct (file message) as [f|]; [|discriminate].
  destruct (base_name_cases message f) as [(file_name & ->)|(-> & _)];
    [|discriminate].
  cbn [bind]. destruct (is_file fs _) eqn:E.
  - intros H. apply enumerate_names_Ok in H. now destruct H as (k & _ & _ & H & _).
  - now intros [= <-].
Qed.

(** It raises only for a message without file, and for a named file
    without extension. *)
Lemma get_file_path_Raise fs message e :
  get_file_path fs message = Raise e ->
  (file message = None /\ e = AttributeError) \/
  (exists f, file message = Some f /\ name f <> None /\ ext f = None /\
             e = TypeError).
Proof.
  unfold get_file_path. destruct (file message) as [f|].
  - destruct (base_name_cases message f) as [(file_name & ->)|(-> & Hn & He)].
    + cbn [bind]. destruct (is_file fs _); [|discriminate].
      intros H. now apply enumerate_names_no_raise in H.
    + cbn [bind]. intros [= <-]. right. exists f. auto.
  - intros [= <-]. now left.
Qed.

(** The plain name when it is free; otherwise the name with the least
    number, from 1 up, that is free. *)
Lemma get_file_path_first_free fs message f file_name :
  file message = Some f ->
  base_name message f = Ok file_name ->
  let media_type := media_type_of (mime_type f) in
  let e := format_ (ext f) in
  (is_file fs (Path media_type (file_name ++ e)) = false ->
   get_file_path fs message = Ok (Path media_type (file_name ++ e))) /\
  (is_file fs (Path media_type (file_name ++ e)) = true ->
   exists k, 1 <= k /\
     get_file_path fs message = Ok (numbered media_type file_name k e) /\
     is_file fs (numbered media_type file_name k e) = false /\
     forall j, 1 <= j < k ->
       is_file fs (numbered media_type file_name j e) = true).
Proof.
  intros Hf Hb media_type e0. unfold get_file_path. rewrite Hf, Hb. cbn [bind].
  fold media_type e0. split; intros ->; [reflexivity|].
  destruct (enumerate_names _ fs media_type file_name e0 0) as [p|e|] eqn:E.
  - apply enumerate_names_Ok in E. destruct E as (k & Hk & -> & Hfree & Hbusy).
    exists k. repeat split; [lia|assumption|]. intros j Hj. apply Hbusy. lia.
  - now apply enumerate_names_no_raise in E.
  - now apply enumerate_names_finishes in E.
Qed.

(** The base name is the file name without the declared extension when
    the file name ends with it and the extension is not empty. *)
Lemma base_name_strips_suffix message base e mime :
  e <> "" ->
  base_name message (mkFile (Some (base ++ e)) (Some e) mime) = Ok base.
Proof.
  intros He. unfold base_name, drop_last. simpl. f_equal.
  destruct (String.length e) eqn:El.
  - destruct e; [contradiction|discriminate].
  - rewrite <- El, length_append, Nat.add_sub. clear.
    induction base as [|c base IH]; simpl.
    + now destruct e.
    + now rewrite IH.
Qed.

Lemma base_name_without_name message e mime :
  base_name message (mkFile None e mime) =
  Ok (str (id message) ++ " - " ++ strftime (date message)).
Proof. reflexivity. Qed.

(** A later arrival under a name whose plain form and first [k]
    numbered forms are taken gets number [k + 1]. *)
Lemma get_file_path_next_number fs message f file_name k :
  file message = Some f ->
  base_name message f = Ok file_name ->
  let media_type := media_type_of (mime_type f) in
  let e := format_ (ext f) in
  In (Path media_type (file_name ++ e)) fs ->
  (forall j, 1 <= j <= k -> In (numbered media_type file_name j e) fs) ->
  ~ In (numbered media_type file_name (S k) e) fs ->
  get_file_path fs message = Ok (numbered media_type file_name (S k) e).
Proof.
  intros Hf Hb media_type e Hplain Hbusy Hfree.
  destruct (get_file_path_first_free fs message f file_name Hf Hb) as [_ H].
  fold media_type e in H.
  destruct (H (proj2 (is_file_In _ _) Hplain)) as (n & Hn & -> & Hn_free & Hn_busy).
  f_equal. f_equal.
  destruct (Nat.lt_trichotomy n (S k)) as [Hlt|[->|Hgt]]; [|reflexivity|].
  - exfalso. assert (Hin : In (numbered media_type file_name n e) fs)
      by (apply Hbusy; lia).
    apply is_file_In in Hin. congruence.
  - exfalso. apply Hfree. apply is_file_In. apply Hn_busy. lia.
Qed.

(** The path depends on the message through its base name, folder and
    extension only: on one disk, two messages that agree on these get
    one path. *)
Lemma get_file_path_same fs a b fa fb :
  file a = Some fa -> file b = Some fb ->
  base_name a fa = base_name b fb ->
  media_type_of (mime_type fa) = media_type_of (mime_type fb) ->
  ext fa = ext fb ->
  get_file_path fs a = get_file_path fs b.
Proof.
  intros Ha Hb Hbase Hmedia Hext. unfold get_file_path.
  now rewrite Ha, Hb, Hbase, Hmedia, Hext.
Qed.

(** A document named as a file on disk is numbered: 1 after the plain
    name, 2 after that. *)
Example get_file_path_numbers_after_collision :
  get_file_path ["media/other/report.pdf"] report_b
    = Ok "media/other/report - 1.pdf" /\
  get_file_path ["media/other/report - 1.pdf"; "media/other/report.pdf"] report_b
    = Ok "media/other/report - 2.pdf".
Proof. split; reflexivity. Qed.

(** C7.  What [get_file_path] makes of a file name that does not end
    with the declared extension: it cuts as many characters off the end
    of the name as the extension has, whatever they are.  A photo sent
    as photo.jpeg, for which the client declares .jpg, is stored as
    photo..jpg, and a file named README declared .txt as RE.txt: the
    base name is not the file name with its extension stripped. *)
Theorem get_file_path_cuts_by_length :
  get_file_path [] (document 7 "photo.jpeg" ".jpg" "image/jpeg")
    = Ok "media/images/photo..jpg" /\
  get_file_path [] (document 8 "README" ".txt" "text/plain")
    = Ok "media/other/RE.txt" /\
  base_name (document 7 "photo.jpeg" ".jpg" "image/jpeg")
            (mkFile (Some "photo.jpeg") (Some ".jpg") "image/jpeg") = Ok "photo.".
Proof. repeat split. Qed.

(** C6.  Two documents of one batch that carry the same file name are
    given the same path: [download_messages] resolves every path before
    any download has started, so the second message does not meet the
    file of the first.  Run on an empty disk with a client that writes
    what it is asked, both downloads go to media/other/report.pdf, one
    file is left on disk and the ledger marks both messages downloaded. *)
Theorem same_name_in_one_batch_same_path :
  download_tasks [] [report_a; report_b]
    = Ok [(report_a, "media/other/report.pdf");
          (report_b, "media/other/report.pdf")] /\
  let '(r, st) := run (chat_with [report_a; report_b] download_ok) "bob" [] NoFile in
  r = Ok tt /\
  r_disk st = ["media/other/report.pdf"] /\
  r_file st = Json [("bob", [("1", mkJ true (Some true));
                             ("2", mkJ true (Some true))])].
Proof. repeat split. Qed.

(** ** The batch downloader *)

Lemma bind_Ok {A B} (r : result A) (k : A -> result B) b :
  bind r k = Ok b -> exists a, r = Ok a /\ k a = Ok b.
Proof. destruct r; simpl; [eauto | discriminate..]. Qed.

Lemma queue_messages_Ok chat_state download_queue messages :
  queue_messages chat_state download_queue = Ok messages ->
  Forall2 (fun key m => exists item,
             Dict.get chat_state key = Some item /\ message item = Some m)
          download_queue messages.
Proof.
  revert messages. induction download_queue as [|x rest IH]; simpl; intros messages.
  - intros [= <-]. constructor.
  - destruct (Dict.get chat_state x) as [item|] eqn:Eg; [|discriminate].
    destruct (message item) as [m|] eqn:Em; [|discriminate].
    intros H. apply bind_Ok in H. destruct H as (ms & Hms & [= <-]).
    constructor; [eauto | auto].
Qed.

Lemma download_tasks_Ok fs messages tasks :
  download_tasks fs messages = Ok tasks ->
  map fst tasks = messages /\
  Forall (fun t => get_file_path fs (fst t) = Ok (snd t)) tasks.
Proof.
  revert tasks. induction messages as [|m rest IH]; simpl; intros tasks.
  - intros [= <-]. split; constructor.
  - intros H. apply bind_Ok in H. destruct H as (path & Hp & H).
    apply bind_Ok in H. destruct H as (ts & Hts & [= <-]).
    destruct (IH _ Hts) as [Hm Hall]. simpl. split; [now f_equal | now constructor].
Qed.

Lemma run_tasks_length client fs tasks :
  List.length (fst (run_tasks client fs tasks)) = List.length tasks.
Proof.
  unfold run_tasks. destruct (run_in_order _ _ _ _) as [done fs1].
  cbn [fst]. now rewrite length_map, length_seq.
Qed.

(** A join that returns has one result per task, none of them raised. *)
Lemma join_Ok {A} (rs : list (result A)) xs :
  join rs = Ok xs -> rs = map Ok xs.
Proof.
  revert xs. induction rs as [|r rs IH]; simpl; intros xs.
  - now intros [= <-].
  - destruct r as [x|e|]; destruct (join rs) as [ys|e'|]; try discriminate.
    intros [= <-]. simpl. f_equal. now apply IH.
Qed.

Lemma gather_Ok client fs tasks file_paths fs' :
  gather client fs tasks = (Ok file_paths, fs') ->
  List.length file_paths = List.length tasks.
Proof.
  unfold gather. pose proof (run_tasks_length client fs tasks) as Hlen.
  destruct (run_tasks client fs tasks) as [rs fs1]. simpl in Hlen.
  intros [= H <-]. apply join_Ok in H. subst rs.
  now rewrite length_map in Hlen.
Qed.

(** What the recording loop leaves when it runs to its end: one mark
    per message; a record whose result is confirmed has [downloaded]
    set, the other records are as they were. *)
Lemma record_results_Ok fs :
  forall messages file_paths chat_state chat_state' tr,
    record_results fs chat_state messages file_paths = (Ok tt, chat_state', tr) ->
    NoDup (map key_of messages) ->
    List.length tr = List.length messages /\
    (forall key, ~ In key (map key_of messages) ->
       Dict.get chat_state' key = Dict.get chat_state key) /\
    (forall i m file_path,
       nth_error messages i = Some m -> nth_error file_paths i = Some file_path ->
       Dict.get chat_state' (key_of m) =
         if confirmed fs file_path
         then option_map set_downloaded (Dict.get chat_state (key_of m))
         else Dict.get chat_state (key_of m)) /\
    List.length messages <= List.length file_paths.
Proof.
  induction messages as [|m rest IH]; simpl; intros file_paths chat_state chat_state' tr H Hnd.
  - injection H as <- <-. repeat split; [|simpl; lia].
    intros [|i] m fp; discriminate.
  - destruct file_paths as [|fp fps]; [discriminate|].
    inversion Hnd as [|? ? Hnotin Hnd']; subst.
    fold (key_of m) in H.
    destruct (confirmed fs fp) eqn:Ec.
    + destruct (Dict.get chat_state (key_of m)) as [item|] eqn:Eg; [|discriminate].
      destruct (record_results fs _ rest fps) as [[r cs1] tr1] eqn:Er.
      injection H as -> <- <-.
      destruct (IH _ _ _ _ Er Hnd') as (Hlen & Hframe & Hupd & Hfps).
      repeat split; [simpl; lia | | | simpl; lia].
      * intros key Hk. rewrite Hframe by (intros Hin; apply Hk; now right).
        apply DictFacts.get_set_other. intros <-. apply Hk. now left.
      * intros [|i] m' fp'; simpl.
        -- intros [= <-] [= <-]. rewrite Ec, Hframe, Eg by assumption.
           now rewrite DictFacts.get_set_same.
        -- intros Hm Hfp. rewrite (Hupd _ _ _ Hm Hfp).
           assert (Hne : key_of m <> key_of m').
           { intros E. apply Hnotin. rewrite E. apply in_map.
             eapply nth_error_In; eassumption. }
           now rewrite DictFacts.get_set_other by assumption.
    + destruct (record_results fs chat_state rest fps) as [[r cs1] tr1] eqn:Er.
      injection H as -> <- <-.
      destruct (IH _ _ _ _ Er Hnd') as (Hlen & Hframe & Hupd & Hfps).
      repeat split; [simpl; lia | | | simpl; lia].
      * intros key Hk. apply Hframe. intros Hin. apply Hk. now right.
      * intros [|i] m' fp'; simpl.
        -- intros [= <-] [= <-]. rewrite Ec. now apply Hframe.
        -- intros Hm Hfp. apply (Hupd _ _ _ Hm Hfp).
Qed.

(** The parts of a batch that came to its end. *)
Lemma download_messages_Ok client download_queue chat_state fs chat_state' fs' tr :
  download_messages client download_queue chat_state fs = (Ok tt, chat_state', fs', tr) ->
  exists messages tasks file_paths marks,
    queue_messages chat_state download_queue = Ok messages /\
    download_tasks fs messages = Ok tasks /\
    gather client fs tasks = (Ok file_paths, fs') /\
    record_results fs' chat_state messages file_paths = (Ok tt, chat_state', marks) /\
    tr = (calls client fs tasks ++ marks)%list.
Proof.
  unfold download_messages.
  destruct (queue_messages chat_state download_queue) as [messages| |] eqn:Eq;
    [|discriminate..].
  destruct (download_tasks fs messages) as [tasks| |] eqn:Et; [|discriminate..].
  destruct (gather client fs tasks) as [[file_paths| |] fs1] eqn:Eg; [|discriminate..].
  destruct (record_results fs1 chat_state messages file_paths) as [[r cs1] marks] eqn:Er.
  intros [= -> <- <- <-]. exists messages, tasks, file_paths, marks.
  repeat split; assumption || reflexivity.
Qed.

Lemma queued_record chat_state messages :
  queue_messages chat_state (map key_of messages) = Ok messages ->
  forall m, In m messages ->
    exists item, Dict.get chat_state (key_of m) = Some item /\
                 message item = Some m.
Proof.
  induction messages as [|a rest IH]; simpl; [tauto|].
  destruct (Dict.get chat_state (key_of a)) as [item|] eqn:Eg; [|discriminate].
  destruct (message item) as [m0|] eqn:Em; [|discriminate].
  intros H. apply bind_Ok in H. destruct H as (ms & Hms & [= -> ->]).
  intros m [<-|Hin]; [eauto | now apply IH].
Qed.

(** C4.  A batch whose records are queued under the ids of their
    messages, each once and each still marked not downloaded, and whose
    downloads have all come back: the record of an entry is marked
    downloaded exactly when the result of its download is a path (not
    None) that is a file on the disk the downloads left; with any other
    result the record is what it was, so a record whose download
    returned nothing is unchanged; nothing but [downloaded] changes in
    a record, and the records outside the batch are untouched. *)
Theorem download_messages_marks_confirmed :
  forall client download_queue chat_state fs chat_state' fs' tr messages,
    queue_messages chat_state download_queue = Ok messages ->
    map key_of messages = download_queue ->
    NoDup download_queue ->
    (forall key item, In key download_queue ->
       Dict.get chat_state key = Some item -> downloaded item = Some false) ->
    download_messages client download_queue chat_state fs
      = (Ok tt, chat_state', fs', tr) ->
    exists tasks file_paths,
      download_tasks fs messages = Ok tasks /\
      gather client fs tasks = (Ok file_paths, fs') /\
      List.length file_paths = List.length download_queue /\
      (forall i key file_path,
         nth_error download_queue i = Some key ->
         nth_error file_paths i = Some file_path ->
         exists item item',
           Dict.get chat_state key = Some item /\
           Dict.get chat_state' key = Some item' /\
           (downloaded item' = Some true <->
              exists path, file_path = Some path /\ is_file fs' path = true) /\
           ((file_path = None \/
             exists path, file_path = Some path /\ is_file fs' path = false) ->
              item' = item /\ downloaded item' = Some false) /\
           has_media item' = has_media item /\ message item' = message item) /\
      (forall key, ~ In key download_queue ->
         Dict.get chat_state' key = Dict.get chat_state key).
Proof.
  intros client download_queue chat_state fs chat_state' fs' tr messages
    Hq Hkeys Hnd Hpending H.
  apply download_messages_Ok in H.
  destruct H as (messages' & tasks & file_paths & marks & Hq' & Ht & Hg & Hr & _).
  rewrite Hq in Hq'. injection Hq' as <-.
  exists tasks, file_paths. subst download_queue.
  destruct (record_results_Ok _ _ _ _ _ _ Hr Hnd) as (_ & Hframe & Hupd & _).
  pose proof (gather_Ok _ _ _ _ _ Hg) as Hlen.
  destruct (download_tasks_Ok _ _ _ Ht) as [Hfst _].
  repeat split; try assumption.
  - rewrite Hlen, <- Hfst, !length_map. reflexivity.
  - intros i key file_path Hi Hfp.
    rewrite nth_error_map in Hi.
    destruct (nth_error messages i) as [m|] eqn:Em; [|discriminate].
    injection Hi as <-.
    assert (Hin : In m messages) by (eapply nth_error_In; eassumption).
    destruct (queued_record _ _ Hq _ Hin) as (item & Hget & _).
    pose proof (Hpending _ _ (in_map key_of _ _ Hin) Hget) as Hfalse.
    specialize (Hupd _ _ _ Em Hfp). rewrite Hget in Hupd.
    exists item. unfold confirmed in Hupd.
    destruct file_path as [path|]; [destruct (is_file fs' path) eqn:Efile|];
      simpl in Hupd;
      [exists (set_downloaded item) | exists item | exists item];
      (split; [assumption|]); (split; [assumption|]).
    + split; [split; [intros _; exists path; auto | reflexivity]|].
      split; [|split; reflexivity].
      intros [Hn|(p & [= <-] & Hp)]; congruence.
    + split; [split; [congruence | intros (p & [= <-] & Hp); congruence]|].
      split; [auto | split; reflexivity].
    + split; [split; [congruence | intros (p & Hp & _); discriminate]|].
      split; [auto | split; reflexivity].
Qed.

Lemma download_messages_marks_confirmed_witness :
  let client := chat_with [photo 1; photo 2; text 3] (download_only 1) in
  let batch := download_messages client ["1"; "2"] sample_chat [] in
  fst (fst (fst batch)) = Ok tt /\
  option_map downloaded (Dict.get (snd (fst (fst batch))) "1") = Some (Some true) /\
  Dict.get (snd (fst (fst batch))) "2" = Dict.get sample_chat "2".
Proof.
  intros client batch. split; [reflexivity|].
  assert (Hnd : NoDup ["1"; "2"]).
  { apply NoDup_cons; [intros [H|[]]; discriminate|].
    apply NoDup_cons; [intros []|apply NoDup_nil]. }
  assert (Hpending : forall key item, In key ["1"; "2"] ->
            Dict.get sample_chat key = Some item -> downloaded item = Some false).
  { intros key item [<-|[<-|[]]]; now intros [= <-]. }
  destruct (download_messages_marks_confirmed client ["1"; "2"] sample_chat []
              (snd (fst (fst batch))) (snd (fst batch)) (snd batch)
              [photo 1; photo 2] eq_refl eq_refl Hnd Hpending eq_refl)
    as (tasks & file_paths & Ht & Hg & _ & Hrec & _).
  injection Ht as <-. injection Hg as <-.
  split.
  - destruct (Hrec 0 "1" (Some "media/images/1 - 20240309-1200.jpg") eq_refl eq_refl)
      as (item & item' & _ & -> & [_ Hyes] & _).
    simpl. f_equal. apply Hyes. eexists. split; reflexivity.
  - destruct (Hrec 1 "2" None eq_refl eq_refl)
      as (item & item' & -> & -> & _ & Hsame & _).
    f_equal. now destruct (Hsame (or_introl eq_refl)).
Defined.

(** ** A download that raises *)

Lemma clean_app tr1 tr2 : clean tr1 -> clean tr2 -> clean (tr1 ++ tr2).
Proof.
  intros H1 H2 e He. apply in_app_or in He. destruct He; auto.
Qed.

Lemma clean_not_call tr : Forall (fun e => is_call e = false) tr -> clean tr.
Proof.
  intros H e He (m & p & x & ->).
  rewrite Forall_forall in H. now specialize (H _ He).
Qed.

Lemma calls_are_calls client fs tasks :
  Forall (fun e => is_call e = true) (calls client fs tasks).
Proof.
  unfold calls. apply Forall_forall. intros e He.
  apply in_map_iff in He. now destruct He as (x & <- & _).
Qed.

(** When the join returns, no call of the batch has raised. *)
Lemma calls_clean client fs tasks file_paths fs' :
  gather client fs tasks = (Ok file_paths, fs') -> clean (calls client fs tasks).
Proof.
  unfold gather, calls. destruct (run_tasks client fs tasks) as [rs fs1].
  intros [= H _]. apply join_Ok in H. subst rs. simpl.
  intros e He (m & p & x & ->). apply in_map_iff in He.
  destruct He as ([t r] & [= _ _ Hr] & Hin). simpl in Hr. subst r.
  apply in_combine_r in Hin. apply in_map_iff in Hin.
  now destruct Hin as (y & Hy & _).
Qed.

Lemma record_results_marks fs :
  forall messages file_paths chat_state r chat_state' tr,
    record_results fs chat_state messages file_paths = (r, chat_state', tr) ->
    Forall (fun e => is_mark e = true) tr.
Proof.
  induction messages as [|m rest IH]; simpl; intros file_paths chat_state r cs' tr H.
  - injection H as <- <- <-. constructor.
  - destruct file_paths as [|fp fps]; [injection H as <- <- <-; constructor|].
    destruct (confirmed fs fp).
    + destruct (Dict.get chat_state _) as [item|];
        [|injection H as <- <- <-; constructor].
      destruct (record_results fs _ rest fps) as [[r1 cs1] tr1] eqn:Er.
      injection H as <- <- <-. constructor; [reflexivity|eauto].
    + destruct (record_results fs _ rest fps) as [[r1 cs1] tr1] eqn:Er.
      injection H as <- <- <-. constructor; [reflexivity|eauto].
Qed.

Lemma sound_Ok tr : sound (Ok tt) tr -> clean tr.
Proof. intros [H|[H _]]; [assumption|discriminate]. Qed.

Lemma download_messages_sound client download_queue chat_state fs r chat_state' fs' tr pre :
  download_messages client download_queue chat_state fs = (r, chat_state', fs', tr) ->
  clean pre -> sound r (pre ++ tr).
Proof.
  unfold download_messages. intros H Hpre.
  destruct (queue_messages chat_state download_queue) as [messages|e|];
    [|injection H as <- _ _ <-; left; now rewrite List.app_nil_r..].
  destruct (download_tasks fs messages) as [tasks|e|];
    [|injection H as <- _ _ <-; left; now rewrite List.app_nil_r..].
  destruct (gather client fs tasks) as [[file_paths|e|] fs1] eqn:Eg.
  - destruct (record_results fs1 chat_state messages file_paths) as [[r1 cs1] marks] eqn:Er.
    injection H as <- _ _ <-. left.
    apply clean_app; [assumption|]. apply clean_app.
    + eapply calls_clean; eassumption.
    + apply clean_not_call. apply record_results_marks in Er.
      eapply Forall_impl; [|exact Er]. now intros [].
  - injection H as <- _ _ <-. right. split; [reflexivity|].
    exists pre, (calls client fs tasks). repeat split; [assumption|apply calls_are_calls].
  - injection H as <- _ _ <-. right. split; [reflexivity|].
    exists pre, (calls client fs tasks). repeat split; [assumption|apply calls_are_calls].
Qed.

Lemma examine_trace chat_state download_queue m chat_state' download_queue' tr :
  examine chat_state download_queue m = Ok (chat_state', download_queue', tr) ->
  (tr = [] /\ download_queue' = download_queue) \/
  (tr = [Enqueue (key_of m)] /\ download_queue' = (download_queue ++ [key_of m])%list).
Proof.
  unfold examine. fold (key_of m).
  destruct (Dict.get chat_state (key_of m)) as [item|].
  - intros H. apply bind_Ok in H. destruct H as ([|] & _ & [= <- <- <-]); auto.
  - destruct (media m && has_file m); intros [= <- <- <-]; auto.
Qed.

Lemma flush_if_full_sound client user_id st r st' :
  flush_if_full client user_id st = (r, st') ->
  clean (r_trace st) -> sound r (r_trace st').
Proof.
  unfold flush_if_full. intros H Hc.
  destruct (20 <=? List.length (r_queue st))%nat; [|injection H as <- <-; now left].
  destruct (Dict.get (r_state st) user_id) as [chat_state|];
    [|injection H as <- <-; now left].
  destruct (download_messages client _ chat_state _) as [[[r1 cs1] fs1] tr1] eqn:Ed.
  pose proof (download_messages_sound _ _ _ _ _ _ _ _ _ Ed Hc) as Hs.
  destruct r1 as [[]|e|].
  - destruct (write_state_to_file _ user_id) as [[w state1] f1].
    apply sound_Ok in Hs.
    assert (Hc' : clean (r_trace st ++ tr1 ++ [Save f1])).
    { rewrite List.app_assoc. apply clean_app; [assumption|].
      apply clean_not_call. now repeat constructor. }
    destruct w as [[]|e|]; injection H as <- <-; now left.
  - injection H as <- <-. exact Hs.
  - injection H as <- <-. exact Hs.
Qed.

Lemma step_sound client user_id st m r st' :
  step client user_id st m = (r, st') ->
  clean (r_trace st) -> sound r (r_trace st').
Proof.
  unfold step. intros H Hc.
  destruct (Dict.get (r_state st) user_id) as [chat_state|];
    [|injection H as <- <-; now left].
  destruct (examine chat_state (r_queue st) m) as [[[cs1 q1] tr1]|e|] eqn:Ee;
    [|injection H as <- <-; now left..].
  apply flush_if_full_sound in H; [assumption|]. simpl.
  apply clean_app; [assumption|]. apply clean_not_call.
  apply examine_trace in Ee. destruct Ee as [[-> _]|[-> _]]; now repeat constructor.
Qed.

Lemma stream_sound client user_id messages :
  forall st r st',
    stream client user_id messages st = (r, st') ->
    clean (r_trace st) -> sound r (r_trace st').
Proof.
  induction messages as [|m rest IH]; simpl; intros st r st' H Hc.
  - injection H as <- <-. now left.
  - destruct (step client user_id st m) as [r1 st1] eqn:Es.
    pose proof (step_sound _ _ _ _ _ _ Es Hc) as Hs.
    destruct r1 as [[]|e|].
    + apply (IH _ _ _ H). now apply sound_Ok.
    + injection H as <- <-. exact Hs.
    + injection H as <- <-. exact Hs.
Qed.

Lemma drain_sound client user_id st r st' :
  drain client user_id st = (r, st') ->
  clean (r_trace st) -> sound r (r_trace st').
Proof.
  unfold drain. intros H Hc.
  destruct (Dict.get (r_state st) user_id) as [chat_state|];
    [|injection H as <- <-; now left].
  destruct (download_messages client _ chat_state _) as [[[r1 cs1] fs1] tr1] eqn:Ed.
  injection H as <- <-. simpl.
  eapply download_messages_sound; eassumption.
Qed.

Lemma try_block_sound client user_id st r st' :
  try_block client user_id st = (r, st') ->
  clean (r_trace st) -> sound r (r_trace st').
Proof.
  unfold try_block. intros H Hc.
  destruct (get_entity client user_id) as [[]|e|];
    [|injection H as <- <-; now left..].
  destruct (get_last_id (r_state st) user_id) as [[last_id|e|] state];
    [|injection H as <- <-; now left..].
  destruct (stream client user_id _ _) as [r1 st1] eqn:Es.
  pose proof (stream_sound _ _ _ _ _ _ Es Hc) as Hs.
  destruct r1 as [[]|e|].
  - apply (drain_sound _ _ _ _ _ H). now apply sound_Ok.
  - injection H as <- <-. exact Hs.
  - injection H as <- <-. exact Hs.
Qed.

Lemma join_not_Ok {A} (rs : list (result A)) e :
  In (Raise e) rs -> is_ok (join rs) = false.
Proof.
  intros Hin. destruct (join rs) as [xs| |] eqn:E; try reflexivity.
  apply join_Ok in E. subst rs. apply in_map_iff in Hin.
  now destruct Hin as (x & Hx & _).
Qed.

(** The loop ends on the first turn that does not return: the messages
    after it are not looked at. *)
Lemma stream_stops client user_id before : forall m rest st st1 r st2,
  stream client user_id before st = (Ok tt, st1) ->
  step client user_id st1 m = (r, st2) -> is_ok r = false ->
  stream client user_id (before ++ m :: rest) st = (r, st2).
Proof.
  induction before as [|b before IH]; simpl; intros m rest st st1 r st2 Hs Hm Hr.
  - injection Hs as <-. rewrite Hm. now destruct r as [[]|e|].
  - destruct (step client user_id st b) as [rb stb].
    destruct rb as [[]|e|]; [|discriminate..]. eauto.
Qed.

Lemma existsb_eqb_In i l : existsb (Nat.eqb i) l = true <-> In i l.
Proof.
  rewrite existsb_exists. split.
  - intros (j & Hj & E). apply Nat.eqb_eq in E. now subst.
  - intros H. exists i. split; [assumption|apply Nat.eqb_refl].
Qed.

Lemma distinct_spec l : forall seen,
  NoDup (distinct seen l) /\
  forall i, In i (distinct seen l) <-> In i l /\ ~ In i seen.
Proof.
  induction l as [|k l IH]; intros seen; simpl.
  - split; [constructor|]. intros i. tauto.
  - destruct (existsb (Nat.eqb k) seen) eqn:E.
    + destruct (IH seen) as [Hnd Hin]. split; [assumption|].
      apply existsb_eqb_In in E. intros i. rewrite Hin.
      split; [tauto|]. intros [[<-|H] Hs]; tauto.
    + destruct (IH (k :: seen)) as [Hnd Hin].
      assert (Hk : ~ In k seen).
      { intros H. apply existsb_eqb_In in H. congruence. }
      split.
      * constructor; [|assumption]. rewrite Hin. simpl. tauto.
      * intros i. simpl. rewrite Hin. simpl.
        destruct (Nat.eq_dec k i) as [<-|Hne]; tauto.
Qed.

(** The order in which the downloads of a batch come to their end
    names every task, and each once. *)
Lemma finishing_In n order i : In i (finishing n order) <-> i < n.
Proof.
  unfold finishing.
  set (named := distinct [] (filter (fun i => (i <? n)%nat) order)).
  assert (Hnamed : forall j, In j named -> j < n).
  { intros j Hj. apply (proj2 (distinct_spec _ [])) in Hj.
    destruct Hj as [Hj _]. apply filter_In in Hj.
    now apply Nat.ltb_lt. }
  rewrite in_app_iff, filter_In, in_seq. split.
  - intros [H|[H _]]; [auto|lia].
  - intros H. destruct (existsb (Nat.eqb i) named) eqn:E.
    + left. now apply existsb_eqb_In.
    + right. split; [lia|reflexivity].
Qed.

Lemma finishing_NoDup n order : NoDup (finishing n order).
Proof.
  unfold finishing.
  set (named := distinct [] (filter (fun i => (i <? n)%nat) order)).
  apply NoDup_app.
  - apply distinct_spec.
  - apply NoDup_filter, seq_NoDup.
  - intros i Hi Hf. apply filter_In in Hf. destruct Hf as [_ Hf].
    apply existsb_eqb_In in Hi. rewrite Hi in Hf. discriminate.
Qed.

Lemma done_positions client tasks order : forall fs done fs',
  run_in_order client fs tasks order = (done, fs') ->
  forall d, In d done -> In (fst d) order.
Proof.
  induction order as [|k rest IH]; simpl; intros fs done fs' H d Hd.
  - injection H as <- _. destruct Hd.
  - destruct (nth_error tasks k) as [[m path]|]; [|right; eauto].
    destruct (download_media client fs m path) as [r fs1].
    destruct r as [p|e|];
      [destruct (run_in_order client fs1 tasks rest) as [done1 fs2] eqn:E| |
       destruct (run_in_order client fs1 tasks rest) as [done1 fs2] eqn:E];
      injection H as <- _; destruct Hd as [<-|Hd];
      try (now left); try (right; eauto); try destruct Hd.
Qed.

Lemma outcome_absent done i :
  (forall d, In d done -> fst d <> i) -> outcome done i = Unfinished.
Proof.
  intros H. unfold outcome.
  destruct (find (fun d => fst d =? i)%nat done) as [d|] eqn:E; [|reflexivity].
  apply find_some in E. destruct E as [Hin E]. apply Nat.eqb_eq in E.
  now apply H in Hin.
Qed.

Lemma outcome_cons k r done i :
  outcome ((k, r) :: done) i = if (k =? i)%nat then r else outcome done i.
Proof. unfold outcome. simpl. now destruct (k =? i)%nat. Qed.

(** A download that raised is where the join ended: the downloads
    before it in the order came to their end without raising, those
    after it have no outcome, and the disk is what the former left,
    then the latter. *)
Lemma run_in_order_raise client tasks order : forall fs done fs' i x,
  NoDup order ->
  run_in_order client fs tasks order = (done, fs') ->
  outcome done i = Raise x ->
  exists before after,
    order = (before ++ i :: after)%list /\
    (forall j, In j before -> forall y, outcome done j <> Raise y) /\
    (forall j, In j after -> outcome done j = Unfinished) /\
    fs' = abandon client
            (fold_left (fun fs j =>
                          match nth_error tasks j with
                          | Some (m, path) => snd (download_media client fs m path)
                          | None => fs
                          end) (before ++ [i])%list fs)
            tasks after.
Proof.
  induction order as [|k rest IH]; simpl; intros fs done fs' i x Hnd H Ho.
  - injection H as <- _. discriminate.
  - inversion Hnd as [|? ? Hk Hrest]; subst.
    assert (Hrest_k : forall j, In j rest -> (k =? j)%nat = false).
    { intros j Hj. apply Nat.eqb_neq. intros ->. contradiction. }
    destruct (nth_error tasks k) as [[m path]|] eqn:Et.
    + destruct (download_media client fs m path) as [r fs1] eqn:Ed.
      assert (Hgo : forall done1,
                (forall y, r <> Raise y) ->
                run_in_order client fs1 tasks rest = (done1, fs') ->
                done = (k, r) :: done1 ->
                exists before after,
                  k :: rest = (before ++ i :: after)%list /\
                  (forall j, In j before -> forall y, outcome done j <> Raise y) /\
                  (forall j, In j after -> outcome done j = Unfinished) /\
                  fs' = abandon client
                          (fold_left (fun fs j =>
                             match nth_error tasks j with
                             | Some (m, path) => snd (download_media client fs m path)
                             | None => fs
                             end) (before ++ [i])%list fs)
                          tasks after).
      { intros done1 Hr E ->. rewrite outcome_cons in Ho.
        destruct (k =? i)%nat eqn:Eki; [now apply Hr in Ho|].
        destruct (IH _ _ _ _ _ Hrest E Ho) as (before & after & -> & Hb & Ha & Hfs).
        exists (k :: before), after. split; [reflexivity|]. split; [|split].
        - intros j [<-|Hj] y; rewrite outcome_cons.
          + rewrite Nat.eqb_refl. apply Hr.
          + rewrite Hrest_k by (apply in_or_app; now left). now apply Hb.
        - intros j Hj. rewrite outcome_cons.
          rewrite Hrest_k by (apply in_or_app; right; now right). now apply Ha.
        - simpl. rewrite Et, Ed. exact Hfs. }
      destruct r as [p|e|].
      * destruct (run_in_order client fs1 tasks rest) as [done1 fs2] eqn:E.
        injection H as <- <-. now apply (Hgo done1).
      * injection H as <- <-. rewrite outcome_cons in Ho.
        destruct (k =? i)%nat eqn:Eki; [|discriminate].
        apply Nat.eqb_eq in Eki. subst i.
        exists [], rest. split; [reflexivity|]. split; [intros j []|]. split.
        -- intros j Hj. rewrite outcome_cons, (Hrest_k _ Hj). reflexivity.
        -- simpl. now rewrite Et, Ed.
      * destruct (run_in_order client fs1 tasks rest) as [done1 fs2] eqn:E.
        injection H as <- <-. now apply (Hgo done1).
    + destruct (IH _ _ _ _ _ Hrest H Ho) as (before & after & -> & Hb & Ha & Hfs).
      exists (k :: before), after. split; [reflexivity|]. split; [|split].
      * intros j [<-|Hj] y; [|now apply Hb].
        rewrite outcome_absent; [discriminate|].
        intros d Hd E. apply (done_positions _ _ _ _ _ _ H) in Hd.
        rewrite E in Hd. contradiction.
      * assumption.
      * simpl. now rewrite Et.
Qed.

(** A task that raised has its exception raised by the join, whatever
    else is in the list. *)
Lemma join_raises {A} (rs : list (result A)) x :
  In (Raise x) rs -> exists e, join rs = Raise e /\ In (Raise e) rs.
Proof.
  induction rs as [|r rs IH]; simpl; [intros []|].
  intros [->|Hin]; [eauto|].
  destruct (IH Hin) as (e & -> & He).
  destruct r as [y|e'|]; eauto.
Qed.

Lemma outcomes_nth client fs tasks done fs' j :
  run_in_order client fs tasks
    (finishing (List.length tasks) (finish_order client fs tasks)) = (done, fs') ->
  j < List.length tasks ->
  nth_error (fst (run_tasks client fs tasks)) j = Some (outcome done j).
Proof.
  intros E Hj. unfold run_tasks. rewrite E. cbn [fst].
  rewrite nth_error_map, nth_error_seq.
  apply Nat.ltb_lt in Hj. now rewrite Hj.
Qed.

(** C5, as the code has it.  A download call that raises is not
    swallowed, and the batch is not joined in full.  The join ends with
    the first download that raises: the batch downloader raises that
    exception without having marked any record, so the failing item
    and its siblings alike stay as they were, also the siblings that
    had come to their end before it and whose files are on disk; the
    siblings still in flight are left to themselves, and their outcome
    is never seen.  The loop over the history ends on the turn that does
    not return, whatever messages follow.  In the run the batch with
    the raising call is the last thing done before the final save:
    nothing is enqueued, marked or downloaded after it, and the run
    does not return normally. *)
Theorem raising_download_stops_the_run :
  (forall client download_queue chat_state fs messages tasks x,
      queue_messages chat_state download_queue = Ok messages ->
      download_tasks fs messages = Ok tasks ->
      In (Raise x) (fst (run_tasks client fs tasks)) ->
      download_messages client download_queue chat_state fs =
        (Raise x, chat_state, snd (run_tasks client fs tasks),
         calls client fs tasks) /\
      exists before i after,
        finishing (List.length tasks) (finish_order client fs tasks)
          = (before ++ i :: after)%list /\
        nth_error (fst (run_tasks client fs tasks)) i = Some (Raise x) /\
        (forall j, In j before ->
           exists o, nth_error (fst (run_tasks client fs tasks)) j = Some o /\
                     forall y, o <> Raise y) /\
        (forall j, In j after ->
           nth_error (fst (run_tasks client fs tasks)) j = Some Unfinished) /\
        snd (run_tasks client fs tasks) =
          abandon client
            (fold_left (fun fs j =>
                          match nth_error tasks j with
                          | Some (m, path) => snd (download_media client fs m path)
                          | None => fs
                          end) (before ++ [i])%list fs)
            tasks after) /\
  (forall client user_id before m rest st st1 r st2,
      stream client user_id before st = (Ok tt, st1) ->
      step client user_id st1 m = (r, st2) -> is_ok r = false ->
      stream client user_id (before ++ m :: rest) st = (r, st2)) /\
  (forall client user_id fs f r st e,
      run client user_id fs f = (r, st) ->
      In e (r_trace st) -> raised e ->
      is_ok r = false /\
      exists pre batch,
        r_trace st = (pre ++ batch ++ [Save (r_file st)])%list /\
        clean pre /\
        Forall (fun e => is_call e = true) batch /\
        In e batch).
Proof.
  split.
  - intros client download_queue chat_state fs messages tasks x Hq Ht Hin.
    destruct (run_in_order client fs tasks
                (finishing (List.length tasks) (finish_order client fs tasks)))
      as [done fs1] eqn:E.
    assert (Hpos : forall j,
              In j (finishing (List.length tasks) (finish_order client fs tasks)) ->
              nth_error (fst (run_tasks client fs tasks)) j = Some (outcome done j)).
    { intros j Hj. apply (outcomes_nth _ _ _ _ _ _ E). now apply finishing_In in Hj. }
    assert (Hraise : forall y,
              In (Raise y) (fst (run_tasks client fs tasks)) ->
              exists i, outcome done i = Raise y).
    { intros y Hy. unfold run_tasks in Hy. rewrite E in Hy. cbn [fst] in Hy.
      apply in_map_iff in Hy. destruct Hy as (i & Hi & _). eauto. }
    destruct (Hraise x Hin) as (i & Hi).
    destruct (run_in_order_raise _ _ _ _ _ _ _ _ (finishing_NoDup _ _) E Hi)
      as (before & after & Horder & Hb & Ha & Hfs).
    assert (Hone : forall y, In (Raise y) (fst (run_tasks client fs tasks)) -> y = x).
    { intros y Hy. destruct (Hraise y Hy) as (j & Hj).
      assert (Hjin : In j (before ++ i :: after)%list).
      { rewrite <- Horder.
        destruct (find (fun d => (fst d =? j)%nat) done) as [d|] eqn:Ef.
        - apply find_some in Ef. destruct Ef as [Hd Ej].
          apply Nat.eqb_eq in Ej. subst j.
          eapply done_positions; eassumption.
        - unfold outcome in Hj. rewrite Ef in Hj. discriminate. }
      apply in_app_or in Hjin. destruct Hjin as [Hjb|[<-|Hja]].
      - now apply (Hb _ Hjb) in Hj.
      - congruence.
      - rewrite (Ha _ Hja) in Hj. discriminate. }
    split.
    + unfold download_messages. rewrite Hq, Ht. unfold gather.
      destruct (run_tasks client fs tasks) as [rs fs2] eqn:Er. cbn [fst snd] in *.
      destruct (join_raises rs x Hin) as (e & -> & He).
      now rewrite (Hone e He).
    + exists before, i, after. split; [assumption|].
      assert (Hall : forall j, In j (before ++ i :: after)%list ->
                nth_error (fst (run_tasks client fs tasks)) j = Some (outcome done j))
        by (intros j Hj; apply Hpos; now rewrite Horder).
      split; [rewrite Hall, Hi; [reflexivity|apply in_or_app; right; now left]|].
      split; [|split].
      * intros j Hj. exists (outcome done j).
        split; [apply Hall, in_or_app; now left|now apply Hb].
      * intros j Hj. rewrite Hall, (Ha _ Hj); [reflexivity|].
        apply in_or_app. right. now right.
      * unfold run_tasks. rewrite E. exact Hfs.
  - split; [intros; eapply stream_stops; eassumption|].
    intros client user_id fs f r st e Hrun Hin Hraised.
    unfold run in Hrun.
    destruct (read_state_from_file f) as [state|x|];
      [|injection Hrun as <- <-; destruct Hin..].
    destruct (try_block client user_id _) as [r0 st0] eqn:Et.
    apply try_block_sound in Et; [|intros ? []].
    unfold finally_save in Hrun.
    destruct (write_state_to_file (r_state st0) user_id) as [[w state1] f1].
    injection Hrun as <- <-. simpl in *.
    apply in_app_or in Hin. destruct Hin as [Hin|[<-|[]]].
    2:{ destruct Hraised as (m & p & x & [=]). }
    destruct Et as [Hclean|(Hr0 & pre & batch & Htr & Hpre & Hbatch)].
    { exfalso. exact (Hclean _ Hin Hraised). }
    split.
    + destruct w as [[]|x|]; [assumption|reflexivity..].
    + exists pre, batch. rewrite Htr, <- List.app_assoc.
      repeat split; try assumption.
      rewrite Htr in Hin. apply in_app_or in Hin.
      destruct Hin as [Hin|Hin]; [|assumption].
      exfalso. exact (Hpre _ Hin Hraised).
Qed.

Lemma raising_download_stops_the_run_witness :
  let client := chat_finishing (photos 3) (download_raising_at 2) [2; 1; 0] in
  let chat : chat_state_t :=
    [("1", mkItem true (Some false) (Some (photo 1)));
     ("2", mkItem true (Some false) (Some (photo 2)));
     ("3", mkItem true (Some false) (Some (photo 3)))] in
  download_messages client ["1"; "2"; "3"] chat []
    = (Raise ClientError, chat,
       ["media/images/1 - 20240309-1200.jpg"; "media/images/3 - 20240309-1200.jpg"],
       [Call (photo 1) "media/images/1 - 20240309-1200.jpg" Unfinished;
        Call (photo 2) "media/images/2 - 20240309-1200.jpg" (Raise ClientError);
        Call (photo 3) "media/images/3 - 20240309-1200.jpg"
             (Ok (Some "media/images/3 - 20240309-1200.jpg"))]) /\
  is_ok (fst (run client "bob" [] NoFile)) = false.
Proof.
  intros client chat.
  destruct raising_download_stops_the_run as (Hbatch & _ & Hrun). split.
  - destruct (Hbatch client ["1"; "2"; "3"] chat [] [photo 1; photo 2; photo 3]
                [(photo 1, "media/images/1 - 20240309-1200.jpg");
                 (photo 2, "media/images/2 - 20240309-1200.jpg");
                 (photo 3, "media/images/3 - 20240309-1200.jpg")]
                ClientError eq_refl eq_refl) as [H _].
    + right. left. reflexivity.
    + rewrite H. reflexivity.
  - destruct (run client "bob" [] NoFile) as [r st] eqn:E.
    refine (proj1 (Hrun _ _ _ _ r st
              (Call (photo 2) "media/images/2 - 20240309-1200.jpg" (Raise ClientError))
              E _ _)).
    + apply (f_equal snd) in E. cbn [snd] in E. subst st. vm_compute. auto 10.
    + now exists (photo 2), "media/images/2 - 20240309-1200.jpg", ClientError.
Defined.

(** C5 does not hold as stated.  Twenty-one photos, the download of the
    second raises: the run ends with that exception instead of going
    on; the first photo is on disk but its record still says not
    downloaded; the twenty-first photo was never looked at. *)
Lemma download_failure_not_swallowed :
  let '(r, st) :=
    run (chat_with (photos 21) (download_raising_at 2)) "bob" [] NoFile in
  r = Raise ClientError /\
  is_file (r_disk st) "media/images/1 - 20240309-1200.jpg" = true /\
  (exists chat_state,
      Dict.get (r_state st) "bob" = Some chat_state /\
      Dict.get chat_state "1" = Some (mkItem true (Some false) None) /\
      Dict.get chat_state "21" = None) /\
  count is_mark (r_trace st) = 0.
Proof.
  vm_compute. repeat split. eexists. repeat split.
Qed.

(** ** The parts of a run that came to its end *)

Lemma flush_if_full_Ok client user_id st st' :
  flush_if_full client user_id st = (Ok tt, st') ->
  (List.length (r_queue st) < 20 /\ st' = st) \/
  (20 <= List.length (r_queue st) /\
   exists chat_state chat_state' fs' tr state' f',
     Dict.get (r_state st) user_id = Some chat_state /\
     download_messages client (r_queue st) chat_state (r_disk st)
       = (Ok tt, chat_state', fs', tr) /\
     write_state_to_file (Dict.set (r_state st) user_id chat_state') user_id
       = (Ok tt, state', f') /\
     st' = mkRun state' [] fs' f' (r_trace st ++ tr ++ [Save f'])%list).
Proof.
  unfold flush_if_full.
  destruct (Nat.leb_spec 20 (List.length (r_queue st))) as [Hfull|Hroom].
  2:{ intros [= <-]. left. auto. }
  destruct (Dict.get (r_state st) user_id) as [chat_state|]; [|discriminate].
  destruct (download_messages client _ chat_state _) as [[[r cs1] fs1] tr1] eqn:Ed.
  destruct r as [[]|e|]; [|discriminate..].
  destruct (write_state_to_file _ user_id) as [[w state1] f1] eqn:Ew.
  destruct w as [[]|e|]; [|discriminate..].
  intros [= <-]. right. split; [assumption|].
  exists chat_state, cs1, fs1, tr1, state1, f1. auto.
Qed.

Lemma step_Ok client user_id st m st' :
  step client user_id st m = (Ok tt, st') ->
  exists chat_state chat_state' download_queue tr,
    Dict.get (r_state st) user_id = Some chat_state /\
    examine chat_state (r_queue st) m = Ok (chat_state', download_queue, tr) /\
    flush_if_full client user_id
      (mkRun (Dict.set (r_state st) user_id chat_state') download_queue
             (r_disk st) (r_file st) (r_trace st ++ tr)%list) = (Ok tt, st').
Proof.
  unfold step.
  destruct (Dict.get (r_state st) user_id) as [chat_state|]; [|discriminate].
  destruct (examine chat_state (r_queue st) m) as [[[cs1 q1] tr1]|e|] eqn:Ee;
    [|discriminate..].
  intros H. exists chat_state, cs1, q1, tr1. auto.
Qed.

Lemma drain_Ok client user_id st st' :
  drain client user_id st = (Ok tt, st') ->
  exists chat_state chat_state' fs' tr,
    Dict.get (r_state st) user_id = Some chat_state /\
    download_messages client (r_queue st) chat_state (r_disk st)
      = (Ok tt, chat_state', fs', tr) /\
    st' = mkRun (Dict.set (r_state st) user_id chat_state') (r_queue st) fs'
                (r_file st) (r_trace st ++ tr)%list.
Proof.
  unfold drain.
  destruct (Dict.get (r_state st) user_id) as [chat_state|]; [|discriminate].
  destruct (download_messages client _ chat_state _) as [[[r cs1] fs1] tr1] eqn:Ed.
  intros [= -> <-]. exists chat_state, cs1, fs1, tr1. auto.
Qed.

Lemma finally_save_Ok user_id r st st' :
  finally_save user_id r st = (Ok tt, st') ->
  r = Ok tt /\
  exists state' f',
    write_state_to_file (r_state st) user_id = (Ok tt, state', f') /\
    st' = mkRun state' (r_queue st) (r_disk st) f' (r_trace st ++ [Save f'])%list.
Proof.
  unfold finally_save.
  destruct (write_state_to_file (r_state st) user_id) as [[w state1] f1].
  destruct w as [[]|e|]; [|discriminate..].
  intros [= -> <-]. split; [reflexivity|]. exists state1, f1. auto.
Qed.

Lemma try_block_Ok client user_id st st' :
  try_block client user_id st = (Ok tt, st') ->
  exists last_id state0 st1,
    get_entity client user_id = Ok tt /\
    get_last_id (r_state st) user_id = (Ok last_id, state0) /\
    stream client user_id (iter_messages client last_id)
      (mkRun state0 (r_queue st) (r_disk st) (r_file st) (r_trace st)) = (Ok tt, st1) /\
    drain client user_id st1 = (Ok tt, st').
Proof.
  unfold try_block.
  destruct (get_entity client user_id) as [[]|e|]; [|discriminate..].
  destruct (get_last_id (r_state st) user_id) as [[last_id|e|] state0];
    [|discriminate..].
  destruct (stream client user_id _ _) as [r1 st1] eqn:Es.
  destruct r1 as [[]|e|]; [|discriminate..].
  intros H. exists last_id, state0, st1. auto.
Qed.

Lemma run_Ok client user_id fs f st :
  run client user_id fs f = (Ok tt, st) ->
  exists state last_id state0 st1 st2 state' f',
    read_state_from_file f = Ok state /\
    get_entity client user_id = Ok tt /\
    get_last_id state user_id = (Ok last_id, state0) /\
    stream client user_id (iter_messages client last_id) (mkRun state0 [] fs f [])
      = (Ok tt, st1) /\
    drain client user_id st1 = (Ok tt, st2) /\
    write_state_to_file (r_state st2) user_id = (Ok tt, state', f') /\
    st = mkRun state' (r_queue st2) (r_disk st2) f' (r_trace st2 ++ [Save f'])%list.
Proof.
  unfold run.
  destruct (read_state_from_file f) as [state|e|]; [|discriminate..].
  destruct (try_block client user_id _) as [r0 st0] eqn:Et.
  intros H. apply finally_save_Ok in H.
  destruct H as (-> & state1 & f1 & Hw & ->).
  apply try_block_Ok in Et. destruct Et as (last_id & state0 & st1 & Hge & Hg & Hs & Hd).
  exists state, last_id, state0, st1, st0, state1, f1. auto 10.
Qed.

(** ** Counting events *)

















(** ** Running again *)

Section Tracking.
Variables (chat0 : chat_state_t) (stream_ : list Message).
Hypothesis chat0_plain : forall key value, In (key, value) chat0 -> message value = None.

Local Abbreviation tracking := (tracks chat0 stream_).

Lemma tracks_start (seen : Message -> Prop) :
  (forall m, ~ seen m) -> tracking seen chat0.
Proof.
  intros Hnone. constructor.
  - intros m Hm. now apply Hnone in Hm.
  - exists []. split; [now rewrite List.app_nil_r | intros k []].
  - auto.
  - intros key item m Hget Hm. apply DictFacts.get_In in Hget.
    apply chat0_plain in Hget. congruence.
Qed.

(** Writing a record under the key of a message of the stream. *)
Lemma tracks_set seen chat m value :
  tracking seen chat -> In m stream_ ->
  (forall m', message value = Some m' -> In m' stream_) ->
  tracking (fun x => seen x \/ x = m) (Dict.set chat (key_of m) value).
Proof.
  intros [Hseen (news & Hkeys & Hnews) Hkept Hhandles] Hm Hvalue. constructor.
  - intros x [Hx| ->]; rewrite DictFacts.mem_set.
    + now rewrite (Hseen _ Hx).
    + unfold key_of. now rewrite String.eqb_refl, orb_true_r.
  - rewrite DictFacts.keys_set. destruct (Dict.mem chat (key_of m)).
    + exists news. auto.
    + exists (news ++ [key_of m])%list. split.
      * now rewrite Hkeys, List.app_assoc.
      * apply incl_app; [assumption|]. intros k [<-|[]].
        now apply (in_map key_of).
  - intros key v Hin Hout. apply DictFacts.In_set_other; [|auto].
    intros ->. apply Hout. now apply (in_map key_of).
  - intros key item m' Hget Hmsg.
    destruct (String.eqb_spec (key_of m) key) as [<-|Hne].
    + rewrite DictFacts.get_set_same in Hget. injection Hget as <-. auto.
    + rewrite DictFacts.get_set_other in Hget by assumption. eauto.
Qed.

Lemma tracks_weaken (seen seen' : Message -> Prop) chat :
  (forall m, seen' m -> seen m) -> tracking seen chat -> tracking seen' chat.
Proof.
  intros Himp [Hseen Hkeys Hkept Hhandles]. constructor; auto.
Qed.

(** Dropping the handles. *)
Lemma tracks_strip seen chat :
  tracking seen chat -> tracking seen (Dict.map_values del_message chat).
Proof.
  intros [Hseen Hkeys Hkept Hhandles]. constructor.
  - intros m Hm. rewrite DictFacts.mem_map_values. auto.
  - now rewrite DictFacts.keys_map_values.
  - intros key value Hin Hout.
    pose proof (chat0_plain _ _ Hin) as Hplain.
    specialize (Hkept _ _ Hin Hout).
    unfold Dict.map_values. apply in_map_iff. exists (key, value).
    split; [|assumption]. simpl. f_equal.
    destruct value as [h d msg]. simpl in *. now subst.
  - intros key item m Hget Hmsg. rewrite DictFacts.get_map_values in Hget.
    destruct (Dict.get chat key) as [v|]; [|discriminate].
    injection Hget as <-. discriminate.
Qed.

(** The recording loop, however it ends. *)
Lemma tracks_record_results fs seen :
  forall messages file_paths chat r chat' tr,
    record_results fs chat messages file_paths = (r, chat', tr) ->
    Forall (fun m => In m stream_) messages ->
    tracking seen chat -> tracking seen chat'.
Proof.
  induction messages as [|m rest IH]; simpl;
    intros file_paths chat r chat' tr H Hall Ht.
  - now injection H as _ <- _.
  - inversion Hall as [|? ? Hm Hrest]; subst.
    destruct file_paths as [|fp fps]; [now injection H as _ <- _|].
    destruct (confirmed fs fp).
    + destruct (Dict.get chat (str (id m))) as [item|] eqn:Eg;
        [|now injection H as _ <- _].
      destruct (record_results fs _ rest fps) as [[r1 cs1] tr1] eqn:Er.
      injection H as _ <- _.
      apply (IH _ _ _ _ _ Er Hrest).
      apply tracks_weaken with (seen := fun x => seen x \/ x = m); [auto|].
      apply tracks_set; [assumption..|].
      intros m' Hm'. simpl in Hm'. eapply t_handles; eassumption.
    + destruct (record_results fs chat rest fps) as [[r1 cs1] tr1] eqn:Er.
      injection H as _ <- _. eauto.
Qed.

(** The messages of a queue are messages of the stream. *)
Lemma tracks_queue seen chat download_queue messages :
  tracking seen chat ->
  queue_messages chat download_queue = Ok messages ->
  Forall (fun m => In m stream_) messages.
Proof.
  intros Ht Hq. apply queue_messages_Ok in Hq.
  induction Hq as [|k m q ms (item & Hget & Hmsg) _ IH]; constructor; [|assumption].
  eapply t_handles; eassumption.
Qed.

(** A batch, however it ends. *)
Lemma tracks_download_messages client seen download_queue chat fs r chat' fs' tr :
  download_messages client download_queue chat fs = (r, chat', fs', tr) ->
  tracking seen chat -> tracking seen chat'.
Proof.
  unfold download_messages. intros H Ht.
  destruct (queue_messages chat download_queue) as [messages|e|] eqn:Eq;
    [|now injection H as _ <- _ _..].
  destruct (download_tasks fs messages) as [tasks|e|];
    [|now injection H as _ <- _ _..].
  destruct (gather client fs tasks) as [[file_paths|e|] fs1];
    [|now injection H as _ <- _ _..].
  destruct (record_results fs1 chat messages file_paths) as [[r1 cs1] marks] eqn:Er.
  injection H as _ <- _ _.
  eapply tracks_record_results; [eassumption| |assumption].
  eapply tracks_queue; eassumption.
Qed.

(** Looking at one message of the stream. *)
Lemma tracks_examine seen chat download_queue m chat' download_queue' tr :
  examine chat download_queue m = Ok (chat', download_queue', tr) ->
  In m stream_ -> tracking seen chat ->
  tracking (fun x => seen x \/ x = m) chat'.
Proof.
  unfold examine. fold (key_of m). intros H Hm Ht.
  destruct (Dict.get chat (key_of m)) as [item|] eqn:Eg.
  - apply bind_Ok in H. destruct H as (nd & _ & H).
    destruct nd; injection H as <- _ _.
    + apply tracks_set; [assumption..|]. now intros m' [= <-].
    + destruct Ht as [Hseen Hkeys Hkept Hhandles]. constructor; auto.
      intros x [Hx| ->]; [auto|]. unfold Dict.mem. fold (key_of m). now rewrite Eg.
  - destruct (media m && has_file m); injection H as <- _ _;
      (apply tracks_set; [assumption..|]); simpl.
    + now intros m' [= <-].
    + discriminate.
Qed.
End Tracking.

(** *** The chat through a run *)

Lemma write_state_to_file_chat state user_id w state' f chat :
  write_state_to_file state user_id = (w, state', f) ->
  Dict.get state user_id = Some chat ->
  state' = Dict.set state user_id (Dict.map_values del_message chat) /\
  Dict.get state' user_id = Some (Dict.map_values del_message chat).
Proof.
  unfold write_state_to_file. intros H Hget. rewrite Hget in H.
  apply strip_and_dump_spec in H. destruct H as [-> _].
  split; [reflexivity|apply DictFacts.get_set_same].
Qed.

Lemma write_state_to_file_Ok state user_id state' f :
  write_state_to_file state user_id = (Ok tt, state', f) ->
  exists l, f = Json l /\ json_load l = state'.
Proof.
  unfold write_state_to_file. intros H.
  destruct (Dict.get state user_id); apply strip_and_dump_spec in H;
    destruct H as [_ [[_ H]|[H _]]]; (assumption || discriminate).
Qed.

Section TrackingRun.
Variables (client : client_t) (user_id : string).
Variables (chat0 : chat_state_t) (stream_ : list Message).
Hypothesis chat0_plain : forall key value, In (key, value) chat0 -> message value = None.

Lemma flush_if_full_on_track seen st st' :
  flush_if_full client user_id st = (Ok tt, st') ->
  on_track user_id chat0 stream_ seen st -> on_track user_id chat0 stream_ seen st'.
Proof.
  intros H (chat & Hget & Ht). apply flush_if_full_Ok in H.
  destruct H as [[_ ->]|(_ & cs & cs2 & fs2 & tr2 & state3 & f3 & Hget' & Hdm & Hw & ->)].
  - exists chat. auto.
  - rewrite Hget in Hget'. injection Hget' as <-.
    eapply write_state_to_file_chat in Hw; [|apply DictFacts.get_set_same].
    destruct Hw as [_ Hw]. exists (Dict.map_values del_message cs2).
    split; [exact Hw|]. apply tracks_strip; [assumption|].
    eapply tracks_download_messages; eassumption.
Qed.

Lemma step_on_track seen st m st' :
  step client user_id st m = (Ok tt, st') ->
  In m stream_ -> on_track user_id chat0 stream_ seen st ->
  on_track user_id chat0 stream_ (fun x => seen x \/ x = m) st'.
Proof.
  intros H Hm (chat & Hget & Ht). apply step_Ok in H.
  destruct H as (cs & cs1 & q1 & tr1 & Hget' & Hex & Hfl).
  rewrite Hget in Hget'. injection Hget' as <-.
  apply (flush_if_full_on_track _ _ _ Hfl).
  exists cs1. split; [apply DictFacts.get_set_same|].
  eapply tracks_examine; eassumption.
Qed.

Lemma stream_on_track messages : forall seen st st',
  stream client user_id messages st = (Ok tt, st') ->
  incl messages stream_ -> on_track user_id chat0 stream_ seen st ->
  on_track user_id chat0 stream_ (fun x => seen x \/ In x messages) st'.
Proof.
  induction messages as [|m rest IH]; simpl; intros seen st st' H Hincl Hst.
  - injection H as <-. destruct Hst as (chat & Hget & Ht).
    exists chat. split; [assumption|].
    eapply tracks_weaken; [|exact Ht]. now intros x [Hx|[]].
  - destruct (step client user_id st m) as [r1 st1] eqn:Es.
    destruct r1 as [[]|e|]; [|discriminate..].
    apply step_on_track with (seen := seen) in Es;
      [|apply Hincl; now left|assumption].
    apply (IH (fun x => seen x \/ x = m)) in H;
      [|intros x Hx; apply Hincl; now right|exact Es].
    destruct H as (chat & Hget & Ht). exists chat. split; [assumption|].
    eapply tracks_weaken; [|exact Ht]. simpl. intros x [Hx|[<-|Hx]]; auto.
Qed.

Lemma drain_on_track seen st st' :
  drain client user_id st = (Ok tt, st') ->
  on_track user_id chat0 stream_ seen st -> on_track user_id chat0 stream_ seen st'.
Proof.
  intros H (chat & Hget & Ht). apply drain_Ok in H.
  destruct H as (cs & cs2 & fs2 & tr2 & Hget' & Hdm & ->).
  rewrite Hget in Hget'. injection Hget' as <-.
  exists cs2. split; [apply DictFacts.get_set_same|].
  eapply tracks_download_messages; eassumption.
Qed.
End TrackingRun.

(** *** The resume cursor of the second run *)

Lemma scan_items_cases items : forall last_key z,
  scan_items items last_key = Ok z ->
  (exists before key value after,
      items = (before ++ (key, value) :: after)%list /\
      pending value /\ int (PyStr key) = Ok z) \/
  int (last_key_of items last_key) = Ok z.
Proof.
  induction items as [|[k v] items IH]; simpl; intros last_key z H.
  - now right.
  - destruct (not_downloaded v) as [[|]|e|] eqn:En; [| |discriminate..].
    + left. exists [], k, v, items.
      split; [reflexivity|]. split; [|assumption].
      unfold not_downloaded in En. unfold pending.
      destruct (has_media v); [|discriminate].
      destruct (downloaded v) as [[|]|]; try discriminate. auto.
    + apply IH in H.
      destruct H as [(before & key & value & after & -> & Hp & Hi)|H]; [|now right].
      left. exists ((k, v) :: before), key, value, after. auto.
Qed.

Lemma scan_items_settled items : forall last_key,
  Forall (fun kv => settled (snd kv)) items ->
  scan_items items last_key = int (last_key_of items last_key).
Proof.
  induction items as [|[k v] items IH]; simpl; intros last_key H; [reflexivity|].
  inversion H as [|? ? Hs Hr]; subst. simpl in Hs.
  rewrite (not_downloaded_settled _ Hs). auto.
Qed.

Lemma last_cons {A} (l : list A) : forall a d, last (a :: l) d = last l a.
Proof.
  induction l as [|b l IH]; intros a d; [reflexivity|].
  change (last (a :: b :: l) d) with (last (b :: l) d).
  now rewrite !IH.
Qed.

Lemma last_key_of_keys items : forall last_key,
  last_key_of items last_key = last (map PyStr (Dict.keys items)) last_key.
Proof.
  induction items as [|[k v] items IH]; intros last_key; [reflexivity|].
  simpl last_key_of. rewrite IH. unfold Dict.keys. simpl map.
  now rewrite last_cons.
Qed.

Lemma pending_not_settled value : pending value -> settled value -> False.
Proof. intros [Hm Hd] [H|H]; congruence. Qed.

(** *** A run that finds nothing to do *)

Lemma json_load_chat l user_id chat :
  Dict.get (json_load l) user_id = Some chat ->
  exists stored, Dict.get l user_id = Some stored /\
                 chat = Dict.map_values of_jrecord stored.
Proof.
  unfold json_load. rewrite DictFacts.get_map_values.
  destruct (Dict.get l user_id) as [stored|]; [|discriminate].
  intros [= <-]. eauto.
Qed.

Lemma json_load_plain l user_id chat key value :
  Dict.get (json_load l) user_id = Some chat ->
  In (key, value) chat -> message value = None.
Proof.
  intros H Hin. apply json_load_chat in H. destruct H as (stored & _ & ->).
  unfold Dict.map_values in Hin. apply in_map_iff in Hin.
  now destruct Hin as ([k j] & [= _ <-] & _).
Qed.

Lemma read_state_from_file_plain f state user_id chat key value :
  read_state_from_file f = Ok state ->
  Dict.get state user_id = Some chat ->
  In (key, value) chat -> message value = None.
Proof.
  destruct f as [|l|]; simpl; [|intros [= <-]; apply json_load_plain|discriminate].
  intros [= <-]. discriminate.
Qed.

Lemma idle_step client user_id st chat m item :
  Dict.get (r_state st) user_id = Some chat -> r_queue st = [] ->
  Dict.get chat (key_of m) = Some item -> settled item ->
  step client user_id st m = (Ok tt, st).
Proof.
  destruct st as [state q disk file tr]. simpl. intros Hget -> Hitem Hs.
  unfold step, examine. simpl. fold (key_of m).
  rewrite Hget, Hitem, (not_downloaded_settled _ Hs). simpl.
  unfold flush_if_full. simpl.
  now rewrite (DictFacts.set_same _ _ _ Hget), List.app_nil_r.
Qed.

Lemma idle_stream client user_id chat messages : forall st,
  Dict.get (r_state st) user_id = Some chat -> r_queue st = [] ->
  (forall m, In m messages ->
     exists item, Dict.get chat (key_of m) = Some item /\ settled item) ->
  stream client user_id messages st = (Ok tt, st).
Proof.
  induction messages as [|m rest IH]; simpl; intros st Hget Hq Hall; [reflexivity|].
  destruct (Hall m (or_introl eq_refl)) as (item & Hitem & Hs).
  rewrite (idle_step _ _ _ _ _ _ Hget Hq Hitem Hs). auto.
Qed.

Lemma finishing_nil order : finishing 0 order = [].
Proof.
  unfold finishing.
  assert (H : filter (fun i => (i <? 0)%nat) order = [])
    by (induction order; simpl; auto).
  now rewrite H.
Qed.

(** A batch without tasks: the join returns at once. *)
Lemma gather_nil client fs : gather client fs [] = (Ok [], fs).
Proof. unfold gather, run_tasks. simpl. now rewrite finishing_nil. Qed.

Lemma calls_nil client fs : calls client fs [] = [].
Proof. reflexivity. Qed.

Lemma idle_drain client user_id st chat :
  Dict.get (r_state st) user_id = Some chat -> r_queue st = [] ->
  drain client user_id st = (Ok tt, st).
Proof.
  destruct st as [state q disk file tr]. simpl. intros Hget ->.
  unfold drain. cbn [r_state r_queue r_disk r_file r_trace]. rewrite Hget.
  unfold download_messages. cbn [queue_messages download_tasks].
  rewrite gather_nil, calls_nil. cbn [record_results].
  now rewrite (DictFacts.set_same _ _ _ Hget), List.app_nil_r.
Qed.

Lemma idle_save l user_id chat :
  Dict.get (json_load l) user_id = Some chat ->
  write_state_to_file (json_load l) user_id = (Ok tt, json_load l, Json l).
Proof.
  intros Hget. unfold write_state_to_file, strip_and_dump. rewrite Hget.
  rewrite DictFacts.map_values_id.
  - now rewrite (DictFacts.set_same _ _ _ Hget), json_load_dump.
  - intros k v Hin. pose proof (json_load_plain _ _ _ _ _ Hget Hin) as Hm.
    destruct v as [h d msg]. simpl in *. now subst.
Qed.

Lemma get_last_id_Ok state user_id last_id state0 :
  get_last_id state user_id = (Ok last_id, state0) ->
  exists chat0,
    Dict.get state0 user_id = Some chat0 /\
    scan_items chat0 (PyInt 0) = Ok last_id /\
    (Dict.get state user_id = Some chat0 \/ chat0 = []).
Proof.
  unfold get_last_id. destruct (Dict.get state user_id) as [chat|] eqn:Eg.
  - intros [= Hs <-]. exists chat. auto.
  - intros [= <- <-]. exists []. rewrite DictFacts.get_set_same. auto.
Qed.

Lemma iter_messages_In client min_id m :
  In m (iter_messages client min_id) <->
  In m (history client) /\ (min_id < id m)%Z.
Proof.
  unfold iter_messages. rewrite filter_In. now rewrite Z.ltb_lt.
Qed.

(** C3, as the code has it.  When a run has come to its end and the
    ledger it leaves marks every media record of the chat downloaded,
    a second run on the disk and the ledger the first one left, with
    the same chat history, enqueues nothing, issues no download, leaves
    the disk as it is and writes the ledger once, at the end, as the
    very ledger it read. *)
Theorem second_run_is_idle :
  forall client user_id fs f st,
    run client user_id fs f = (Ok tt, st) ->
    (forall l chat key value,
        r_file st = Json l -> Dict.get l user_id = Some chat ->
        In (key, value) chat -> j_has_media value = true ->
        j_downloaded value = Some true) ->
    run client user_id (r_disk st) (r_file st)
      = (Ok tt, mkRun (r_state st) [] (r_disk st) (r_file st) [Save (r_file st)]).
Proof.
  intros client user_id fs f st Hrun Hdone.
  apply run_Ok in Hrun.
  destruct Hrun as (state & last_id & state0 & st1 & st2 & state' & f' &
                    Hread & Hent & Hlast & Hstream & Hdrain & Hwrite & ->).
  cbn [r_state r_disk r_file r_queue] in *.
  destruct (write_state_to_file_Ok _ _ _ _ Hwrite) as (l & -> & <-).
  (* the chat the first run started from *)
  destruct (get_last_id_Ok _ _ _ _ Hlast) as (chat0 & Hget0 & Hscan & Hchat0).
  assert (Hplain : forall key value, In (key, value) chat0 -> message value = None).
  { destruct Hchat0 as [Hc| ->]; [|intros ? ? []].
    intros k v. eapply read_state_from_file_plain; eassumption. }
  (* the chat the first run left *)
  assert (Htrack : on_track user_id chat0 (iter_messages client last_id)
                     (fun x => False \/ In x (iter_messages client last_id)) st1).
  { eapply stream_on_track; [assumption|exact Hstream|apply incl_refl|].
    exists chat0. split; [exact Hget0|]. apply tracks_start; [assumption|tauto]. }
  apply (drain_on_track _ _ _ _ _ _ _ Hdrain) in Htrack.
  destruct Htrack as (chat2 & Hget2 & Ht2).
  destruct (write_state_to_file_chat _ _ _ _ _ _ Hwrite Hget2) as [_ HgetF].
  pose proof (tracks_strip _ _ Hplain _ _ Ht2) as HtF.
  remember (Dict.map_values del_message chat2) as chatF eqn:EchatF.
  clear EchatF Ht2 Hget2 Hwrite Hdrain Hstream.
  assert (HsettledF : Forall (fun kv => settled (snd kv)) chatF).
  { pose proof HgetF as Hst. apply json_load_chat in Hst.
    destruct Hst as (stored & Hst & ->).
    apply Forall_forall. intros [k v] Hin.
    unfold Dict.map_values in Hin. apply in_map_iff in Hin.
    destruct Hin as ([k' j] & [= <- <-] & Hin). unfold settled. simpl.
    destruct (j_has_media j) eqn:Em; [right|now left].
    eapply Hdone; eauto. }
  (* the first run met no pending record *)
  assert (Hlast0 : int (last_key_of chat0 (PyInt 0)) = Ok last_id).
  { destruct (scan_items_cases _ _ _ Hscan)
      as [(before & k & v & after & Heq & Hp & Hint)|H]; [|assumption].
    exfalso.
    assert (Hout : ~ In k (map (fun m => str (id m)) (iter_messages client last_id))).
    { intros Hin. apply in_map_iff in Hin. destruct Hin as (m & <- & Hm).
      apply iter_messages_In in Hm. destruct Hm as [_ Hlt].
      rewrite int_str in Hint. injection Hint as Hint. lia. }
    assert (Hin0 : In (k, v) chat0) by (rewrite Heq; apply in_elt).
    pose proof (t_kept _ _ _ _ HtF _ _ Hin0 Hout) as HinF.
    rewrite Forall_forall in HsettledF.
    exact (pending_not_settled v Hp (HsettledF _ HinF)). }
  (* the cursor of the second run is not before that of the first *)
  assert (Hlast2 : exists last2,
             scan_items chatF (PyInt 0) = Ok last2 /\ (last_id <= last2)%Z).
  { rewrite (scan_items_settled _ _ HsettledF), last_key_of_keys.
    destruct (t_keys _ _ _ _ HtF) as (news & Hkeys & Hnews). rewrite Hkeys.
    destruct news as [|a news] using rev_ind.
    - rewrite List.app_nil_r, <- last_key_of_keys. exists last_id. split; [assumption|lia].
    - rewrite List.app_assoc, map_app. simpl map. rewrite last_last.
      assert (Ha : In a (map (fun m => str (id m)) (iter_messages client last_id))).
      { apply Hnews. apply in_or_app. right. now left. }
      apply in_map_iff in Ha. destruct Ha as (m & <- & Hm).
      apply iter_messages_In in Hm. destruct Hm as [_ Hlt].
      exists (id m). split; [apply int_str|lia]. }
  destruct Hlast2 as (last2 & Hscan2 & Hle).
  (* the second run *)
  unfold run. cbn [read_state_from_file].
  unfold try_block. cbn [r_state r_queue r_disk r_file r_trace].
  rewrite Hent. unfold get_last_id. rewrite HgetF, Hscan2.
  rewrite (idle_stream client user_id chatF); [|exact HgetF|reflexivity|].
  2:{ intros m Hm. apply iter_messages_In in Hm. destruct Hm as [Hm Hlt].
      assert (Hin : In m (iter_messages client last_id))
        by (apply iter_messages_In; split; [assumption|lia]).
      pose proof (t_seen _ _ _ _ HtF m (or_intror Hin)) as Hmem.
      unfold Dict.mem in Hmem. fold (key_of m) in Hmem.
      destruct (Dict.get chatF (key_of m)) as [item|] eqn:Eg; [|discriminate].
      exists item. split; [reflexivity|].
      rewrite Forall_forall in HsettledF.
      exact (HsettledF _ (DictFacts.get_In _ _ _ Eg)). }
  rewrite (idle_drain client user_id _ chatF); [|exact HgetF|reflexivity].
  unfold finally_save. cbn [r_state r_queue r_disk r_file r_trace].
  now rewrite (idle_save _ _ _ HgetF).
Qed.

Lemma second_run_is_idle_witness :
  let client := chat_with [text 1; photo 2; photo 3] download_ok in
  let st := snd (run client "bob" [] NoFile) in
  run client "bob" (r_disk st) (r_file st)
    = (Ok tt, mkRun (r_state st) [] (r_disk st) (r_file st) [Save (r_file st)]).
Proof.
  intros client st.
  assert (E : run client "bob" [] NoFile = (Ok tt, st)) by (vm_compute; reflexivity).
  apply (second_run_is_idle _ _ _ _ _ E).
  intros l chat key value Hl Hc Hin Hm.
  vm_compute in Hl. injection Hl as <-.
  vm_compute in Hc. injection Hc as <-.
  destruct Hin as [[= <- <-]|[[= <- <-]|[[= <- <-]|[]]]];
    (reflexivity || discriminate).
Defined.

(** C3 does not hold as stated.  Two photos, and downloads that return
    nothing: the first run leaves both records not downloaded.  Run
    again on what it left, with the same history, the program issues a
    download for the second photo; and when downloads work again that
    second run writes a file and a ledger that differs from the one it
    read. *)
Lemma second_run_downloads_what_failed :
  let failing := chat_with [photo 1; photo 2] download_none in
  let working := chat_with [photo 1; photo 2] download_ok in
  let st1 := snd (run failing "bob" [] NoFile) in
  let st2 := snd (run failing "bob" (r_disk st1) (r_file st1)) in
  let st3 := snd (run working "bob" (r_disk st1) (r_file st1)) in
  fst (run failing "bob" [] NoFile) = Ok tt /\
  history failing = history working /\
  count is_call (r_trace st2) = 1 /\
  count is_call (r_trace st3) = 1 /\
  r_disk st1 = [] /\
  r_disk st3 = ["media/images/2 - 20240309-1200.jpg"] /\
  r_file st3 <> r_file st1.
Proof.
  vm_compute. repeat split. discriminate.
Qed.

(** ** Resuming *)

(** The message whose id is the resume id is not delivered. *)
Lemma resume_id_not_delivered client last_id m :
  In m (iter_messages client last_id) -> id m <> last_id.
Proof.
  intros H. apply iter_messages_In in H. lia.
Qed.

(** C1.  A ledger that marks the first of three photos downloaded and
    the other two not: the resume id is 2, the id of the first photo
    still to be downloaded; the history iteration starts after it and
    delivers the third photo alone.  The run downloads the third photo
    and not the second, whose record is still marked not downloaded
    when the run ends; a further run finds the same resume id and does
    not download it either. *)
Theorem resume_skips_first_pending :
  let client := chat_with (photos 3) download_ok in
  let disk := ["media/images/1 - 20240309-1200.jpg"] in
  let st := snd (run client "bob" disk (Json resume_ledger)) in
  let st' := snd (run client "bob" (r_disk st) (r_file st)) in
  get_last_id (json_load resume_ledger) "bob"
    = (Ok 2%Z, json_load resume_ledger) /\
  iter_messages client 2 = [photo 3] /\
  fst (run client "bob" disk (Json resume_ledger)) = Ok tt /\
  filter is_call (r_trace st)
    = [Call (photo 3) "media/images/3 - 20240309-1200.jpg"
            (Ok (Some "media/images/3 - 20240309-1200.jpg"))] /\
  r_file st = Json [("bob", [("1", mkJ true (Some true));
                             ("2", mkJ true (Some false));
                             ("3", mkJ true (Some true))])] /\
  filter is_call (r_trace st') = [] /\
  r_file st' = r_file st.
Proof.
  vm_compute. repeat split.
Qed.

(** ** What a snapshot holds *)



Section Reflecting.
Variable chat0 : chat_state_t.









End Reflecting.



Section ReflectingRun.
Variables (client : client_t) (user_id : string) (chat0 : chat_state_t).






End ReflectingRun.







(** * Further properties of the code *)

(** ** The path resolver, by itself *)

(** X1.  [get_file_path] always comes to an end, on any disk that
    answers [is_file()]: for a message without file it raises
    [AttributeError], for a file that has a name and no extension it
    raises [TypeError], and for any other message it returns a path
    that is not a file on that disk. *)
Theorem get_file_path_returns_a_free_path :
  forall fs message,
    match path_error message with
    | Some e => get_file_path fs message = Raise e
    | None =>
        exists path, get_file_path fs message = Ok path /\
                     is_file fs path = false
    end.
Proof.
  intros fs message. unfold path_error.
  destruct (file message) as [f|] eqn:Ef.
  - assert (Hok : (exists file_name, base_name message f = Ok file_name) ->
                  exists path, get_file_path fs message = Ok path /\
                               is_file fs path = false).
    { intros (file_name & Hb).
      destruct (get_file_path fs message) as [path|e|] eqn:E.
      - exists path. split; [reflexivity|]. eapply get_file_path_fresh; eassumption.
      - apply get_file_path_Raise in E.
        destruct E as [[E _]|(f' & E & Hn & He & _)]; [congruence|].
        assert (f' = f) by congruence. subst f'.
        unfold base_name in Hb. rewrite He in Hb.
        destruct (name f); [discriminate|now destruct Hn].
      - now apply get_file_path_finishes in E. }
    destruct (name f) as [file_name|] eqn:En; [destruct (ext f) as [e|] eqn:Ee|].
    + apply Hok. unfold base_name. rewrite En, Ee. eauto.
    + unfold get_file_path, base_name. now rewrite Ef, En, Ee.
    + apply Hok. unfold base_name. rewrite En. eauto.
  - unfold get_file_path. now rewrite Ef.
Qed.

Lemma candidate_inj media_type file_name ext a b :
  candidate media_type file_name ext a = candidate media_type file_name ext b ->
  a = b.
Proof.
  assert (Hplain : forall n, Path media_type (file_name ++ ext)
                             <> numbered media_type file_name n ext).
  { intros n H. unfold numbered, Path in H. do 4 apply append_inj_l in H.
    apply (f_equal String.length) in H. rewrite !length_append in H.
    simpl in H. lia. }
  destruct a as [|a], b as [|b]; simpl; intros H.
  - reflexivity.
  - now apply Hplain in H.
  - symmetry in H. now apply Hplain in H.
  - now apply numbered_inj in H.
Qed.

(** The path returned is the first free one of the names tried. *)
Lemma get_file_path_candidate fs message f file_name :
  file message = Some f ->
  base_name message f = Ok file_name ->
  let media_type := media_type_of (mime_type f) in
  let e := format_ (ext f) in
  exists n,
    get_file_path fs message = Ok (candidate media_type file_name e n) /\
    is_file fs (candidate media_type file_name e n) = false /\
    forall j, j < n -> is_file fs (candidate media_type file_name e j) = true.
Proof.
  intros Hf Hb media_type e.
  destruct (get_file_path_first_free fs message f file_name Hf Hb) as [Hplain Hbusy].
  fold media_type e in Hplain, Hbusy.
  destruct (is_file fs (Path media_type (file_name ++ e))) eqn:E.
  - destruct (Hbusy eq_refl) as (k & Hk & Hget & Hfree & Hall).
    exists k. destruct k as [|k]; [lia|]. simpl. repeat split; try assumption.
    intros [|j] Hj; simpl; [assumption|]. apply Hall. lia.
  - exists 0. simpl. repeat split; auto. intros j Hj. lia.
Qed.

(** X2.  For a message whose file name is plain text, the path returned
    is the first free one of the names tried: the plain name when it is
    free, otherwise the name with the least number from 1 up that is
    free; every name before it in that order is a file on disk. *)
Theorem get_file_path_first_free_name :
  forall fs message f file_name,
    file message = Some f ->
    base_name message f = Ok file_name ->
    plain_names message ->
    exists n,
      get_file_path fs message
        = Ok (candidate (media_type_of (mime_type f)) file_name (format_ (ext f)) n) /\
      is_file fs (candidate (media_type_of (mime_type f)) file_name (format_ (ext f)) n)
        = false /\
      forall j, j < n ->
        is_file fs (candidate (media_type_of (mime_type f)) file_name (format_ (ext f)) j)
          = true.
Proof.
  intros fs message f file_name Hf Hb _.
  now apply get_file_path_candidate.
Qed.

Lemma report_b_plain : plain_names report_b.
Proof.
  eexists. split; [reflexivity|]. split; [now intros file_name [= <-]|].
  split; [reflexivity|]. split; [intros base [= <-]; split; discriminate|].
  unfold plain_date. cbn [date report_a report_b document noon year month day hour minute].
  split; [reflexivity|lia].
Qed.

Lemma get_file_path_first_free_name_witness :
  exists n,
    get_file_path ["media/other/report - 1.pdf"; "media/other/report.pdf"] report_b
      = Ok (candidate "other" "report" ".pdf" n) /\
    is_file ["media/other/report - 1.pdf"; "media/other/report.pdf"]
            (candidate "other" "report" ".pdf" n) = false.
Proof.
  destruct (get_file_path_first_free_name
              ["media/other/report - 1.pdf"; "media/other/report.pdf"]
              report_b _ "report" eq_refl eq_refl report_b_plain)
    as (n & Hget & Hfree & _).
  exists n. split; [exact Hget | exact Hfree].
Defined.

Lemma arrivals_from media_type file_name e messages : forall fs k,
  Forall (same_name media_type file_name e) messages ->
  (forall n, In (candidate media_type file_name e n) fs <-> n < k) ->
  arrivals fs messages
    = map (fun n => Ok (candidate media_type file_name e n))
          (seq k (List.length messages)).
Proof.
  induction messages as [|m rest IH]; intros fs k Hall Hdisk; [reflexivity|].
  inversion Hall as [|? ? (f & Hf & Hm & Hb & He) Hrest]; subst.
  assert (Hget : get_file_path fs m
                 = Ok (candidate (media_type_of (mime_type f)) file_name
                                 (format_ (ext f)) k)).
  { destruct k as [|k].
    - simpl. apply (proj1 (get_file_path_first_free fs m f file_name Hf Hb)).
      destruct (is_file fs _) eqn:E; [|reflexivity].
      apply is_file_In in E. apply (Hdisk 0) in E. lia.
    - simpl. apply get_file_path_next_number; [assumption|assumption| | |].
      + apply (Hdisk 0). lia.
      + intros j Hj. destruct j as [|j]; [lia|]. apply (Hdisk (S j)). lia.
      + intros Hin. apply (Hdisk (S k)) in Hin. lia. }
  simpl. rewrite Hget. f_equal. apply IH; [assumption|].
  intros n. simpl. split.
  - intros [H|H]; [apply candidate_inj in H; lia | apply Hdisk in H; lia].
  - intros Hn. destruct (Nat.eq_dec n k) as [->|Hne]; [now left|].
    right. apply Hdisk. lia.
Qed.

(** X3.  Messages with plain-text file names that resolve to the same
    folder, base name and extension, resolved one after the other on a
    disk that holds none of their names, each file being written before
    the next message is resolved: the first gets the plain name, the
    second the name with [" - 1"], the third [" - 2"], and so on. *)
Theorem arrivals_are_numbered_in_order :
  forall fs media_type file_name e messages,
    Forall (same_name media_type file_name e) messages ->
    Forall plain_names messages ->
    (forall n, ~ In (candidate media_type file_name e n) fs) ->
    arrivals fs messages
      = map (fun n => Ok (candidate media_type file_name e n))
            (seq 0 (List.length messages)).
Proof.
  intros fs media_type file_name e messages Hall _ Hfree.
  apply arrivals_from; [assumption|].
  intros n. split; [intros H; now apply Hfree in H | lia].
Qed.

Lemma report_a_plain : plain_names report_a.
Proof.
  eexists. split; [reflexivity|]. split; [now intros file_name [= <-]|].
  split; [reflexivity|]. split; [intros base [= <-]; split; discriminate|].
  unfold plain_date. cbn [date report_a report_b document noon year month day hour minute].
  split; [reflexivity|lia].
Qed.

Lemma arrivals_are_numbered_in_order_witness :
  arrivals [] [report_a; report_b; report_a]
    = [Ok "media/other/report.pdf"; Ok "media/other/report - 1.pdf";
       Ok "media/other/report - 2.pdf"].
Proof.
  apply (arrivals_are_numbered_in_order [] "other" "report" ".pdf"
           [report_a; report_b; report_a]).
  - repeat constructor;
      exists (mkFile (Some "report.pdf") (Some ".pdf") "application/pdf");
      repeat split.
  - repeat constructor; (apply report_a_plain || apply report_b_plain).
  - intros n [].
Defined.

Lemma string_of_uint_no_blank d : has_blank (NilEmpty.string_of_uint d) = false.
Proof. induction d; simpl; auto. Qed.

Lemma str_no_blank z : has_blank (str z) = false.
Proof.
  unfold str. destruct (Z.to_int z) as [d|d]; simpl.
  - destruct d; simpl; auto using string_of_uint_no_blank.
  - destruct d; simpl; auto using string_of_uint_no_blank.
Qed.

Lemma cut_at_blank a : forall b x y,
  has_blank a = false -> has_blank b = false ->
  a ++ String " " x = b ++ String " " y -> a = b.
Proof.
  induction a as [|c a IH]; intros [|c' b] x y Ha Hb H; simpl in *.
  - reflexivity.
  - injection H as <- _. discriminate.
  - injection H as -> _. discriminate.
  - injection H as -> H. apply orb_false_iff in Ha, Hb.
    f_equal. eapply IH; [tauto|tauto|eassumption].
Qed.

Lemma append_assoc (a b c : string) : (a ++ b) ++ c = a ++ b ++ c.
Proof. induction a; simpl; congruence. Qed.

(** Every name tried for a message without file name starts with the
    message id followed by a blank. *)
Lemma candidate_of_unnamed media_type message f e n :
  name f = None ->
  exists base rest,
    base_name message f = Ok base /\
    candidate media_type base e n
      = "media/" ++ media_type ++ "/" ++ str (id message) ++ String " " rest.
Proof.
  intros Hn. unfold base_name. rewrite Hn.
  destruct n as [|n]; unfold candidate, numbered, Path; do 2 eexists;
    (split; [reflexivity|]); rewrite !append_assoc; reflexivity.
Qed.

Lemma path_of_unnamed fs message f path :
  file message = Some f -> name f = None ->
  get_file_path fs message = Ok path ->
  exists rest,
    path = "media/" ++ media_type_of (mime_type f) ++ "/"
             ++ str (id message) ++ String " " rest.
Proof.
  intros Hf Hn Hget.
  assert (Hb : base_name message f
               = Ok (str (id message) ++ " - " ++ strftime (date message)))
    by (unfold base_name; now rewrite Hn).
  destruct (get_file_path_candidate fs message f _ Hf Hb) as (n & Hpath & _).
  rewrite Hget in Hpath. injection Hpath as ->.
  destruct (candidate_of_unnamed (media_type_of (mime_type f)) message f
              (format_ (ext f)) n Hn) as (base & rest & Hb' & Hc).
  rewrite Hb in Hb'. injection Hb' as <-. eauto.
Qed.

(** X5.  Two messages without file name that are given the same path,
    on whatever disks, have the same id: the made-up name starts with
    the id, so a medium without file name is never sent to the path of
    another message's medium. *)
Theorem unnamed_media_never_share_a_path :
  forall fs_a fs_b a b f_a f_b path,
    file a = Some f_a -> file b = Some f_b ->
    name f_a = None -> name f_b = None ->
    get_file_path fs_a a = Ok path -> get_file_path fs_b b = Ok path ->
    id a = id b.
Proof.
  intros fs_a fs_b a b f_a f_b path Hfa Hfb Hna Hnb Ha Hb.
  destruct (path_of_unnamed _ _ _ _ Hfa Hna Ha) as (ra & Hpa).
  destruct (path_of_unnamed _ _ _ _ Hfb Hnb Hb) as (rb & Hpb).
  rewrite Hpa in Hpb. clear - Hpb.
  apply str_inj.
  unfold media_type_of in Hpb.
  destruct (contains "image" (mime_type f_a)), (contains "video" (mime_type f_a)),
           (contains "image" (mime_type f_b)), (contains "video" (mime_type f_b));
    simpl in Hpb; try discriminate;
    repeat (injection Hpb as Hpb);
    (eapply cut_at_blank; [apply str_no_blank|apply str_no_blank|exact Hpb]).
Qed.

Lemma unnamed_media_never_share_a_path_witness :
  id (photo 7)
    = id (mkMessage 7 false (Some (mkFile None (Some ".jpg") "image/jpeg")) noon).
Proof.
  exact (unnamed_media_never_share_a_path [] []
           (photo 7)
           (mkMessage 7 false (Some (mkFile None (Some ".jpg") "image/jpeg")) noon)
           _ _ "media/images/7 - 20240309-1200.jpg"
           eq_refl eq_refl eq_refl eq_refl eq_refl eq_refl).
Defined.

(** ** The ledger file, by itself *)

Lemma save_new_chat l user_id :
  Dict.get l user_id = None ->
  write_state_to_file (json_load l) user_id =
    (Ok tt, json_load (l ++ [(user_id, Dict.empty)])%list,
     Json (l ++ [(user_id, Dict.empty)])%list).
Proof.
  intros E.
  assert (Hnone : Dict.get (json_load l) user_id = None)
    by (unfold json_load; now rewrite DictFacts.get_map_values, E).
  assert (Hstate :
            Dict.set (Dict.set (json_load l) user_id Dict.empty) user_id
                     (Dict.map_values del_message Dict.empty)
            = json_load (l ++ [(user_id, Dict.empty)])%list).
  { rewrite DictFacts.set_set, (DictFacts.set_absent _ _ _ Hnone).
    unfold json_load, Dict.map_values. now rewrite map_app. }
  unfold write_state_to_file, strip_and_dump.
  now rewrite Hnone, Hstate, json_load_dump.
Qed.

(** X6.  For a ledger of the shape the program writes (chats by id,
    records by message id, in a record the two flags), saving the state
    as it was loaded never fails and writes the ledger back as it was
    read, with the chat of the save added at the end, empty, when the
    file did not have it; the state left in memory is the one a load of
    the new file gives. *)
Theorem save_after_load :
  forall l user_id,
    write_state_to_file (json_load l) user_id =
      let l' := if Dict.mem l user_id then l
                else (l ++ [(user_id, Dict.empty)])%list in
      (Ok tt, json_load l', Json l').
Proof.
  intros l user_id. unfold Dict.mem.
  destruct (Dict.get l user_id) as [stored|] eqn:E; cbv zeta.
  - apply idle_save with (chat := Dict.map_values of_jrecord stored).
    unfold json_load. now rewrite DictFacts.get_map_values, E.
  - now apply save_new_chat.
Qed.

Lemma del_message_twice (chat : chat_state_t) :
  Dict.map_values del_message (Dict.map_values del_message chat)
  = Dict.map_values del_message chat.
Proof.
  unfold Dict.map_values. rewrite map_map. reflexivity.
Qed.

Lemma strip_and_dump_again state user_id chat :
  strip_and_dump (Dict.set state user_id (Dict.map_values del_message chat))
                 user_id (Dict.map_values del_message chat)
  = strip_and_dump state user_id chat.
Proof.
  unfold strip_and_dump. now rewrite del_message_twice, DictFacts.set_set.
Qed.

(** X7.  Saving twice is saving once: a second [write_state_to_file]
    on the state the first one left comes to the same outcome, leaves
    that state as it is and writes the same file. *)
Theorem write_state_to_file_twice :
  forall state user_id,
    let '(w, state', f) := write_state_to_file state user_id in
    write_state_to_file state' user_id = (w, state', f).
Proof.
  intros state user_id. unfold write_state_to_file.
  destruct (Dict.get state user_id) as [chat|] eqn:Eg.
  - destruct (strip_and_dump state user_id chat) as [[w state'] f] eqn:Es.
    assert (Hs : state' = Dict.set state user_id (Dict.map_values del_message chat)).
    { unfold strip_and_dump in Es. destruct (json_dump _); now injection Es as _ <- _. }
    rewrite Hs, DictFacts.get_set_same, strip_and_dump_again, <- Hs. exact Es.
  - destruct (strip_and_dump _ user_id Dict.empty) as [[w state'] f] eqn:Es.
    assert (Hs : state' = Dict.set (Dict.set state user_id Dict.empty) user_id
                            (Dict.map_values del_message Dict.empty)).
    { unfold strip_and_dump in Es. destruct (json_dump _); now injection Es as _ <- _. }
    rewrite Hs, DictFacts.get_set_same, strip_and_dump_again, <- Hs. exact Es.
Qed.

(** ** The resume cursor, when it fails *)





(** ** A batch, however it ends *)

Lemma batch_step_refl chat : batch_step chat chat.
Proof.
  split; [reflexivity|]. intros key. destruct (Dict.get chat key) as [v|]; [|reflexivity].
  exists v. unfold marked_or_same. auto.
Qed.

Lemma batch_step_trans chat1 chat2 chat3 :
  batch_step chat1 chat2 -> batch_step chat2 chat3 -> batch_step chat1 chat3.
Proof.
  intros [Hk12 H12] [Hk23 H23]. split; [congruence|].
  intros key. specialize (H12 key). specialize (H23 key).
  destruct (Dict.get chat1 key) as [v1|].
  - destruct H12 as (v2 & Hg2 & Hm2 & Hmsg2 & Hd2). rewrite Hg2 in H23.
    destruct H23 as (v3 & Hg3 & Hm3 & Hmsg3 & Hd3).
    exists v3. split; [assumption|]. unfold marked_or_same.
    repeat split; try congruence.
    destruct Hd3 as [Hd3|Hd3]; [|now right].
    destruct Hd2 as [Hd2|Hd2]; [left|right]; congruence.
  - now rewrite H12 in H23.
Qed.

Lemma batch_step_mark chat key item :
  Dict.get chat key = Some item ->
  batch_step chat (Dict.set chat key (set_downloaded item)).
Proof.
  intros Hget. split.
  - rewrite DictFacts.keys_set. unfold Dict.mem. now rewrite Hget.
  - intros k. destruct (String.eqb_spec key k) as [<-|Hne].
    + rewrite Hget, DictFacts.get_set_same. eexists. split; [reflexivity|].
      unfold marked_or_same. simpl. auto.
    + rewrite DictFacts.get_set_other by assumption.
      destruct (Dict.get chat k) as [v|]; [|reflexivity].
      exists v. unfold marked_or_same. auto.
Qed.

Lemma record_results_batch_step fs :
  forall messages file_paths chat r chat' tr,
    record_results fs chat messages file_paths = (r, chat', tr) ->
    batch_step chat chat'.
Proof.
  induction messages as [|m rest IH]; simpl; intros file_paths chat r chat' tr H.
  - injection H as _ <- _. apply batch_step_refl.
  - destruct file_paths as [|fp fps]; [injection H as _ <- _; apply batch_step_refl|].
    destruct (confirmed fs fp).
    + destruct (Dict.get chat (str (id m))) as [item|] eqn:Eg;
        [|injection H as _ <- _; apply batch_step_refl].
      destruct (record_results fs _ rest fps) as [[r1 cs1] tr1] eqn:Er.
      injection H as _ <- _.
      eapply batch_step_trans; [apply batch_step_mark; eassumption|eauto].
    + destruct (record_results fs chat rest fps) as [[r1 cs1] tr1] eqn:Er.
      injection H as _ <- _. eauto.
Qed.

Lemma download_messages_batch_step
  client download_queue chat_state fs r chat_state' fs' tr :
  download_messages client download_queue chat_state fs
    = (r, chat_state', fs', tr) ->
  batch_step chat_state chat_state'.
Proof.
  unfold download_messages.
  destruct (queue_messages chat_state download_queue) as [messages|e|];
    [|intros [= _ <- _ _]; apply batch_step_refl..].
  destruct (download_tasks fs messages) as [tasks|e|];
    [|intros [= _ <- _ _]; apply batch_step_refl..].
  destruct (gather client fs tasks) as [[file_paths|e|] fs1];
    [|intros [= _ <- _ _]; apply batch_step_refl..].
  destruct (record_results fs1 chat_state messages file_paths) as [[r1 cs1] marks] eqn:Er.
  intros [= _ <- _ _]. eapply record_results_batch_step; eassumption.
Qed.

(** X9.  Whatever a batch comes to, also when a download or the
    recording loop raises, [download_messages] leaves the chat with the
    same keys in the same order, and in every record nothing but
    [downloaded] can have changed, and that only to true: no record is
    added, removed or unmarked by a batch. *)
Theorem download_messages_only_marks :
  forall client download_queue chat_state fs r chat_state' fs' tr,
    download_messages client download_queue chat_state fs
      = (r, chat_state', fs', tr) ->
    batch_step chat_state chat_state'.
Proof.
  intros client download_queue chat_state fs r chat_state' fs' tr.
  apply download_messages_batch_step.
Qed.

Lemma download_messages_only_marks_witness :
  batch_step sample_chat
    (snd (fst (fst (download_messages
                      (chat_with [photo 1; photo 2; text 3] (download_only 1))
                      ["1"; "2"] sample_chat [])))).
Proof.
  eapply download_messages_only_marks.
  rewrite <- !surjective_pairing. reflexivity.
Defined.

Lemma get_file_path_error fs m e :
  path_error m = Some e -> get_file_path fs m = Raise e.
Proof.
  unfold path_error, get_file_path, base_name.
  destruct (file m) as [f|]; [|now intros [= <-]].
  destruct (name f) as [file_name|]; [|discriminate].
  destruct (ext f) as [x|]; [discriminate|]. now intros [= <-].
Qed.

Lemma get_file_path_Raise_error fs m e :
  get_file_path fs m = Raise e -> path_error m = Some e.
Proof.
  intros H. apply get_file_path_Raise in H. unfold path_error.
  destruct H as [[-> ->]|(f & -> & Hn & -> & ->)]; [reflexivity|].
  now destruct (name f).
Qed.

Lemma get_file_path_no_error fs m :
  path_error m = None -> exists path, get_file_path fs m = Ok path.
Proof.
  intros H. destruct (get_file_path fs m) as [path|e|] eqn:E; [eauto| |].
  - apply get_file_path_Raise_error in E. congruence.
  - now apply get_file_path_finishes in E.
Qed.

(** The list of tasks is given up at the first message that cannot be
    given a path. *)
Lemma download_tasks_first_error fs before m after e :
  Forall (fun m' => path_error m' = None) before ->
  path_error m = Some e ->
  download_tasks fs (before ++ m :: after) = Raise e.
Proof.
  intros Hb Hm. induction Hb as [|m' before Hm' _ IH]; simpl.
  - now rewrite (get_file_path_error fs m e Hm).
  - destruct (get_file_path_no_error fs m' Hm') as (path & ->). simpl.
    now rewrite IH.
Qed.

(** X10.  A batch in which a queued message cannot be given a path (it
    has no file: the run re-attaches a message to a pending record
    without looking at its file; or its file has a name and no
    extension) is given up before any download is issued: the call
    raises the exception of the first such message of the queue,
    [AttributeError] or [TypeError], and the chat and the disk are as
    they were, also for the messages of the batch that can be given a
    path. *)
Theorem batch_with_missing_file_downloads_nothing :
  forall client download_queue chat_state fs before m after e,
    queue_messages chat_state download_queue = Ok (before ++ m :: after)%list ->
    Forall (fun m' => path_error m' = None) before ->
    path_error m = Some e ->
    download_messages client download_queue chat_state fs
      = (Raise e, chat_state, fs, []).
Proof.
  intros client download_queue chat_state fs before m after e Hq Hb Hm.
  unfold download_messages. rewrite Hq.
  now rewrite (download_tasks_first_error fs before m after e Hb Hm).
Qed.

Lemma batch_with_missing_file_downloads_nothing_witness :
  let notes := mkMessage 2 true (Some (mkFile (Some "notes") None "text/plain")) noon in
  let chat : chat_state_t :=
    [("1", mkItem true (Some false) (Some (photo 1)));
     ("2", mkItem true (Some false) (Some notes));
     ("3", mkItem true (Some false) (Some (text 3)))] in
  download_messages (chat_with [photo 1; notes; text 3] download_ok)
                    ["1"; "2"; "3"] chat []
    = (Raise TypeError, chat, [], []).
Proof.
  intros notes chat.
  apply (batch_with_missing_file_downloads_nothing _ _ _ _ [photo 1] notes [text 3]).
  - reflexivity.
  - repeat constructor.
  - reflexivity.
Defined.

(** ** A run, however it ends *)





Lemma get_last_id_anchored state user_id r state' :
  get_last_id state user_id = (r, state') ->
  state' = Dict.set state user_id (chat_of state user_id).
Proof.
  unfold get_last_id, chat_of.
  destruct (Dict.get state user_id) as [chat|] eqn:E; intros [= _ <-];
    [|reflexivity].
  symmetry. now apply DictFacts.set_same.
Qed.

Section RunPaths.
Variables (client : client_t) (user_id : string) (state0 : state_t).
Variable P : chat_state_t -> Prop.
Hypothesis P_start : P (chat_of state0 user_id).
Hypothesis P_examine : forall c q m c' q' tr,
  P c -> examine c q m = Ok (c', q', tr) -> P c'.
Hypothesis P_batch : forall q c fs r c' fs' tr,
  P c -> download_messages client q c fs = (r, c', fs', tr) -> P c'.
Hypothesis P_strip : forall c, P c -> P (Dict.map_values del_message c).

Local Abbreviation anchor := (anchored P user_id state0).

Lemma anchored_write state chat w state' f :
  state = Dict.set state0 user_id chat ->
  write_state_to_file state user_id = (w, state', f) ->
  state' = Dict.set state0 user_id (Dict.map_values del_message chat).
Proof.
  intros -> H.
  apply write_state_to_file_chat with (chat := chat) in H;
    [|apply DictFacts.get_set_same].
  destruct H as [-> _]. apply DictFacts.set_set.
Qed.

Lemma flush_if_full_anchored st r st' :
  anchor st -> flush_if_full client user_id st = (r, st') -> anchor st'.
Proof.
  intros (chat & Hs & HP). unfold flush_if_full.
  destruct (20 <=? List.length (r_queue st))%nat;
    [|intros [= _ <-]; exists chat; auto].
  rewrite Hs, DictFacts.get_set_same.
  destruct (download_messages client (r_queue st) chat (r_disk st))
    as [[[r1 cs] fs] tr] eqn:Ed.
  cbv zeta. rewrite DictFacts.set_set.
  pose proof (P_batch _ _ _ _ _ _ _ HP Ed) as Hb.
  destruct r1 as [[]|e|].
  - destruct (write_state_to_file (Dict.set state0 user_id cs) user_id)
      as [[w s] f] eqn:Ew.
    apply (anchored_write _ cs) in Ew; [|reflexivity]. subst s.
    destruct w as [[]|e|]; intros [= _ <-];
      (exists (Dict.map_values del_message cs); split; [reflexivity|auto]).
  - intros [= _ <-]. exists cs. split; [reflexivity|auto].
  - intros [= _ <-]. exists cs. split; [reflexivity|auto].
Qed.

Lemma step_anchored st m r st' :
  anchor st -> step client user_id st m = (r, st') -> anchor st'.
Proof.
  intros (chat & Hs & HP). unfold step.
  destruct (Dict.get (r_state st) user_id) as [chat'|] eqn:Eg;
    [|intros [= _ <-]; exists chat; auto].
  assert (chat' = chat)
    by (rewrite Hs, DictFacts.get_set_same in Eg; congruence).
  subst chat'.
  destruct (examine chat (r_queue st) m) as [[[cs q] tr]|e|] eqn:Ee;
    [|intros [= _ <-]; exists chat; auto..].
  apply flush_if_full_anchored. exists cs. cbn [r_state].
  rewrite Hs, DictFacts.set_set. split; [reflexivity|eauto].
Qed.

Lemma stream_anchored messages : forall st r st',
  anchor st -> stream client user_id messages st = (r, st') -> anchor st'.
Proof.
  induction messages as [|m rest IH]; simpl; intros st r st' Hst.
  - now intros [= _ <-].
  - destruct (step client user_id st m) as [r1 st1] eqn:Es.
    pose proof (step_anchored _ _ _ _ Hst Es) as H1.
    destruct r1 as [[]|e|]; [apply IH; assumption|now intros [= _ <-]..].
Qed.

Lemma drain_anchored st r st' :
  anchor st -> drain client user_id st = (r, st') -> anchor st'.
Proof.
  intros (chat & Hs & HP). unfold drain.
  rewrite Hs, DictFacts.get_set_same.
  destruct (download_messages client (r_queue st) chat (r_disk st))
    as [[[r1 cs] fs] tr] eqn:Ed.
  rewrite DictFacts.set_set.
  intros [= _ <-]. exists cs. split; [reflexivity|eauto].
Qed.

Lemma try_block_anchored st r st' :
  r_state st = state0 ->
  try_block client user_id st = (r, st') ->
  r_state st' = state0 \/ anchor st'.
Proof.
  intros Hs. unfold try_block.
  destruct (get_entity client user_id) as [[]|e|];
    [|intros [= _ <-]; now left..].
  destruct (get_last_id (r_state st) user_id) as [r1 state1] eqn:Eg.
  apply get_last_id_anchored in Eg. rewrite Hs in Eg.
  assert (H1 : forall q d f tr, anchor (mkRun state1 q d f tr))
    by (intros; exists (chat_of state0 user_id); auto).
  destruct r1 as [last_id|e|]; [|intros [= _ <-]; right; apply H1..].
  destruct (stream client user_id _ _) as [r2 st2] eqn:Est.
  apply stream_anchored in Est; [|apply H1].
  destruct r2 as [[]|e|]; [|intros [= _ <-]; now right..].
  intros Hd. right. eapply drain_anchored; eassumption.
Qed.

Lemma finally_save_anchored r st r' st' :
  r_state st = state0 \/ anchor st ->
  finally_save user_id r st = (r', st') -> anchor st'.
Proof.
  intros Hst. unfold finally_save.
  destruct (write_state_to_file (r_state st) user_id) as [[w s] f] eqn:Ew.
  intros [= _ <-].
  destruct Hst as [Hs|(chat & Hs & HP)].
  - rewrite Hs in Ew. unfold write_state_to_file in Ew.
    pose proof P_start as H0. unfold chat_of in H0.
    destruct (Dict.get state0 user_id) as [chat|] eqn:Eg.
    + apply strip_and_dump_spec in Ew. destruct Ew as [-> _].
      exists (Dict.map_values del_message chat). cbn [r_state]. auto.
    + apply strip_and_dump_spec in Ew. destruct Ew as [-> _].
      exists (Dict.map_values del_message Dict.empty). cbn [r_state].
      rewrite DictFacts.set_set. auto.
  - apply (anchored_write _ chat) in Ew; [|assumption]. subst s.
    exists (Dict.map_values del_message chat). cbn [r_state]. eauto.
Qed.

Lemma run_anchored fs f r st :
  read_state_from_file f = Ok state0 ->
  run client user_id fs f = (r, st) -> anchor st.
Proof.
  intros Hread. unfold run. rewrite Hread.
  destruct (try_block client user_id (mkRun state0 [] fs f [])) as [r1 st1] eqn:Et.
  apply try_block_anchored in Et; [|reflexivity].
  now apply finally_save_anchored.
Qed.

End RunPaths.

Lemma evolves_refl chat : evolves chat chat.
Proof.
  split; [exists []; now rewrite List.app_nil_r|]. intros key v H. eauto.
Qed.

Lemma evolves_trans chat1 chat2 chat3 :
  evolves chat1 chat2 -> evolves chat2 chat3 -> evolves chat1 chat3.
Proof.
  intros [[a1 Hk1] H12] [[a2 Hk2] H23]. split.
  - exists (a1 ++ a2)%list. now rewrite Hk2, Hk1, List.app_assoc.
  - intros key v1 Hg1.
    destruct (H12 _ _ Hg1) as (v2 & Hg2 & Hm2 & Hd2).
    destruct (H23 _ _ Hg2) as (v3 & Hg3 & Hm3 & Hd3).
    exists v3. split; [assumption|]. split; [congruence|].
    destruct Hd3 as [Hd3|Hd3]; [|now right].
    destruct Hd2 as [Hd2|Hd2]; [left|right]; congruence.
Qed.

Lemma evolves_set_new chat key item :
  Dict.get chat key = None -> evolves chat (Dict.set chat key item).
Proof.
  intros Hnone. split.
  - exists [key]. rewrite DictFacts.keys_set. unfold Dict.mem. now rewrite Hnone.
  - intros k v Hk. exists v.
    rewrite DictFacts.get_set_other by (intros ->; congruence). auto.
Qed.

Lemma evolves_set_old chat key item item' :
  Dict.get chat key = Some item ->
  has_media item' = has_media item ->
  downloaded item' = downloaded item \/ downloaded item' = Some true ->
  evolves chat (Dict.set chat key item').
Proof.
  intros Hget Hm Hd. split.
  - exists []. rewrite DictFacts.keys_set, List.app_nil_r. unfold Dict.mem.
    now rewrite Hget.
  - intros k v Hk. destruct (String.eqb_spec key k) as [<-|Hne].
    + rewrite DictFacts.get_set_same. exists item'.
      assert (v = item) by congruence. subst v. auto.
    + rewrite DictFacts.get_set_other by assumption. eauto.
Qed.

Lemma evolves_examine chat q m chat' q' tr :
  examine chat q m = Ok (chat', q', tr) -> evolves chat chat'.
Proof.
  unfold examine.
  destruct (Dict.get chat (str (id m))) as [item|] eqn:Eg.
  - intros H. apply bind_Ok in H. destruct H as ([|] & _ & [= <- _ _]).
    + eapply evolves_set_old; [eassumption|reflexivity|now left].
    + apply evolves_refl.
  - destruct (media m && has_file m); intros [= <- _ _];
      now apply evolves_set_new.
Qed.

Lemma evolves_batch_step chat chat' : batch_step chat chat' -> evolves chat chat'.
Proof.
  intros [Hk H]. split; [exists []; now rewrite List.app_nil_r|].
  intros key v Hg. specialize (H key). rewrite Hg in H.
  destruct H as (v' & Hg' & Hm & _ & Hd). eauto.
Qed.

Lemma evolves_batch client q chat fs r chat' fs' tr :
  download_messages client q chat fs = (r, chat', fs', tr) -> evolves chat chat'.
Proof.
  intros H. apply evolves_batch_step. eapply download_messages_batch_step, H.
Qed.

Lemma evolves_strip chat : evolves chat (Dict.map_values del_message chat).
Proof.
  split.
  - exists []. now rewrite DictFacts.keys_map_values, List.app_nil_r.
  - intros key v Hg. rewrite DictFacts.get_map_values, Hg. simpl. eauto.
Qed.

(** X11.  Whatever a run comes to (also when Telegram, a download or
    the ledger lookup raises), the state it leaves holds the chats of
    other users as they were read, and in the chat of its user nothing
    was lost: keys were only added after those read, every record read
    is still there with the same [has_media], and its [downloaded] is
    what it was or has become true. *)
Theorem run_never_loses_records :
  forall client user_id fs f state0 r st,
    read_state_from_file f = Ok state0 ->
    run client user_id fs f = (r, st) ->
    evolves (chat_of state0 user_id) (chat_of (r_state st) user_id) /\
    forall other, other <> user_id ->
      Dict.get (r_state st) other = Dict.get state0 other.
Proof.
  intros client user_id fs f state0 r st Hread Hrun.
  destruct (run_anchored client user_id state0 (evolves (chat_of state0 user_id)))
    with (fs := fs) (f := f) (r := r) (st := st) as (chat & Hs & He);
    try assumption.
  - apply evolves_refl.
  - intros c q m c' q' tr Hc Hex.
    eapply evolves_trans; [exact Hc|eapply evolves_examine, Hex].
  - intros q c fs0 r0 c' fs' tr Hc Hd.
    eapply evolves_trans; [exact Hc|eapply evolves_batch, Hd].
  - intros c Hc. eapply evolves_trans; [exact Hc|apply evolves_strip].
  - rewrite Hs. split.
    + unfold chat_of at 2. now rewrite DictFacts.get_set_same.
    + intros other Hne. apply DictFacts.get_set_other. congruence.
Qed.

Lemma run_never_loses_records_witness :
  let st := snd (run (chat_with [photo 1; text 2; photo 3] (download_raising_at 3))
                     "bob" [] (Json resume_ledger)) in
  evolves (chat_of (json_load resume_ledger) "bob") (chat_of (r_state st) "bob") /\
  forall other, other <> "bob" ->
    Dict.get (r_state st) other = Dict.get (json_load resume_ledger) other.
Proof.
  intros st.
  apply (run_never_loses_records
           (chat_with [photo 1; text 2; photo 3] (download_raising_at 3))
           "bob" [] (Json resume_ledger) (json_load resume_ledger)
           (fst (run (chat_with [photo 1; text 2; photo 3] (download_raising_at 3))
                     "bob" [] (Json resume_ledger))) st).
  - reflexivity.
  - subst st. now rewrite <- surjective_pairing.
Defined.



(** ** What a run downloads *)

Lemma calls_In client fs tasks m path outcome :
  In (Call m path outcome) (calls client fs tasks) -> In m (map fst tasks).
Proof.
  unfold calls. intros H. apply in_map_iff in H.
  destruct H as ([[m' p'] r'] & [= -> _ _] & Hin).
  apply in_combine_l in Hin. change m with (fst (m, p')). now apply in_map.
Qed.

Lemma queue_messages_In chat download_queue : forall messages m,
  queue_messages chat download_queue = Ok messages -> In m messages ->
  exists key item,
    In key download_queue /\ Dict.get chat key = Some item /\
    message item = Some m.
Proof.
  intros messages m H. apply queue_messages_Ok in H.
  induction H as [|key m' q ms (item & Hg & Hm) _ IH]; [intros []|].
  intros [<-|Hin].
  - exists key, item. split; [now left|auto].
  - destruct (IH Hin) as (k & it & Hk & Hit). exists k, it. split; [now right|auto].
Qed.

Lemma no_call_in_marks tr m path outcome :
  Forall (fun e => is_mark e = true) tr -> ~ In (Call m path outcome) tr.
Proof.
  intros H Hin. rewrite Forall_forall in H. now apply H in Hin.
Qed.

(** The downloads of a batch are for the handles of queued records. *)
Lemma download_messages_calls client q chat fs r chat' fs' tr m path outcome :
  download_messages client q chat fs = (r, chat', fs', tr) ->
  In (Call m path outcome) tr ->
  exists key item,
    In key q /\ Dict.get chat key = Some item /\ message item = Some m.
Proof.
  unfold download_messages.
  destruct (queue_messages chat q) as [messages|e|] eqn:Eq;
    [|intros [= _ _ _ <-] []..].
  destruct (download_tasks fs messages) as [tasks|e|] eqn:Et;
    [|intros [= _ _ _ <-] []..].
  apply download_tasks_Ok in Et. destruct Et as [Hfst _].
  assert (Hcalls : In (Call m path outcome) (calls client fs tasks) ->
                   exists key item, In key q /\ Dict.get chat key = Some item /\
                                    message item = Some m).
  { intros Hin. apply calls_In in Hin. rewrite Hfst in Hin.
    eapply queue_messages_In; eassumption. }
  destruct (gather client fs tasks) as [[file_paths|e|] fs1];
    [|intros [= _ _ _ <-]; exact Hcalls..].
  destruct (record_results fs1 chat messages file_paths) as [[r1 cs1] marks] eqn:Er.
  intros [= _ _ _ <-] Hin. apply in_app_or in Hin. destruct Hin as [Hin|Hin]; [auto|].
  apply record_results_marks in Er. now apply no_call_in_marks in Hin.
Qed.

Lemma handles_set client chat key item :
  handles client chat ->
  (forall m, message item = Some m -> key_of m = key /\ In m (history client)) ->
  handles client (Dict.set chat key item).
Proof.
  intros H Hitem k it m Hg Hm. destruct (String.eqb_spec key k) as [<-|Hne].
  - rewrite DictFacts.get_set_same in Hg. injection Hg as <-. auto.
  - rewrite DictFacts.get_set_other in Hg by assumption. eauto.
Qed.

Lemma handles_batch_step client chat chat' :
  batch_step chat chat' -> handles client chat -> handles client chat'.
Proof.
  intros [_ Hb] H key item' m Hg' Hm'. specialize (Hb key).
  destruct (Dict.get chat key) as [item|] eqn:Hg; [|congruence].
  destruct Hb as (v' & Hv' & _ & Hmsg & _).
  assert (v' = item') by congruence. subst v'.
  apply (H key item m Hg). congruence.
Qed.

Lemma handles_strip client chat :
  handles client (Dict.map_values del_message chat).
Proof.
  intros key item m Hg Hm. rewrite DictFacts.get_map_values in Hg.
  destruct (Dict.get chat key); simpl in Hg; [|discriminate].
  injection Hg as <-. discriminate.
Qed.

Lemma handles_plain client chat :
  (forall key value, In (key, value) chat -> message value = None) ->
  handles client chat.
Proof.
  intros H key item m Hg Hm. apply DictFacts.get_In in Hg.
  apply H in Hg. congruence.
Qed.

Lemma not_downloaded_true value : not_downloaded value = Ok true -> pending value.
Proof.
  unfold not_downloaded, pending. destruct (has_media value); [|discriminate].
  destruct (downloaded value) as [[|]|]; try discriminate. auto.
Qed.

Lemma pending_unsettled chat0 chat key item :
  evolves chat0 chat -> Dict.get chat key = Some item -> pending item ->
  unsettled_in chat0 key.
Proof.
  intros [_ He] Hg [Hm Hd] v0 Hv0 Hs.
  destruct (He _ _ Hv0) as (v' & Hv' & Hm' & Hd').
  assert (v' = item) by congruence. subst v'.
  destruct Hs as [Hs|Hs]; [congruence|].
  destruct Hd'; congruence.
Qed.

Lemma absent_unsettled chat0 chat key :
  evolves chat0 chat -> Dict.get chat key = None -> unsettled_in chat0 key.
Proof.
  intros [_ He] Hg v0 Hv0 _. destruct (He _ _ Hv0) as (v' & Hv' & _). congruence.
Qed.

Section Careful.
Variables (client : client_t) (user_id : string) (chat0 : chat_state_t).

Lemma examine_careful chat q m chat' q' tr :
  evolves chat0 chat -> handles client chat ->
  (forall key, In key q -> unsettled_in chat0 key) ->
  In m (history client) ->
  examine chat q m = Ok (chat', q', tr) ->
  handles client chat' /\
  (forall key, In key q' -> unsettled_in chat0 key) /\
  (forall m' path outcome, ~ In (Call m' path outcome) tr).
Proof.
  intros He Hh Hq Hm. unfold examine. fold (key_of m).
  assert (Hq' : forall item, Dict.get chat (key_of m) = Some item -> pending item ->
                  forall key, In key (q ++ [key_of m])%list -> unsettled_in chat0 key).
  { intros item Hg Hp key Hin. apply in_app_or in Hin.
    destruct Hin as [Hin|[<-|[]]]; [auto|]. eapply pending_unsettled; eassumption. }
  destruct (Dict.get chat (key_of m)) as [item|] eqn:Eg.
  - intros H. apply bind_Ok in H. destruct H as ([|] & Hp & [= <- <- <-]).
    + apply not_downloaded_true in Hp. split; [|split].
      * apply handles_set; [assumption|]. simpl. now intros m' [= <-].
      * eauto.
      * intros m' p o [|[]]; discriminate.
    + split; [assumption|]. split; [assumption|]. now intros m' p o [].
  - destruct (media m && has_file m); intros [= <- <- <-].
    + split; [|split].
      * apply handles_set; [assumption|]. simpl. now intros m' [= <-].
      * intros key Hin. apply in_app_or in Hin.
        destruct Hin as [Hin|[<-|[]]]; [auto|]. eapply absent_unsettled; eassumption.
      * intros m' p o [|[]]; discriminate.
    + split; [|split].
      * apply handles_set; [assumption|]. simpl. discriminate.
      * assumption.
      * now intros m' p o [].
Qed.

Lemma calls_due_app tr tr' :
  calls_due client chat0 tr -> calls_due client chat0 tr' ->
  calls_due client chat0 (tr ++ tr')%list.
Proof.
  intros H H' m p o Hin. apply in_app_or in Hin. destruct Hin; eauto.
Qed.

Lemma calls_due_save f : calls_due client chat0 [Save f].
Proof. intros m p o [|[]]; discriminate. Qed.

Lemma calls_due_batch q chat fs r chat' fs' tr :
  handles client chat ->
  (forall key, In key q -> unsettled_in chat0 key) ->
  download_messages client q chat fs = (r, chat', fs', tr) ->
  calls_due client chat0 tr.
Proof.
  intros Hh Hq Hd m p o Hin.
  destruct (download_messages_calls _ _ _ _ _ _ _ _ _ _ _ Hd Hin)
    as (key & item & Hk & Hg & Hm).
  destruct (Hh _ _ _ Hg Hm) as [<- Hhist]. auto.
Qed.

Lemma flush_if_full_careful st r st' :
  careful client user_id chat0 st ->
  flush_if_full client user_id st = (r, st') ->
  careful client user_id chat0 st'.
Proof.
  intros Hst. pose proof Hst as (Hc & chat & Hg & He & Hh & Hq).
  unfold flush_if_full.
  destruct (20 <=? List.length (r_queue st))%nat; [|now intros [= _ <-]].
  rewrite Hg.
  destruct (download_messages client (r_queue st) chat (r_disk st))
    as [[[r1 cs] fs] tr] eqn:Ed.
  cbv zeta.
  pose proof (calls_due_batch _ _ _ _ _ _ _ Hh Hq Ed) as Hc'.
  pose proof (download_messages_batch_step _ _ _ _ _ _ _ _ Ed) as Hb.
  assert (He' : evolves chat0 cs)
    by (eapply evolves_trans; [eassumption|now apply evolves_batch_step]).
  assert (Hh' : handles client cs) by (eapply handles_batch_step; eassumption).
  assert (Hkeep : forall f' tr',
            calls_due client chat0 tr' ->
            careful client user_id chat0
              (mkRun (Dict.set (r_state st) user_id cs) (r_queue st) fs f' tr')).
  { intros f' tr' Htr'. split; [assumption|]. exists cs. cbn [r_state r_queue].
    rewrite DictFacts.get_set_same. auto. }
  destruct r1 as [[]|e|];
    [|intros [= _ <-]; apply Hkeep; now apply calls_due_app..].
  destruct (write_state_to_file (Dict.set (r_state st) user_id cs) user_id)
    as [[w s] f] eqn:Ew.
  apply write_state_to_file_chat with (chat := cs) in Ew;
    [|apply DictFacts.get_set_same].
  destruct Ew as [_ Hgs].
  assert (Hsaved : forall q',
            (forall key, In key q' -> unsettled_in chat0 key) ->
            careful client user_id chat0
              (mkRun s q' fs f (r_trace st ++ tr ++ [Save f])%list)).
  { intros q' Hq'. split.
    - cbn [r_trace]. apply calls_due_app; [assumption|].
      apply calls_due_app; [assumption|apply calls_due_save].
    - exists (Dict.map_values del_message cs). cbn [r_state r_queue].
      split; [assumption|]. split; [|split; [apply handles_strip|assumption]].
      eapply evolves_trans; [eassumption|apply evolves_strip]. }
  destruct w as [[]|e|]; intros [= _ <-]; apply Hsaved; [now intros key []|auto..].
Qed.

Lemma step_careful st m r st' :
  careful client user_id chat0 st -> In m (history client) ->
  step client user_id st m = (r, st') ->
  careful client user_id chat0 st'.
Proof.
  intros Hst Hm. pose proof Hst as (Hc & chat & Hg & He & Hh & Hq).
  unfold step. rewrite Hg.
  destruct (examine chat (r_queue st) m) as [[[cs q] tr]|e|] eqn:Ee;
    [|now intros [= _ <-]..].
  destruct (examine_careful _ _ _ _ _ _ He Hh Hq Hm Ee) as (Hh' & Hq' & Hno).
  apply flush_if_full_careful. split.
  - cbn [r_trace]. apply calls_due_app; [assumption|].
    intros m' p o Hin. now apply Hno in Hin.
  - exists cs. cbn [r_state r_queue]. rewrite DictFacts.get_set_same.
    split; [reflexivity|]. split; [|auto].
    eapply evolves_trans; [eassumption|eapply evolves_examine; eassumption].
Qed.

Lemma stream_careful messages : forall st r st',
  careful client user_id chat0 st ->
  Forall (fun m => In m (history client)) messages ->
  stream client user_id messages st = (r, st') ->
  careful client user_id chat0 st'.
Proof.
  induction messages as [|m rest IH]; simpl; intros st r st' Hst Hall.
  - now intros [= _ <-].
  - inversion Hall as [|? ? Hm Hrest]; subst.
    destruct (step client user_id st m) as [r1 st1] eqn:Es.
    pose proof (step_careful _ _ _ _ Hst Hm Es) as H1.
    destruct r1 as [[]|e|]; [now apply IH|now intros [= _ <-]..].
Qed.

Lemma drain_calls_due st r st' :
  careful client user_id chat0 st ->
  drain client user_id st = (r, st') ->
  calls_due client chat0 (r_trace st').
Proof.
  intros (Hc & chat & Hg & He & Hh & Hq). unfold drain. rewrite Hg.
  destruct (download_messages client (r_queue st) chat (r_disk st))
    as [[[r1 cs] fs] tr] eqn:Ed.
  intros [= _ <-]. cbn [r_trace]. apply calls_due_app; [assumption|].
  eapply calls_due_batch; eassumption.
Qed.

End Careful.

Lemma try_block_calls_due client user_id st r st' :
  r_trace st = [] -> r_queue st = [] ->
  (forall chat, Dict.get (r_state st) user_id = Some chat -> handles client chat) ->
  try_block client user_id st = (r, st') ->
  calls_due client (chat_of (r_state st) user_id) (r_trace st').
Proof.
  intros Htr Hq Hplain. unfold try_block.
  assert (Hnil : calls_due client (chat_of (r_state st) user_id) [])
    by (now intros m p o []).
  destruct (get_entity client user_id) as [[]|e|];
    [|intros [= _ <-]; now rewrite Htr..].
  destruct (get_last_id (r_state st) user_id) as [r1 state1] eqn:Eg.
  apply get_last_id_anchored in Eg.
  assert (H1 : careful client user_id (chat_of (r_state st) user_id)
                 (mkRun state1 (r_queue st) (r_disk st) (r_file st) (r_trace st))).
  { split; [cbn [r_trace]; now rewrite Htr|].
    exists (chat_of (r_state st) user_id). cbn [r_state r_queue].
    rewrite Eg, DictFacts.get_set_same. split; [reflexivity|].
    split; [apply evolves_refl|]. split; [|rewrite Hq; now intros key []].
    unfold chat_of. destruct (Dict.get (r_state st) user_id) as [chat|] eqn:E;
      [now apply Hplain|]. now intros key item m [=]. }
  destruct r1 as [last_id|e|]; [|intros [= _ <-]; cbn [r_trace]; now rewrite Htr..].
  destruct (stream client user_id _ _) as [r2 st2] eqn:Est.
  apply (stream_careful _ _ _ _ _ _ _ H1) in Est;
    [|apply Forall_forall; intros m Hm; now apply iter_messages_In in Hm].
  destruct r2 as [[]|e|]; [|intros [= _ <-]; apply Est..].
  intros Hd. eapply drain_calls_due; eassumption.
Qed.

(** X13.  Whatever a run comes to, every download it issued was for a
    message of the chat's history whose record in the ledger it read was
    not settled: the run never downloads again what the ledger marks
    downloaded, nor what it marks as without media. *)
Theorem run_downloads_only_what_is_due :
  forall client user_id fs f state0 r st m path outcome,
    read_state_from_file f = Ok state0 ->
    run client user_id fs f = (r, st) ->
    In (Call m path outcome) (r_trace st) ->
    In m (history client) /\
    forall v0, Dict.get (chat_of state0 user_id) (key_of m) = Some v0 ->
               ~ settled v0.
Proof.
  intros client user_id fs f state0 r st m path outcome Hread.
  unfold run. rewrite Hread.
  destruct (try_block client user_id (mkRun state0 [] fs f [])) as [r1 st1] eqn:Et.
  apply try_block_calls_due in Et; try reflexivity.
  - unfold finally_save.
    destruct (write_state_to_file (r_state st1) user_id) as [[w s] f'].
    intros [= _ <-] Hin. cbn [r_trace] in Hin. apply in_app_or in Hin.
    destruct Hin as [Hin|[Hin|[]]]; [|discriminate].
    apply Et in Hin. exact Hin.
  - cbn [r_state]. intros chat Hg. apply handles_plain.
    intros key value. eapply read_state_from_file_plain; eassumption.
Qed.

Lemma run_downloads_only_what_is_due_witness :
  let client := chat_with (photos 3) download_ok in
  let st := snd (run client "bob" [] (Json resume_ledger)) in
  In (photo 3) (history client) /\
  forall v0, Dict.get (chat_of (json_load resume_ledger) "bob") (key_of (photo 3)) = Some v0 ->
             ~ settled v0.
Proof.
  intros client st.
  apply (run_downloads_only_what_is_due client "bob" [] (Json resume_ledger)
           (json_load resume_ledger) (fst (run client "bob" [] (Json resume_ledger)))
           st (photo 3) "media/images/3 - 20240309-1200.jpg" (Ok (Some "media/images/3 - 20240309-1200.jpg"))).
  - reflexivity.
  - subst st. now rewrite <- surjective_pairing.
  - vm_compute. tauto.
Defined.

(** ** How a run can fail *)

Lemma In_set_inv {V} (d : Dict.t V) key x k v :
  In (k, v) (Dict.set d key x) -> (k = key /\ v = x) \/ In (k, v) d.
Proof.
  induction d as [|[k' v'] d IH]; simpl.
  - intros [[= <- <-]|[]]. auto.
  - destruct (String.eqb k' key).
    + intros [[= <- <-]|H]; auto.
    + intros [H|H]; [auto|]. destruct (IH H); auto.
Qed.

Lemma well_formed_set chat key x :
  well_formed chat ->
  is_ok (int (PyStr key)) = true ->
  (has_media x = true -> downloaded x <> None) ->
  well_formed (Dict.set chat key x).
Proof.
  intros H Hk Hx k v Hin. apply In_set_inv in Hin.
  destruct Hin as [[-> ->]|Hin]; auto.
Qed.

Lemma well_formed_get chat key item :
  well_formed chat -> Dict.get chat key = Some item ->
  is_ok (int (PyStr key)) = true /\
  (has_media item = true -> downloaded item <> None).
Proof.
  intros H Hg. apply DictFacts.get_In in Hg. now apply H.
Qed.

Lemma well_formed_strip chat :
  well_formed chat -> well_formed (Dict.map_values del_message chat).
Proof.
  intros H k v Hin. unfold Dict.map_values in Hin. apply in_map_iff in Hin.
  destruct Hin as ([k' v'] & [= <- <-] & Hin). now apply H in Hin.
Qed.

Lemma well_formed_examine chat q m chat' q' tr :
  well_formed chat -> examine chat q m = Ok (chat', q', tr) -> well_formed chat'.
Proof.
  intros H. unfold examine.
  assert (Hk : is_ok (int (PyStr (str (id m)))) = true) by now rewrite int_str.
  destruct (Dict.get chat (str (id m))) as [item|] eqn:Eg.
  - intros Hb. apply bind_Ok in Hb. destruct Hb as ([|] & Hp & [= <- _ _]);
      [|assumption].
    apply well_formed_set; [assumption..|]. simpl.
    now apply (well_formed_get _ _ _ H Eg).
  - destruct (media m && has_file m); intros [= <- _ _];
      (apply well_formed_set; [assumption..|simpl; congruence]).
Qed.

Lemma well_formed_record_results fs :
  forall messages file_paths chat r chat' tr,
    well_formed chat ->
    record_results fs chat messages file_paths = (r, chat', tr) ->
    well_formed chat'.
Proof.
  induction messages as [|m rest IH]; simpl; intros file_paths chat r chat' tr Hw H.
  - now injection H as _ <- _.
  - destruct file_paths as [|fp fps]; [now injection H as _ <- _|].
    destruct (confirmed fs fp).
    + destruct (Dict.get chat (str (id m))) as [item|] eqn:Eg;
        [|now injection H as _ <- _].
      destruct (record_results fs _ rest fps) as [[r1 cs1] tr1] eqn:Er.
      injection H as _ <- _. eapply IH; [|eassumption].
      apply well_formed_set; [assumption| |simpl; congruence].
      now apply (well_formed_get _ _ _ Hw Eg).
    + destruct (record_results fs chat rest fps) as [[r1 cs1] tr1] eqn:Er.
      injection H as _ <- _. eauto.
Qed.

Lemma well_formed_batch client q chat fs r chat' fs' tr :
  well_formed chat ->
  download_messages client q chat fs = (r, chat', fs', tr) -> well_formed chat'.
Proof.
  intros Hw. unfold download_messages.
  destruct (queue_messages chat q) as [messages|e|];
    [|now intros [= _ <- _ _]..].
  destruct (download_tasks fs messages) as [tasks|e|];
    [|now intros [= _ <- _ _]..].
  destruct (gather client fs tasks) as [[file_paths|e|] fs1];
    [|now intros [= _ <- _ _]..].
  destruct (record_results fs1 chat messages file_paths) as [[r1 cs1] marks] eqn:Er.
  intros [= _ <- _ _]. eapply well_formed_record_results; eassumption.
Qed.

(** X15.  A run keeps the chat of its user readable: when every key of
    the chat it read is a numeral and every record with media says
    whether it was downloaded, the same holds of the chat the run
    leaves, whatever the run came to. *)
Theorem run_keeps_the_chat_well_formed :
  forall client user_id fs f state0 r st,
    read_state_from_file f = Ok state0 ->
    well_formed (chat_of state0 user_id) ->
    run client user_id fs f = (r, st) ->
    well_formed (chat_of (r_state st) user_id).
Proof.
  intros client user_id fs f state0 r st Hread Hw Hrun.
  destruct (run_anchored client user_id state0 well_formed)
    with (fs := fs) (f := f) (r := r) (st := st) as (chat & Hs & Hc);
    try assumption.
  - intros c q m c' q' tr. apply well_formed_examine.
  - intros q c fs0 r0 c' fs' tr. apply well_formed_batch.
  - apply well_formed_strip.
  - unfold chat_of. now rewrite Hs, DictFacts.get_set_same.
Qed.

Lemma run_keeps_the_chat_well_formed_witness :
  well_formed
    (chat_of (r_state (snd (run (chat_with (photos 3) (download_raising_at 3))
                                "bob" [] (Json resume_ledger)))) "bob").
Proof.
  apply (run_keeps_the_chat_well_formed
           (chat_with (photos 3) (download_raising_at 3)) "bob" []
           (Json resume_ledger) (json_load resume_ledger)
           (fst (run (chat_with (photos 3) (download_raising_at 3))
                     "bob" [] (Json resume_ledger)))).
  - reflexivity.
  - intros key v Hin. vm_compute in Hin.
    destruct Hin as [[= <- <-]|[[= <- <-]|[[= <- <-]|[]]]];
      (split; [reflexivity|discriminate]).
  - now rewrite <- surjective_pairing.
Defined.














Section Ready.
Variables (client : client_t) (user_id : string) (l0 : ledger).

Local Abbreviation rdy := (ready client user_id l0).






End Ready.



(** ** No message is downloaded twice *)

Lemma called_app tr tr' : called (tr ++ tr') = (called tr ++ called tr')%list.
Proof. apply flat_map_app. Qed.

Lemma called_marks tr : Forall (fun e => is_mark e = true) tr -> called tr = [].
Proof.
  induction 1 as [|e tr He _ IH]; [reflexivity|].
  destruct e; try discriminate. exact IH.
Qed.

Lemma called_calls client fs tasks :
  called (calls client fs tasks) = map fst tasks.
Proof.
  unfold calls. pose proof (run_tasks_length client fs tasks) as Hlen.
  revert Hlen. generalize (fst (run_tasks client fs tasks)) as rs.
  induction tasks as [|[m p] tasks IH]; intros [|r rs] Hlen; simpl in *;
    try discriminate; [reflexivity|].
  f_equal. apply IH. congruence.
Qed.

Lemma queue_keys client chat q messages :
  handles client chat -> queue_messages chat q = Ok messages ->
  map key_of messages = q.
Proof.
  intros Hh H. apply queue_messages_Ok in H.
  induction H as [|key m q ms (item & Hg & Hm) _ IH]; [reflexivity|].
  simpl. destruct (Hh _ _ _ Hg Hm) as [-> _]. now f_equal.
Qed.

(** The downloads of a batch are those of the whole queue, or none. *)
Lemma batch_called client q chat fs r chat' fs' tr :
  handles client chat ->
  download_messages client q chat fs = (r, chat', fs', tr) ->
  called tr = [] \/ map key_of (called tr) = q.
Proof.
  intros Hh. unfold download_messages.
  destruct (queue_messages chat q) as [messages|e|] eqn:Eq;
    [|intros [= _ _ _ <-]; now left..].
  destruct (download_tasks fs messages) as [tasks|e|] eqn:Et;
    [|intros [= _ _ _ <-]; now left..].
  apply download_tasks_Ok in Et. destruct Et as [Hfst _].
  assert (Hq : map key_of (called (calls client fs tasks)) = q)
    by (rewrite called_calls, Hfst; eapply queue_keys; eassumption).
  destruct (gather client fs tasks) as [[file_paths|e|] fs1];
    [|intros [= _ _ _ <-]; now right..].
  destruct (record_results fs1 chat messages file_paths) as [[r1 cs1] marks] eqn:Er.
  intros [= _ _ _ <-]. right.
  apply record_results_marks in Er.
  now rewrite called_app, (called_marks _ Er), List.app_nil_r.
Qed.

Lemma examine_keeps_handles client chat q m chat' q' tr :
  handles client chat -> In m (history client) ->
  examine chat q m = Ok (chat', q', tr) -> handles client chat'.
Proof.
  intros Hh Hm. unfold examine. fold (key_of m).
  destruct (Dict.get chat (key_of m)) as [item|].
  - intros H. apply bind_Ok in H. destruct H as ([|] & _ & [= <- _ _]);
      [|assumption].
    apply handles_set; [assumption|]. simpl. now intros m' [= <-].
  - destruct (media m && has_file m); intros [= <- _ _];
      (apply handles_set; [assumption|]; simpl;
       first [now intros m' [= <-] | discriminate]).
Qed.

Lemma NoDup_map_filter {A B} (f : A -> B) (p : A -> bool) l :
  NoDup (map f l) -> NoDup (map f (filter p l)).
Proof.
  induction l as [|a l IH]; simpl; [auto|].
  intros H. inversion H as [|? ? Hnot Hrest]; subst.
  destruct (p a); simpl; [|auto]. constructor; [|auto].
  intros Hin. apply Hnot. apply in_map_iff in Hin.
  destruct Hin as (x & <- & Hx). apply filter_In in Hx. now apply in_map.
Qed.

Section Once.
Variables (client : client_t) (user_id : string).

Lemma batch_once seen st chat r chat' fs' tr :
  once client user_id seen st ->
  Dict.get (r_state st) user_id = Some chat ->
  download_messages client (r_queue st) chat (r_disk st) = (r, chat', fs', tr) ->
  NoDup (map key_of (called (r_trace st ++ tr))) /\
  incl (map key_of (called (r_trace st ++ tr))) seen /\
  handles client chat'.
Proof.
  intros (Hnd & Hincl & chat0 & Hg0 & Hh) Hg Hd.
  assert (chat0 = chat) by congruence. subst chat0.
  pose proof (download_messages_batch_step _ _ _ _ _ _ _ _ Hd) as Hb.
  split; [|split; [|eapply handles_batch_step; eassumption]];
    rewrite called_app, map_app;
    destruct (batch_called _ _ _ _ _ _ _ _ Hh Hd) as [->| ->];
    simpl; rewrite ?List.app_nil_r; auto.
  - now apply NoDup_app_remove_r in Hnd.
  - intros key Hin. apply Hincl. apply in_or_app. now left.
Qed.

Lemma flush_if_full_once seen st r st' :
  once client user_id seen st ->
  flush_if_full client user_id st = (r, st') ->
  (r = Ok tt /\ once client user_id seen st') \/
  (is_ok r = false /\ NoDup (map key_of (called (r_trace st')))).
Proof.
  intros Hst. pose proof Hst as (Hnd & Hincl & chat & Hg & Hh).
  unfold flush_if_full.
  destruct (20 <=? List.length (r_queue st))%nat; [|intros [= <- <-]; now left].
  rewrite Hg.
  destruct (download_messages client (r_queue st) chat (r_disk st))
    as [[[r1 cs] fs] tr] eqn:Ed.
  cbv zeta.
  destruct (batch_once _ _ _ _ _ _ _ Hst Hg Ed) as (Hnd' & Hincl' & Hh').
  destruct r1 as [[]|e|]; [|intros [= <- <-]; now right..].
  destruct (write_state_to_file (Dict.set (r_state st) user_id cs) user_id)
    as [[w s] f] eqn:Ew.
  apply write_state_to_file_chat with (chat := cs) in Ew;
    [|apply DictFacts.get_set_same].
  destruct Ew as [_ Hgs].
  assert (Hcalled : called (r_trace st ++ tr ++ [Save f])
                    = called (r_trace st ++ tr))
    by (rewrite List.app_assoc, called_app; simpl; apply List.app_nil_r).
  destruct w as [[]|e|]; intros [= <- <-].
  - left. split; [reflexivity|]. unfold once. cbn [r_trace r_queue r_state].
    rewrite Hcalled, List.app_nil_r. split; [assumption|]. split; [assumption|].
    exists (Dict.map_values del_message cs). split; [assumption|apply handles_strip].
  - right. split; [reflexivity|]. cbn [r_trace]. now rewrite Hcalled.
  - right. split; [reflexivity|]. cbn [r_trace]. now rewrite Hcalled.
Qed.

Lemma step_once seen st m r st' :
  once client user_id seen st ->
  In m (history client) -> ~ In (key_of m) seen ->
  step client user_id st m = (r, st') ->
  (r = Ok tt /\ once client user_id (key_of m :: seen) st') \/
  (is_ok r = false /\ NoDup (map key_of (called (r_trace st')))).
Proof.
  intros (Hnd & Hincl & chat & Hg & Hh) Hm Hnew. unfold step. rewrite Hg.
  assert (Hstay : NoDup (map key_of (called (r_trace st))))
    by now apply NoDup_app_remove_r in Hnd.
  destruct (examine chat (r_queue st) m) as [[[cs q] tr]|e|] eqn:Ee;
    [|intros [= <- <-]; now right..].
  pose proof (examine_keeps_handles _ _ _ _ _ _ _ Hh Hm Ee) as Hh'.
  assert (Hcalled : called (r_trace st ++ tr) = called (r_trace st)).
  { rewrite called_app.
    destruct (examine_trace _ _ _ _ _ _ Ee) as [[-> _]|[-> _]];
      simpl; apply List.app_nil_r. }
  assert (H1 : once client user_id (key_of m :: seen)
                 (mkRun (Dict.set (r_state st) user_id cs) q (r_disk st)
                        (r_file st) (r_trace st ++ tr)%list)).
  { unfold once. cbn [r_trace r_queue r_state]. rewrite Hcalled.
    split; [|split].
    - destruct (examine_trace _ _ _ _ _ _ Ee) as [[_ ->]|[_ ->]]; [assumption|].
      rewrite List.app_assoc. apply NoDup_app; [assumption|repeat constructor; auto|].
      intros key Hin [<-|[]]. now apply Hincl in Hin.
    - destruct (examine_trace _ _ _ _ _ _ Ee) as [[_ ->]|[_ ->]].
      + now apply incl_tl.
      + rewrite List.app_assoc. apply incl_app; [now apply incl_tl|].
        intros key [<-|[]]. now left.
    - exists cs. rewrite DictFacts.get_set_same. auto. }
  intros Hf. destruct (flush_if_full_once _ _ _ _ H1 Hf) as [H|H]; auto.
Qed.

Lemma stream_once messages : forall seen st r st',
  once client user_id seen st ->
  Forall (fun m => In m (history client)) messages ->
  NoDup (map key_of messages) ->
  (forall m, In m messages -> ~ In (key_of m) seen) ->
  stream client user_id messages st = (r, st') ->
  (r = Ok tt /\ exists seen', once client user_id seen' st') \/
  (is_ok r = false /\ NoDup (map key_of (called (r_trace st')))).
Proof.
  induction messages as [|m rest IH]; simpl; intros seen st r st' Hst Hall Hnd Hnew.
  - intros [= <- <-]. left. eauto.
  - inversion Hall as [|? ? Hm Hrest]; subst.
    inversion Hnd as [|? ? Hnot Hnd']; subst.
    destruct (step client user_id st m) as [r1 st1] eqn:Es.
    destruct (step_once _ _ _ _ _ Hst Hm (Hnew m (or_introl eq_refl)) Es)
      as [[-> H1]|[Hr H1]].
    + apply (IH (key_of m :: seen)); try assumption.
      intros m' Hin [Heq|Hseen].
      * apply Hnot. rewrite Heq. now apply in_map.
      * apply (Hnew m'); [now right|assumption].
    + destruct r1 as [[]|e|]; [discriminate|intros [= <- <-]; now right..].
Qed.

Lemma drain_once seen st r st' :
  once client user_id seen st ->
  drain client user_id st = (r, st') ->
  NoDup (map key_of (called (r_trace st'))).
Proof.
  intros Hst. pose proof Hst as (_ & _ & chat & Hg & _). unfold drain. rewrite Hg.
  destruct (download_messages client (r_queue st) chat (r_disk st))
    as [[[r1 cs] fs] tr] eqn:Ed.
  intros [= _ <-]. cbn [r_trace].
  now destruct (batch_once _ _ _ _ _ _ _ Hst Hg Ed) as (H & _).
Qed.

End Once.

Lemma try_block_once client user_id st r st' :
  r_trace st = [] -> r_queue st = [] ->
  (forall chat, Dict.get (r_state st) user_id = Some chat -> handles client chat) ->
  NoDup (map id (history client)) ->
  try_block client user_id st = (r, st') ->
  NoDup (map key_of (called (r_trace st'))).
Proof.
  intros Htr Hq Hplain Hnd. unfold try_block.
  assert (Hnil : NoDup (map key_of (called (r_trace st))))
    by (rewrite Htr; constructor).
  destruct (get_entity client user_id) as [[]|e|];
    [|now intros [= _ <-]..].
  destruct (get_last_id (r_state st) user_id) as [r1 state1] eqn:Eg.
  apply get_last_id_anchored in Eg.
  assert (H1 : once client user_id []
                 (mkRun state1 (r_queue st) (r_disk st) (r_file st) (r_trace st))).
  { unfold once. cbn [r_trace r_queue r_state]. rewrite Htr, Hq. simpl.
    split; [constructor|]. split; [apply incl_refl|].
    exists (chat_of (r_state st) user_id).
    rewrite Eg, DictFacts.get_set_same. split; [reflexivity|].
    unfold chat_of. destruct (Dict.get (r_state st) user_id) as [chat|] eqn:E;
      [now apply Hplain|]. now intros key item m [=]. }
  destruct r1 as [last_id|e|]; [|now intros [= _ <-]..].
  destruct (stream client user_id _ _) as [r2 st2] eqn:Est.
  apply (stream_once _ _ _ _ _ _ _ H1) in Est.
  - destruct Est as [[-> (seen' & H2)]|[Hr H2]].
    + intros Hd. eapply drain_once; eassumption.
    + destruct r2 as [[]|e|]; [discriminate|now intros [= _ <-]..].
  - apply Forall_forall. intros m Hm. now apply iter_messages_In in Hm.
  - unfold iter_messages. apply NoDup_map_filter.
    unfold key_of. rewrite <- (map_map id str).
    apply Injective_map_NoDup; [|assumption]. intros a b. apply str_inj.
  - intros m _ [].
Qed.

(** X16.  When the ids of the chat's history are distinct, a run
    downloads no message twice, whatever it comes to: the download
    calls it issued, over all its batches, were for messages with
    pairwise different ids. *)
Theorem run_downloads_no_message_twice :
  forall client user_id fs f state0 r st,
    read_state_from_file f = Ok state0 ->
    NoDup (map id (history client)) ->
    run client user_id fs f = (r, st) ->
    NoDup (map id (called (r_trace st))).
Proof.
  intros client user_id fs f state0 r st Hread Hnd. unfold run. rewrite Hread.
  destruct (try_block client user_id (mkRun state0 [] fs f [])) as [r1 st1] eqn:Et.
  apply try_block_once in Et; try reflexivity; try assumption.
  - unfold finally_save.
    destruct (write_state_to_file (r_state st1) user_id) as [[w s] f'].
    intros [= _ <-]. cbn [r_trace]. rewrite called_app. simpl.
    rewrite List.app_nil_r. unfold key_of in Et.
    rewrite <- (map_map id str) in Et. now apply NoDup_map_inv in Et.
  - cbn [r_state]. intros chat Hg. apply handles_plain.
    intros key value. eapply read_state_from_file_plain; eassumption.
Qed.

Lemma run_downloads_no_message_twice_witness :
  NoDup (map id (called (r_trace (snd (run (chat_with (photos 3) download_ok)
                                            "bob" [] NoFile))))).
Proof.
  apply (run_downloads_no_message_twice (chat_with (photos 3) download_ok)
           "bob" [] NoFile Dict.empty
           (fst (run (chat_with (photos 3) download_ok) "bob" [] NoFile))).
  - reflexivity.
  - simpl. repeat constructor; simpl; intuition discriminate.
  - now rewrite <- surjective_pairing.
Defined.

(** ** The command line *)

Lemma underscored_no_dash s : has_dash (underscored s) = false.
Proof.
  induction s as [|c s IH]; simpl; [reflexivity|].
  rewrite IH, orb_false_r. now destruct (Ascii.eqb c "-") eqn:E.
Qed.

Lemma vars_parse_args_keys (given : argument -> pyval) parser :
  forall (d : Dict.t pyval) key,
  In key (Dict.keys (fold_left (fun d a => Dict.set d (dest a) (given a)) parser d)) ->
  In key (Dict.keys d) \/ In key (map dest parser).
Proof.
  induction parser as [|a parser IH]; simpl; intros d key H; [auto|].
  apply IH in H. destruct H as [H|H]; [|auto].
  rewrite DictFacts.keys_set in H. destruct (Dict.mem d (dest a)); [auto|].
  apply in_app_or in H. destruct H as [H|[<-|[]]]; auto.
Qed.

(** No key of the dictionary the arguments are read from has a dash in
    it, whatever the parser declares. *)
Lemma getitem_dashed parser given key :
  has_dash key = true ->
  getitem (vars_parse_args parser given) key = Raise KeyError.
Proof.
  intros Hdash. unfold getitem.
  destruct (Dict.get (vars_parse_args parser given) key) as [v|] eqn:E;
    [|reflexivity].
  assert (Hin : In key (Dict.keys (vars_parse_args parser given))).
  { apply DictFacts.mem_true. unfold Dict.mem. now rewrite E. }
  apply vars_parse_args_keys in Hin. destruct Hin as [[]|Hin].
  apply in_map_iff in Hin. destruct Hin as (a & <- & _).
  unfold dest in Hdash. now rewrite underscored_no_dash in Hdash.
Qed.

(** X17.  [main] never gets to the client.  On every command line that
    argparse accepts it raises [KeyError] at [arguments["app-id"]]: the
    values are stored under [app_id], [api_hash] and [user_id], and the
    keys [main] reads have dashes.  Nothing is downloaded and no ledger
    is read or written. *)
Theorem main_raises_KeyError :
  forall given start,
    main given start = Raise KeyError /\
    Dict.keys (vars_parse_args create_argparser given)
      = ["app_id"; "api_hash"; "user_id"].
Proof.
  intros given start. split; [|reflexivity].
  unfold main. cbv zeta. now rewrite getitem_dashed.
Qed.
